(** * FieldMax offline support: request queue, drain pass and response cache

    A shallow embedding of the offline layer of the FieldMax shop:

    - [static/js/offline-manager.js], the client controller that keeps its
      queue in IndexedDB (module [IdbManager]);
    - the earlier client controller that keeps its queue in an array
      mirrored to localStorage (module [LocalManager]);
    - [static/js/service-worker.js], the background agent with its response
      cache and its own drain pass (module [ServiceWorker]), and the earlier
      agent with a separate API cache (module [LegacyWorker]);
    - the cache of API data and pages that the IndexedDB controller keeps
      for itself (module [IdbCache]).

    Asynchronous functions are modelled by explicit state passing; what the
    platform supplies (clock readings, random suffixes, the outcome of a
    network call) is an argument of the function that consumes it.  The
    IndexedDB database outlives the page that opened it: a series of page
    visits hands it from one execution context to the next. *)

From Stdlib Require Import ZArith Ascii String List Lia.
From stdpp Require Import base option list gmap sorting strings pretty.

Local Open Scope Z_scope.

(** ** Promise results *)

(** A settled promise: fulfilled with a value or rejected with the name of
    the error. *)
Inductive result (A : Type) : Type :=
| Ok (a : A)
| Err (e : string).
Arguments Ok {A} a.
Arguments Err {A} e.

Definition is_ok {A} (r : result A) : bool :=
  match r with Ok _ => true | Err _ => false end.

(** ** IndexedDB object stores keyed by a string key path *)

(** A store is a finite map from primary key to record.  A request on a
    store succeeds, except [add] on a key that is taken. *)

Module IDB.

(** [store.add]: rejects with ConstraintError when the key is taken. *)
Definition add {V} (k : string) (v : V) (s : gmap string V)
  : result (gmap string V) :=
  match s !! k with
  | Some _ => Err "ConstraintError"
  | None => Ok (<[k := v]> s)
  end.

(** [store.put]: inserts or overwrites. *)
Definition put {V} (k : string) (v : V) (s : gmap string V)
  : gmap string V := <[k := v]> s.

(** [store.delete]: succeeds whether or not the key is present. *)
Definition delete {V} (k : string) (s : gmap string V)
  : gmap string V := base.delete k s.

(** [store.count]. *)
Definition count {V} (s : gmap string V) : nat := size s.

(** Records of a store in ascending primary key order, as [store.getAll]
    and a cursor over the store deliver them.  String keys compare by
    code unit, which is [String.le] on the ASCII keys used here. *)
Definition key_le {V} (a b : string * V) : Prop := String.le a.1 b.1.

Global Instance key_le_dec {V} : RelDecision (@key_le V).
Proof. intros a b. unfold key_le. apply _. Defined.

Definition getAll {V} (s : gmap string V) : list V :=
  snd <$> merge_sort key_le (map_to_list s).

(** An index over a numeric key path: the entries are ordered by index key
    and, among equal index keys, by primary key.  A record whose key path
    does not evaluate to a valid key has no entry. *)
Definition entry_le {V} (a b : Z * string * V) : Prop :=
  a.1.1 < b.1.1 ∨ (a.1.1 = b.1.1 ∧ String.le a.1.2 b.1.2).

Global Instance entry_le_dec {V} : RelDecision (@entry_le V).
Proof. intros a b. unfold entry_le. apply _. Defined.

Definition index_entries {V} (key_path : V → option Z) (s : gmap string V)
  : list (Z * string * V) :=
  omap (λ kv, p ← key_path kv.2; Some (p, kv.1, kv.2)) (map_to_list s).

Definition index_cursor {V} (key_path : V → option Z) (s : gmap string V)
  : list V :=
  snd <$> merge_sort entry_le (index_entries key_path s).

End IDB.

(** ** The queued operation *)

(** What [priorities[priority] || 2] can evaluate to: a number, or a member
    that the lookup finds on [Object.prototype] when [priority] is one of
    its property names. *)
Inductive jsval : Type :=
| JNum (n : Z)
| JInherited (name : string).

Global Instance jsval_eq_dec : EqDecision jsval.
Proof. solve_decision. Defined.

Record Request : Type := mkRequest {
  id : string;
  method : string;
  url : string;
  data : option string;
  timestamp : Z;          (* milliseconds since the epoch; the code keeps the
                             ISO-8601 rendering of this instant *)
  priority : jsval;
  retries : Z;
  maxRetries : Z
}.

Definition set_retries (n : Z) (r : Request) : Request :=
  mkRequest (id r) (method r) (url r) (data r) (timestamp r) (priority r)
            n (maxRetries r).

(** A record of the [failed] store: the request's own fields spread, plus
    [error] and [failedAt]. *)
Record FailedRequest : Type := mkFailed {
  request : Request;
  error : string;
  failedAt : Z
}.

(** The two object stores of FieldmaxOfflineDB that the queue uses. *)
Record DB : Type := mkDB {
  requests : gmap string Request;
  failed : gmap string FailedRequest
}.

Definition set_requests (q : gmap string Request) (d : DB) : DB :=
  mkDB q (failed d).
Definition set_failed (f : gmap string FailedRequest) (d : DB) : DB :=
  mkDB (requests d) f.

Definition emptyDB : DB := mkDB ∅ ∅.

(** Every record sits under its own [id]: the key path of the stores. *)
Definition keyed_store (s : gmap string Request) : Prop :=
  map_Forall (λ k r, id r = k) s.

Definition keyed (d : DB) : Prop :=
  keyed_store (requests d) ∧
  map_Forall (λ k f, id (request f) = k) (failed d).

Global Instance keyed_store_dec s : Decision (keyed_store s).
Proof. unfold keyed_store. apply _. Defined.

Global Instance keyed_dec d : Decision (keyed d).
Proof. unfold keyed. apply _. Defined.

(** The order of the [priority] index on records that have an index key:
    by priority, then by [id]. *)
Definition priority_of (r : Request) : option Z :=
  match priority r with
  | JNum n => Some n
  | JInherited _ => None
  end.

Definition priority_then_id (r1 r2 : Request) : Prop :=
  match priority_of r1, priority_of r2 with
  | Some p1, Some p2 => p1 < p2 ∨ (p1 = p2 ∧ String.le (id r1) (id r2))
  | _, _ => False
  end.

(** The order by priority, then by enqueue time. *)
Definition priority_then_time (r1 r2 : Request) : Prop :=
  match priority_of r1, priority_of r2 with
  | Some p1, Some p2 => p1 < p2 ∨ (p1 = p2 ∧ timestamp r1 ≤ timestamp r2)
  | _, _ => False
  end.

(** The order by [id] alone. *)
Definition id_le (r1 r2 : Request) : Prop := String.le (id r1) (id r2).

Global Instance priority_then_id_dec : RelDecision priority_then_id.
Proof.
  intros r1 r2. unfold priority_then_id.
  destruct (priority_of r1), (priority_of r2); apply _.
Defined.

Global Instance priority_then_time_dec : RelDecision priority_then_time.
Proof.
  intros r1 r2. unfold priority_then_time.
  destruct (priority_of r1), (priority_of r2); apply _.
Defined.

Global Instance id_le_dec : RelDecision id_le.
Proof. intros r1 r2. unfold id_le. apply _. Defined.

(** How a call of [processQueuedRequest(request)] settles: the network call
    went through with an ok response, or it threw. *)
Inductive outcome : Type :=
| Fulfilled
| Rejected (message : string).

(** ** The client controller over IndexedDB ([static/js/offline-manager.js]) *)

Module IdbManager.

Record OfflineManager : Type := mkManager {
  isOnline : bool;
  syncInProgress : bool;
  db : DB
}.

Definition set_db (d : DB) (om : OfflineManager) : OfflineManager :=
  mkManager (isOnline om) (syncInProgress om) d.
Definition set_syncInProgress (b : bool) (om : OfflineManager)
  : OfflineManager :=
  mkManager (isOnline om) b (db om).
(** *** getPriorityValue *)

Definition priorities : list (string * Z) :=
  [("critical", 0); ("high", 1); ("normal", 2); ("low", 3)].

(** Property names that every object literal inherits. *)
Definition object_prototype_members : list string :=
  ["constructor"; "__proto__"; "hasOwnProperty"; "isPrototypeOf";
   "propertyIsEnumerable"; "toLocaleString"; "toString"; "valueOf";
   "__defineGetter__"; "__defineSetter__"; "__lookupGetter__";
   "__lookupSetter__"].

Fixpoint own_property (table : list (string * Z)) (key : string)
  : option Z :=
  match table with
  | [] => None
  | (k, v) :: rest => if String.eqb k key then Some v
                      else own_property rest key
  end.

(** [table[key]]: own properties first, then the prototype; [None] is
    [undefined]. *)
Definition js_get (table : list (string * Z)) (key : string)
  : option jsval :=
  match own_property table key with
  | Some n => Some (JNum n)
  | None => if bool_decide (key ∈ object_prototype_members)
            then Some (JInherited key) else None
  end.

Definition truthy (v : jsval) : bool :=
  match v with
  | JNum n => negb (n =? 0)
  | JInherited _ => true
  end.

(** [a || b]. *)
Definition js_or (a : option jsval) (b : jsval) : jsval :=
  match a with
  | Some v => if truthy v then v else b
  | None => b
  end.

Definition getPriorityValue (priority : string) : jsval :=
  js_or (js_get priorities priority) (JNum 2).

(** *** queueRequest and addToQueue *)

(** The structured clone that [store.add] takes of the record fails on a
    function; the prototype object itself is cloned as a plain object. *)
Definition clonable (v : jsval) : bool :=
  match v with
  | JNum _ => true
  | JInherited name => String.eqb name "__proto__"
  end.

Definition addToQueue (request : Request) (d : DB) : result DB :=
  if clonable (priority request)
  then match IDB.add (id request) request (requests d) with
       | Ok q => Ok (set_requests q d)
       | Err e => Err e
       end
  else Err "DataCloneError".

(** What one call of [queueRequest] reads from the platform. *)
Record Entropy : Type := mkEntropy {
  date_now : Z;        (* Date.now() *)
  random36 : string;   (* Math.random().toString(36).substr(2, 9) *)
  new_date : Z         (* new Date(), read after Date.now() *)
}.

Definition make_id (e : Entropy) : string :=
  pretty (date_now e) +:+ "-" +:+ random36 e.

(** The [priority] argument is [None] when the caller leaves it out. *)
Definition make_request (e : Entropy) (method url : string)
    (data : option string) (priority : option string) : Request :=
  mkRequest (make_id e) method url data (new_date e)
            (getPriorityValue (default "normal" priority)) 0 3.

(** Returns the new id, or the error with the manager unchanged. *)
Definition queueRequest (e : Entropy) (method url : string)
    (data : option string) (priority : option string)
    (om : OfflineManager) : result string * OfflineManager :=
  let request := make_request e method url data priority in
  match addToQueue request (db om) with
  | Ok d => (Ok (id request), set_db d om)
  | Err err => (Err err, om)
  end.

Definition getQueueSize (om : OfflineManager) : nat :=
  IDB.count (requests (db om)).

(** *** getQueuedRequests *)

(** The index key of the [priority] index: a record whose [priority] is
    not a number has none. *)
Definition priority_key (r : Request) : option Z := priority_of r.

(** The cursor callback: push while the cursor has a record and fewer
    than [limit] were collected. *)
Fixpoint cursor_loop (limit : Z) (cursor : list Request)
    (collected : list Request) : list Request :=
  match cursor with
  | [] => collected
  | value :: rest =>
      if Z.of_nat (length collected) <? limit
      then cursor_loop limit rest (collected ++ [value])
      else collected
  end.

Definition getQueuedRequests_limit (limit : Z) (d : DB) : list Request :=
  cursor_loop limit (IDB.index_cursor priority_key (requests d)) [].

Definition getQueuedRequests (d : DB) : list Request :=
  getQueuedRequests_limit 50 d.

(** *** The drain pass: syncOfflineData *)

(** [processQueuedRequest] is left by the class to the earlier controller
    ([LocalManager]), where it issues the network call and throws on a
    response that is not ok; its [outcome] is an input of the pass. *)

(** [syncOfflineData] calls [this.updateRequest(request)], and the class
    has no member of that name.  Both readings are kept: the call as the
    file stands, and the store update it names. *)
Inductive update_impl : Type :=
| UpdateUndefined   (* the member is undefined: the call throws TypeError *)
| UpdatePut.        (* the record is written back under its id *)

(** Modelled from the spec: [updateRequest], called by [syncOfflineData]
    and absent from the class.  The spec's Queue Store contract has
    [update(operation)], an in-place mutation of the stored operation;
    [UpdatePut] is that, [UpdateUndefined] is the call on the class as it
    is written. *)
Definition updateRequest (impl : update_impl) (request : Request) (d : DB)
  : result DB :=
  match impl with
  | UpdateUndefined => Err "TypeError"
  | UpdatePut =>
      Ok (set_requests (IDB.put (id request) request (requests d)) d)
  end.

Definition removeFromQueue (key : string) (d : DB) : DB :=
  set_requests (IDB.delete key (requests d)) d.

Definition moveToFailed (request : Request) (error : string) (now : Z)
    (d : DB) : result DB :=
  match IDB.add (id request) (mkFailed request error now) (failed d) with
  | Ok f => Ok (set_failed f d)
  | Err e => Err e
  end.

(** One iteration of the [for] loop, after [processQueuedRequest] has
    settled with [o], up to its first suspension after a change of the
    database.  [Moved]: [moveToFailed] is done and [removeFromQueue] is
    still to come.  [Thrown] is an exception that leaves the inner [catch]
    block, so that the outer [catch] ends the pass. *)
Inductive entry_stage : Type :=
| Settled (d : DB) (synced : bool)
| Moved (d : DB) (request : Request)
| Thrown (d : DB) (e : string).

Definition begin_entry (impl : update_impl) (o : outcome) (now : Z)
    (request : Request) (d : DB) : entry_stage :=
  match o with
  | Fulfilled => Settled (removeFromQueue (id request) d) true
  | Rejected message =>
      let request := set_retries (retries request + 1) request in
      if retries request >=? maxRetries request
      then match moveToFailed request message now d with
           | Ok d1 => Moved d1 request
           | Err e => Thrown d e
           end
      else match updateRequest impl request d with
           | Ok d1 => Settled d1 false
           | Err e => Thrown d e
           end
  end.

(** The whole iteration, when nothing else runs in between. *)
Inductive entry_result : Type :=
| Continue (d : DB) (synced : bool)
| Abort (d : DB) (e : string).

Definition process_entry (impl : update_impl) (o : outcome) (now : Z)
    (request : Request) (d : DB) : entry_result :=
  match begin_entry impl o now request d with
  | Settled d1 synced => Continue d1 synced
  | Moved d1 request => Continue (removeFromQueue (id request) d1) false
  | Thrown d1 e => Abort d1 e
  end.

(** What a pass reports: the requests handed to [processQueuedRequest],
    in call order, the two counters and the error of the outer [catch]. *)
Record Summary : Type := mkSummary {
  attempted : list Request;
  successCount : Z;
  failCount : Z;
  sync_error : option string
}.

Definition summary0 : Summary := mkSummary [] 0 0 None.

Definition tally (request : Request) (synced : bool) (s : Summary)
  : Summary :=
  mkSummary (attempted s ++ [request])
            (if synced then successCount s + 1 else successCount s)
            (if synced then failCount s else failCount s + 1)
            (sync_error s).

Definition aborted (request : Request) (e : string) (s : Summary)
  : Summary :=
  mkSummary (attempted s ++ [request]) (successCount s) (failCount s)
            (Some e).

(** The [for] loop over the snapshot, run without interruption.  [net]
    settles each call and [clock] is the reading that stamps
    [failedAt]. *)
Fixpoint drain (impl : update_impl) (net : Request → outcome)
    (clock : Request → Z) (todo : list Request) (d : DB) (s : Summary)
  : DB * Summary :=
  match todo with
  | [] => (d, s)
  | request :: rest =>
      match process_entry impl (net request) (clock request) request d with
      | Continue d1 synced =>
          drain impl net clock rest d1 (tally request synced s)
      | Abort d1 e => (d1, aborted request e s)
      end
  end.

(** A whole call of [syncOfflineData]; [None] when the guard returns at
    once. *)
Definition syncOfflineData (impl : update_impl) (net : Request → outcome)
    (clock : Request → Z) (om : OfflineManager)
  : OfflineManager * option Summary :=
  if syncInProgress om || negb (isOnline om) then (om, None)
  else
    let om1 := set_syncInProgress true om in
    let '(d, s) :=
      drain impl net clock (getQueuedRequests (db om1)) (db om1) summary0 in
    (set_syncInProgress false (set_db d om1), Some s).

(** *** The execution context: calls of syncOfflineData in flight *)

(** Where a call of [syncOfflineData] is suspended: in
    [getQueuedRequests], in [processQueuedRequest(request)] with [rest]
    still to come, in [removeFromQueue] after [moveToFailed], or in
    [updateQueueCounter] after the flag is cleared.  A resumption runs the
    call up to its next suspension after a change of the database, or up to
    its next network call. *)
Inductive pass : Type :=
| AwaitSnapshot
| AwaitRequest (request : Request) (rest : list Request)
| AwaitRemove (request : Request) (rest : list Request)
| AwaitCounter.

Definition draining (p : pass) : bool :=
  match p with
  | AwaitSnapshot | AwaitRequest _ _ | AwaitRemove _ _ => true
  | AwaitCounter => false
  end.

Record Context : Type := mkContext {
  om : OfflineManager;
  tasks : list pass
}.

(** What reaches the controller: a call of [syncOfflineData] (from [init],
    or from the listener of [visibilitychange]), an [online] or [offline]
    event of the window, a call of [queueRequest], and the settling of the
    promise on which the call [i] is suspended. *)
Inductive event : Type :=
| Trigger
| Connectivity (online : bool)
| Enqueue (e : Entropy) (method url : string) (data : option string)
          (priority : option string)
| Resume (i : nat) (o : outcome) (now : Z).

(** The loop is over, normally or through the outer [catch]: [finally]
    clears the flag and suspends in [updateQueueCounter]. *)
Definition finish (i : nat) (d : DB) (c : Context) : Context :=
  mkContext (set_syncInProgress false (set_db d (om c)))
            (<[i := AwaitCounter]> (tasks c)).

Definition next_entry (i : nat) (d : DB) (rest : list Request)
    (c : Context) : Context :=
  match rest with
  | [] => finish i d c
  | request :: rest' =>
      mkContext (set_db d (om c))
                (<[i := AwaitRequest request rest']> (tasks c))
  end.

Definition resume (impl : update_impl) (i : nat) (o : outcome) (now : Z)
    (c : Context) : Context :=
  match tasks c !! i with
  | None => c
  | Some AwaitSnapshot =>
      next_entry i (db (om c)) (getQueuedRequests (db (om c))) c
  | Some (AwaitRequest request rest) =>
      match begin_entry impl o now request (db (om c)) with
      | Settled d _ => next_entry i d rest c
      | Moved d request' =>
          mkContext (set_db d (om c))
                    (<[i := AwaitRemove request' rest]> (tasks c))
      | Thrown d _ => finish i d c
      end
  | Some (AwaitRemove request rest) =>
      next_entry i (removeFromQueue (id request) (db (om c))) rest c
  | Some AwaitCounter => mkContext (om c) (base.delete i (tasks c))
  end.

Definition step (impl : update_impl) (ev : event) (c : Context) : Context :=
  match ev with
  | Trigger =>
      if syncInProgress (om c) || negb (isOnline (om c)) then c
      else mkContext (set_syncInProgress true (om c))
                     (tasks c ++ [AwaitSnapshot])
  | Connectivity online =>
      (* handleOnline() and handleOffline() have empty bodies: [isOnline]
         keeps the value that the constructor read from navigator.onLine *)
      c
  | Enqueue e method url data priority =>
      mkContext (queueRequest e method url data priority (om c)).2 (tasks c)
  | Resume i o now => resume impl i o now c
  end.

Fixpoint run (impl : update_impl) (evs : list event) (c : Context)
  : Context :=
  match evs with
  | [] => c
  | ev :: rest => run impl rest (step impl ev c)
  end.

(** The context after the constructor and [initDatabase] on a new
    database. *)
Definition init (online : bool) : Context :=
  mkContext (mkManager online false emptyDB) [].

(** The context after the constructor and [initDatabase] on the database
    that earlier page loads have left: FieldmaxOfflineDB outlives the
    page, the manager and its calls in flight do not. *)
Definition load (online : bool) (d : DB) : Context :=
  mkContext (mkManager online false d) [].

(** A page visit: what [navigator.onLine] reads when the page loads, and
    what reaches the controller until the page is left. *)
Definition visit : Type := bool * list event.

(** The database after a series of page visits. *)
Fixpoint after_visits (impl : update_impl) (vs : list visit) (d : DB) : DB :=
  match vs with
  | [] => d
  | v :: rest =>
      after_visits impl rest (db (om (run impl v.2 (load v.1 d))))
  end.

End IdbManager.

(** ** Strings *)

(** The string methods that [getCookie] uses.  A character stands for a
    code unit below 256. *)

Module JsString.

(** [s.split(sep)] for a separator of one character. *)
Fixpoint split (sep : Ascii.ascii) (s : string) : list string :=
  match s with
  | EmptyString => [EmptyString]
  | String c rest =>
      if Ascii.eqb c sep then EmptyString :: split sep rest
      else match split sep rest with
           | [] => [String c EmptyString]
           | piece :: pieces => String c piece :: pieces
           end
  end.

(** White space and line terminators, as [trim] sees them. *)
Definition is_space (c : Ascii.ascii) : bool :=
  bool_decide (Ascii.nat_of_ascii c ∈ [9; 10; 11; 12; 13; 32; 160]%nat).

Fixpoint trim_start (s : string) : string :=
  match s with
  | EmptyString => EmptyString
  | String c rest => if is_space c then trim_start rest else s
  end.

Fixpoint trim_end (s : string) : string :=
  match s with
  | EmptyString => EmptyString
  | String c rest =>
      match trim_end rest with
      | EmptyString => if is_space c then EmptyString
                       else String c EmptyString
      | t => String c t
      end
  end.

(** [s.trim()]. *)
Definition trim (s : string) : string := trim_end (trim_start s).

(** [s.substring(0, n)] and [s.substring(n)]. *)
Fixpoint take (n : nat) (s : string) : string :=
  match n, s with
  | S n', String c rest => String c (take n' rest)
  | _, _ => EmptyString
  end.

Fixpoint drop (n : nat) (s : string) : string :=
  match n, s with
  | S n', String c rest => drop n' rest
  | _, _ => s
  end.

End JsString.

(** ** The client controller over localStorage (the earlier offline-manager) *)

Module LocalManager.

Record QueuedRequest : Type := mkQueued {
  id : string;
  method : string;
  url : string;
  data : option string;
  timestamp : Z;
  retries : Z
}.

Definition set_retries (n : Z) (r : QueuedRequest) : QueuedRequest :=
  mkQueued (id r) (method r) (url r) (data r) (timestamp r) n.

(** [stored] is the item [offlineQueue] of localStorage: [None] while it
    was never written, else the array that was serialised last.  A write to
    localStorage is taken to go through ([saveQueue] catches and logs a
    failure). *)
Record OfflineManager : Type := mkManager {
  isOnline : bool;
  offlineQueue : list QueuedRequest;
  syncInProgress : bool;
  stored : option (list QueuedRequest)
}.

Definition loadQueue (stored : option (list QueuedRequest))
  : list QueuedRequest := default [] stored.

Definition saveQueue (om : OfflineManager) : OfflineManager :=
  mkManager (isOnline om) (offlineQueue om) (syncInProgress om)
            (Some (offlineQueue om)).

Definition set_offlineQueue (q : list QueuedRequest) (om : OfflineManager)
  : OfflineManager :=
  mkManager (isOnline om) q (syncInProgress om) (stored om).

Definition set_syncInProgress (b : bool) (om : OfflineManager)
  : OfflineManager :=
  mkManager (isOnline om) (offlineQueue om) b (stored om).

(** The constructor, on the localStorage it finds. *)
Definition construct (online : bool) (stored : option (list QueuedRequest))
  : OfflineManager :=
  mkManager online (loadQueue stored) false stored.

Definition queueRequest (new_id : string) (now : Z) (method url : string)
    (data : option string) (om : OfflineManager)
  : string * OfflineManager :=
  let request := mkQueued new_id method url data now 0 in
  (id request, saveQueue (set_offlineQueue (offlineQueue om ++ [request]) om)).

Record SyncResults : Type := mkResults {
  success : Z;
  failed : Z;
  total : Z
}.

(** The loop over [queueCopy]: [q] is [this.offlineQueue], [calls] the
    requests handed to [processQueuedRequest] so far. *)
Fixpoint process_queue (net : QueuedRequest → outcome)
    (queueCopy : list QueuedRequest) (q : list QueuedRequest)
    (res : SyncResults) (calls : list QueuedRequest)
  : list QueuedRequest * SyncResults * list QueuedRequest :=
  match queueCopy with
  | [] => (q, res, calls)
  | request :: rest =>
      match net request with
      | Fulfilled =>
          process_queue net rest q
            (mkResults (success res + 1) (failed res) (total res))
            (calls ++ [request])
      | Rejected _ =>
          let request' := set_retries (retries request + 1) request in
          process_queue net rest
            (if retries request' <? 3 then q ++ [request'] else q)
            (mkResults (success res) (failed res + 1) (total res))
            (calls ++ [request])
      end
  end.

(** What a call of [syncOfflineData] did besides updating the manager. *)
Inductive sync_report : Type :=
| Skipped                 (* already in progress, or offline *)
| NothingToSync           (* the queue is empty *)
| Synced (res : SyncResults) (calls : list QueuedRequest)
         (background_sync : bool).

Definition syncOfflineData (net : QueuedRequest → outcome)
    (om : OfflineManager) : OfflineManager * sync_report :=
  if syncInProgress om || negb (isOnline om) then (om, Skipped)
  else if (length (offlineQueue om) =? 0)%nat then (om, NothingToSync)
  else
    let om1 := set_syncInProgress true om in
    let res0 := mkResults 0 0 (Z.of_nat (length (offlineQueue om1))) in
    let queueCopy := offlineQueue om1 in
    let om2 := set_offlineQueue [] om1 in
    let '(q, res, calls) :=
      process_queue net queueCopy (offlineQueue om2) res0 [] in
    let om3 := saveQueue (set_offlineQueue q om2) in
    let om4 := set_syncInProgress false om3 in
    (om4, Synced res calls (0 <? length (offlineQueue om4))%nat).

(** The message envelope of the agent: [type] and the optional fields. *)
Record Message : Type := mkMessage {
  type : string;
  error : option string;
  sent : option Z
}.

Definition handleServiceWorkerMessage (message : Message)
    (om : OfflineManager) : OfflineManager :=
  if String.eqb (type message) "SYNC_STARTED" then om
  else if String.eqb (type message) "SYNC_COMPLETED"
  then saveQueue (set_offlineQueue [] om)
  else if String.eqb (type message) "SYNC_FAILED" then om
  else om.

(** *** Connectivity events and the check on load *)

Definition set_isOnline (b : bool) (om : OfflineManager) : OfflineManager :=
  mkManager b (offlineQueue om) (syncInProgress om) (stored om).

(** [handleOnline]: the flag is set and, when the queue holds something,
    [syncOfflineData] is called; [None] when it is not called. *)
Definition handleOnline (net : QueuedRequest → outcome) (om : OfflineManager)
  : OfflineManager * option sync_report :=
  let om1 := set_isOnline true om in
  if (0 <? length (offlineQueue om1))%nat
  then let '(om2, report) := syncOfflineData net om1 in (om2, Some report)
  else (om1, None).

Definition handleOffline (om : OfflineManager) : OfflineManager :=
  set_isOnline false om.

(** The end of [init]: the check for pending syncs on load. *)
Definition init (net : QueuedRequest → outcome) (om : OfflineManager)
  : OfflineManager * option sync_report :=
  if isOnline om && (0 <? length (offlineQueue om))%nat
  then let '(om1, report) := syncOfflineData net om in (om1, Some report)
  else (om, None).

(** *** getCookie *)

(** The loop over the pieces of [document.cookie]: the first piece that,
    trimmed, starts with [name] and an equals sign gives the value.
    [decode] is [decodeURIComponent], which throws URIError on a malformed
    escape. *)
Fixpoint cookie_loop (decode : string → result string) (name : string)
    (cookies : list string) : result (option string) :=
  match cookies with
  | [] => Ok None
  | piece :: rest =>
      let cookie := JsString.trim piece in
      if String.eqb (JsString.take (String.length name + 1) cookie)
                    (name +:+ "=")
      then match decode (JsString.drop (String.length name + 1) cookie) with
           | Ok value => Ok (Some value)
           | Err e => Err e
           end
      else cookie_loop decode name rest
  end.

(** [None] is [null]. *)
Definition getCookie (decode : string → result string)
    (name document_cookie : string) : result (option string) :=
  if String.eqb document_cookie "" then Ok None
  else cookie_loop decode name (JsString.split ";"%char document_cookie).

(** *** processQueuedRequest *)

(** What [processQueuedRequest] hands to [fetch].  The [data] of a request
    is [None] for a payload that is falsy ([null] when the caller of
    [queueRequest] leaves it out) and else the JSON text of the payload, so
    that it is the body as it stands. *)
Record Call : Type := mkCall {
  call_url : string;
  call_method : string;
  call_headers : list (string * string);
  call_body : option string
}.

(** How the [fetch] settles: with a response, of which the function reads
    the status and the result of [response.json()] ([Err] when the body is
    not JSON), or with a rejection. *)
Inductive reply : Type :=
| Replied (status : Z) (json : result string)
| NoReply (message : string).

(** A header value that is [null] is sent as the text [null]. *)
Definition build_call (token : option string) (request : QueuedRequest)
  : Call :=
  mkCall (url request) (method request)
         [("Content-Type", "application/json");
          ("X-CSRFToken", default "null" token)]
         (data request).

Definition processQueuedRequest (decode : string → result string)
    (document_cookie : string) (server : Call → reply)
    (request : QueuedRequest) : outcome :=
  match getCookie decode "csrftoken" document_cookie with
  | Err e => Rejected e
  | Ok token =>
      match server (build_call token request) with
      | Replied status json =>
          if negb ((200 <=? status) && (status <=? 299))
          then Rejected ("HTTP " +:+ pretty status)
          else match json with
               | Ok _ => Fulfilled
               | Err e => Rejected e
               end
      | NoReply message => Rejected message
      end
  end.

End LocalManager.

(** ** The Cache API *)

Module Cache.

Inductive Body : Type :=
| Text (s : string)
| Json (fields : list (string * string)).   (* JSON.stringify of an object *)

Record Response : Type := mkResponse {
  status : Z;
  headers : list (string * string);
  body : Body
}.

Definition ok (r : Response) : bool := (200 <=? status r) && (status r <=? 299).

(** Header names compare without regard to ASCII case. *)
Definition lower (c : Ascii.ascii) : Ascii.ascii :=
  let n := Ascii.nat_of_ascii c in
  if ((65 <=? n) && (n <=? 90))%nat then Ascii.ascii_of_nat (n + 32) else c.

Fixpoint lowercase (s : string) : string :=
  match s with
  | EmptyString => EmptyString
  | String c rest => String (lower c) (lowercase rest)
  end.

(** A member of a comma-separated header value is [*]: an asterisk with
    nothing but spaces and tabs around it. *)
Definition is_ows (c : Ascii.ascii) : bool :=
  bool_decide (Ascii.nat_of_ascii c ∈ [9; 32]%nat).

Fixpoint only_ows (s : string) : bool :=
  match s with
  | EmptyString => true
  | String c rest => is_ows c && only_ows rest
  end.

Fixpoint is_star (s : string) : bool :=
  match s with
  | EmptyString => false
  | String c rest =>
      if is_ows c then is_star rest
      else Ascii.eqb c "*" && only_ows rest
  end.

Definition vary_star (r : Response) : bool :=
  existsb (λ h : string * string,
             String.eqb (lowercase h.1) "vary"
             && existsb is_star (JsString.split "," h.2))
          (headers r).

(** The responses that a cache takes: [cache.put] rejects with TypeError a
    response of status 206 and a response whose Vary header has the member
    [*]. *)
Definition storable (r : Response) : bool :=
  negb (status r =? 206) && negb (vary_star r).

(** The request of a fetch event: its URL relative to the origin (the
    key under which a cache holds the response), its method and its
    mode. *)
Record FetchRequest : Type := mkFetch {
  url : string;
  method : string;
  mode : string
}.

(** How [fetch(request)] settles. *)
Inductive fetch_result : Type :=
| Fetched (r : Response)
| NetworkError.

(** CacheStorage: the named caches in creation order; a cache holds one
    response per URL. *)
Abbreviation Storage := (list (string * gmap string Response)).

Definition keys (cs : Storage) : list string := fst <$> cs.

Definition has (name : string) (cs : Storage) : bool :=
  bool_decide (name ∈ keys cs).

(** [caches.open(name)] creates the cache when there is none. *)
Definition open (name : string) (cs : Storage) : Storage :=
  if has name cs then cs else cs ++ [(name, ∅)].

(** [caches.delete(name)]. *)
Definition delete (name : string) (cs : Storage) : Storage :=
  filter (λ c, c.1 ≠ name) cs.

Fixpoint put_in (name : string) (key : string) (r : Response) (cs : Storage)
  : Storage :=
  match cs with
  | [] => []
  | (n, c) :: rest =>
      if String.eqb n name then (n, <[key := r]> c) :: rest
      else (n, c) :: put_in name key r rest
  end.

(** [cache.put(url, response)] on the cache [name], which is open: a
    response that the cache does not take is refused and nothing is
    stored. *)
Definition put_url (name : string) (key : string) (r : Response)
    (cs : Storage) : Storage :=
  if storable r then put_in name key r cs else cs.

(** [caches.open(name).then(cache => cache.put(request, response))]; a
    request that is not a GET is refused as well.  The cache is open
    either way. *)
Definition put (name : string) (req : FetchRequest) (r : Response)
    (cs : Storage) : Storage :=
  if String.eqb (method req) "GET"
  then put_url name (url req) r (open name cs)
  else open name cs.

(** [cache.match] inside the cache [name]. *)
Definition match_in (name : string) (key : string) (cs : Storage)
  : option Response :=
  c ← snd <$> list_find (λ c, c.1 = name) cs; c.2 !! key.

(** [caches.match(request)]: the first cache, in creation order, that
    holds the URL; only a GET matches. *)
Fixpoint match_url (key : string) (cs : Storage) : option Response :=
  match cs with
  | [] => None
  | (_, c) :: rest =>
      match c !! key with
      | Some r => Some r
      | None => match_url key rest
      end
  end.

Definition match_ (req : FetchRequest) (cs : Storage) : option Response :=
  if String.eqb (method req) "GET" then match_url (url req) cs else None.

(** [cache.addAll(urls)]: every URL is fetched; when one fetch fails, or
    answers with a status that is not ok or with a response that the cache
    does not take, nothing is stored and the promise rejects. *)
Fixpoint fetch_all (net : string → fetch_result) (urls : list string)
  : result (list (string * Response)) :=
  match urls with
  | [] => Ok []
  | u :: rest =>
      match net u with
      | Fetched r =>
          if ok r && storable r
          then match fetch_all net rest with
               | Ok l => Ok ((u, r) :: l)
               | Err e => Err e
               end
          else Err "TypeError"
      | NetworkError => Err "TypeError"
      end
  end.

Definition addAll (name : string) (net : string → fetch_result)
    (urls : list string) (cs : Storage) : result Storage :=
  match fetch_all net urls with
  | Ok l => Ok (foldl (λ acc ur, put_in name ur.1 ur.2 acc) cs l)
  | Err e => Err e
  end.

End Cache.

(** ** The background agent ([static/js/service-worker.js]) *)

Module ServiceWorker.

Import Cache.

Definition CACHE_NAME : string := "fieldmax-shop-v4".
Definition OFFLINE_URL : string := "/offline/".
Definition SYNC_TAG : string := "sync-offline-data".

Definition STATIC_ASSETS : list string :=
  ["/"; "/static/css/style.css"; "/static/js/offline-manager.js";
   "/static/js/app.js"; "/static/images/LOGO.jpg"; OFFLINE_URL;
   "/api/offline-data/"; "/manifest.json"].

(** *** install and activate *)

(** The promise given to [waitUntil] by the install listener; when it
    rejects the worker is discarded and never activates. *)
Definition install (net : string → fetch_result) (cs : Storage)
  : result Storage :=
  addAll CACHE_NAME net STATIC_ASSETS (open CACHE_NAME cs).

(** The activate listener: every cache name other than [CACHE_NAME] is
    deleted. *)
Definition activate (cs : Storage) : Storage :=
  foldl (λ acc cacheName,
           if bool_decide (cacheName ≠ CACHE_NAME)
           then Cache.delete cacheName acc else acc)
        cs (keys cs).

(** *** The fetch listener *)

(** What [respondWith] receives: a response, a promise fulfilled with
    [undefined], or a rejected promise. *)
Inductive responded : Type :=
| Respond (r : Response)
| RespondUndefined
| RespondRejected.

Definition of_match (m : option Response) : responded :=
  match m with
  | Some r => Respond r
  | None => RespondUndefined
  end.

Definition is_api (req : FetchRequest) : bool :=
  String.prefix "/api/" (url req).

(** Network first for the API. *)
Definition respond_api (net : fetch_result) (req : FetchRequest)
    (cs : Storage) : responded * Storage :=
  match net with
  | Fetched response =>
      (Respond response,
       if ok response then put CACHE_NAME req response cs else cs)
  | NetworkError => (of_match (match_ req cs), cs)
  end.

Definition respond_navigate (net : fetch_result) (cs : Storage)
  : responded * Storage :=
  match net with
  | Fetched response => (Respond response, cs)
  | NetworkError => (of_match (match_url OFFLINE_URL cs), cs)
  end.

(** Cache first for static assets, refreshed in the background. *)
Definition respond_static (net : fetch_result) (req : FetchRequest)
    (cs : Storage) : responded * Storage :=
  match match_ req cs with
  | Some cachedResponse =>
      (Respond cachedResponse,
       match net with
       | Fetched response =>
           if ok response then put CACHE_NAME req response cs else cs
       | NetworkError => cs
       end)
  | None =>
      match net with
      | Fetched response => (Respond response, cs)
      | NetworkError => (RespondRejected, cs)
      end
  end.

Definition on_fetch (net : fetch_result) (req : FetchRequest) (cs : Storage)
  : responded * Storage :=
  if is_api req then respond_api net req cs
  else if String.eqb (mode req) "navigate" then respond_navigate net cs
  else respond_static net req cs.

(** *** Background sync *)

(** [getQueuedRequests]: [store.getAll()] on the store of OfflineQueueDB,
    keyed by [id]. *)
Definition getQueuedRequests (queue : gmap string Request) : list Request :=
  IDB.getAll queue.

Definition removeFromQueue (key : string) (queue : gmap string Request)
  : gmap string Request := IDB.delete key queue.

(** The loop of [syncOfflineData]: a request that fails is kept as it
    is.  The worker script does not declare [processQueuedRequest]; as the
    file stands the call throws ReferenceError into the inner [catch],
    which is the [net] that rejects every request. *)
Fixpoint drain (net : Request → outcome) (todo : list Request)
    (queue : gmap string Request) (calls : list Request)
  : gmap string Request * list Request :=
  match todo with
  | [] => (queue, calls)
  | request :: rest =>
      match net request with
      | Fulfilled =>
          drain net rest (removeFromQueue (id request) queue)
                (calls ++ [request])
      | Rejected _ => drain net rest queue (calls ++ [request])
      end
  end.

(** The run of [syncOfflineData]: the queue afterwards, the message types
    broadcast to the clients and the requests that were attempted.
    [opened] is what [openDatabase] and the read transaction deliver. *)
Definition syncOfflineData (net : Request → outcome)
    (opened : result (gmap string Request))
  : result (gmap string Request) * list string * list Request :=
  match opened with
  | Ok queue =>
      let '(queue', calls) := drain net (getQueuedRequests queue) queue [] in
      (Ok queue', ["SYNC_STARTED"; "SYNC_COMPLETED"], calls)
  | Err e => (Err e, ["SYNC_STARTED"; "SYNC_FAILED"], [])
  end.

(** The sync listener: one run per event that carries [SYNC_TAG]; [None]
    for any other tag. *)
Definition on_sync (tag : string) (net : Request → outcome)
    (opened : result (gmap string Request))
  : option (result (gmap string Request) * list string * list Request) :=
  if String.eqb tag SYNC_TAG then Some (syncOfflineData net opened)
  else None.

(** *** Periodic sync *)

Definition apiUrls : list string :=
  ["/api/offline-data/"; "/api/categories/"; "/api/products/"].

(** [updateCachedData]: the cache is opened once; a URL whose fetch fails,
    or answers with a status that is not ok, is passed over, and so is a
    response that [cache.put] refuses, its TypeError being caught. *)
Definition updateCachedData (net : string → fetch_result) (cs : Storage)
  : Storage :=
  foldl (λ acc url,
           match net url with
           | Fetched response =>
               if ok response then put_url CACHE_NAME url response acc
               else acc
           | NetworkError => acc
           end)
        (open CACHE_NAME cs) apiUrls.

(** The periodicsync listener. *)
Definition on_periodicsync (tag : string) (net : string → fetch_result)
    (cs : Storage) : Storage :=
  if String.eqb tag "update-cache" then updateCachedData net cs else cs.

End ServiceWorker.

(** ** The earlier background agent, with a separate API cache *)

Module LegacyWorker.

Import Cache.

Definition CACHE_NAME : string := "fieldmax-v1".
Definition API_CACHE : string := "fieldmax-api-v1".

(** The body of the response that [handleAPIRequest] builds when the
    network and the cache both fail; [now] is the ISO-8601 rendering of
    the clock. *)
Definition offline_body (now : string) : Body :=
  Json [("error", "offline");
        ("message", "You are currently offline. This request will be synced when connection is restored.");
        ("timestamp", now)].

Definition offline_response (now : string) : Response :=
  mkResponse 503 [("Content-Type", "application/json")] (offline_body now).

Definition handleAPIRequest (net : fetch_result) (now : string)
    (req : FetchRequest) (cs : Storage) : Response * Storage :=
  match net with
  | Fetched response =>
      (response, if ok response then put API_CACHE req response cs else cs)
  | NetworkError =>
      match match_ req cs with
      | Some cachedResponse => (cachedResponse, cs)
      | None => (offline_response now, cs)
      end
  end.

(** A field of a JSON body. *)
Definition json_field (name : string) (b : Body) : option string :=
  match b with
  | Json fields =>
      (λ f : nat * (string * string), f.2.2)
        <$> list_find (λ f, f.1 = name) fields
  | Text _ => None
  end.

(** *** install and activate *)

Definition OFFLINE_URL : string := "/offline/".

Definition STATIC_CACHE_URLS : list string :=
  ["/"; "/offline/"; "/static/css/main.css"; "/static/js/app.js";
   "/static/js/offline-manager.js"; "/static/icons/icon-192x192.png";
   "/static/icons/icon-512x512.png"].

Definition install (net : string → fetch_result) (cs : Storage)
  : result Storage :=
  addAll CACHE_NAME net STATIC_CACHE_URLS (open CACHE_NAME cs).

(** The activate listener: the static cache and the API cache are kept. *)
Definition activate (cs : Storage) : Storage :=
  foldl (λ acc cacheName,
           if bool_decide (cacheName ≠ CACHE_NAME ∧ cacheName ≠ API_CACHE)
           then Cache.delete cacheName acc else acc)
        cs (keys cs).

(** *** Navigation requests and static assets *)

(** [new Response(text)] and [new Response(text, { status })]. *)
Definition text_response (status : Z) (text : string) : Response :=
  mkResponse status [("Content-Type", "text/plain;charset=UTF-8")]
             (Text text).

Definition handleNavigationRequest (net : fetch_result) (cs : Storage)
  : Response * Storage :=
  match net with
  | Fetched response => (response, cs)
  | NetworkError =>
      let cs1 := open CACHE_NAME cs in
      (default (text_response 200 "Offline - Please check your connection")
               (match_in CACHE_NAME OFFLINE_URL cs1),
       cs1)
  end.

(** Cache first: the network is asked only on a miss. *)
Definition handleStaticRequest (net : fetch_result) (req : FetchRequest)
    (cs : Storage) : Response * Storage :=
  match match_ req cs with
  | Some cachedResponse => (cachedResponse, cs)
  | None =>
      match net with
      | Fetched response =>
          (response,
           if ok response then put CACHE_NAME req response cs else cs)
      | NetworkError =>
          (text_response 404 "Resource not available offline", cs)
      end
  end.

Definition on_fetch (net : fetch_result) (now : string) (req : FetchRequest)
    (cs : Storage) : Response * Storage :=
  if String.prefix "/api/" (url req) then handleAPIRequest net now req cs
  else if String.eqb (mode req) "navigate"
       then handleNavigationRequest net cs
       else handleStaticRequest net req cs.

(** *** Background sync and messages *)

(** [syncOfflineData]: the messages broadcast to the clients, in order.
    [net] is how the POST to [/api/sync-offline-queue/] settles,
    [net_message] the message of the error that a failed fetch throws, and
    [started] and [ended] are the two clock readings. *)
Definition syncOfflineData (net : fetch_result) (net_message : string)
    (started ended : Z) : list LocalManager.Message :=
  LocalManager.mkMessage "SYNC_STARTED" None (Some started)
  :: match net with
     | Fetched response =>
         if ok response
         then [LocalManager.mkMessage "SYNC_COMPLETED" None (Some ended)]
         else [LocalManager.mkMessage "SYNC_FAILED" (Some "Sync failed")
                 (Some ended)]
     | NetworkError =>
         [LocalManager.mkMessage "SYNC_FAILED" (Some net_message)
            (Some ended)]
     end.

Definition on_sync (tag : string) (net : fetch_result) (net_message : string)
    (started ended : Z) : list LocalManager.Message :=
  if String.eqb tag "sync-offline-data"
  then syncOfflineData net net_message started ended
  else [].

(** The message listener: whether [skipWaiting] is called, and the caches
    afterwards.  [data] is [None] when [event.data] is falsy. *)
Definition on_message (data : option LocalManager.Message) (cs : Storage)
  : bool * Storage :=
  match data with
  | None => (false, cs)
  | Some message =>
      (String.eqb (LocalManager.type message) "SKIP_WAITING",
       if String.eqb (LocalManager.type message) "CLEAR_CACHE"
       then foldl (λ acc cacheName, Cache.delete cacheName acc) cs (keys cs)
       else cs)
  end.

End LegacyWorker.

(** ** The controller's own cache of API data and pages
    ([static/js/offline-manager.js]) *)

Module IdbCache.

Import Cache.

(** What [response.json()] delivers: [null], or another value, given by
    its JSON text. *)
Inductive json : Type :=
| JsonNull
| JsonValue (text : string).

(** A record of the [cache] store, keyed by [url]. *)
Record Item : Type := mkItem {
  url : string;
  data : json;
  timestamp : Z;
  expires : Z
}.

(** [new_date] is the reading of [new Date()], [date_now] that of
    [Date.now()]. *)
Definition storeInCache (key : string) (data : json) (new_date date_now : Z)
    (cache : gmap string Item) : gmap string Item :=
  IDB.put key (mkItem key data new_date (date_now + 24 * 60 * 60 * 1000))
          cache.

(** Resolves with [null] when there is no item or the item has expired. *)
Definition getFromCache (key : string) (date_now : Z)
    (cache : gmap string Item) : json :=
  match cache !! key with
  | Some item => if expires item >? date_now then data item else JsonNull
  | None => JsonNull
  end.

Definition pages : list string := ["/"; "/shop/"; "/categories/"].

(** [cacheCriticalPages]: a page whose fetch fails, or is not ok, is
    passed over; for an ok response the cache is opened, and the TypeError
    of a [cache.put] that refuses the response is caught. *)
Definition cacheCriticalPages (net : string → fetch_result) (cs : Storage)
  : Storage :=
  foldl (λ acc page,
           match net page with
           | Fetched response =>
               if ok response
               then put_url "fieldmax-pages" page response
                            (open "fieldmax-pages" acc)
               else acc
           | NetworkError => acc
           end)
        cs pages.

(** [cacheOfflineData]: [parse] is [response.json()], [None] when it
    rejects; every failure is caught and logged. *)
Definition cacheOfflineData (isOnline : bool) (net : string → fetch_result)
    (parse : Response → option json) (new_date date_now : Z)
    (cache : gmap string Item) (cs : Storage)
  : gmap string Item * Storage :=
  if negb isOnline then (cache, cs)
  else match net "/api/offline-data/" with
       | Fetched response =>
           if ok response
           then match parse response with
                | Some data =>
                    (storeInCache "/api/offline-data/" data new_date date_now
                       cache,
                     cacheCriticalPages net cs)
                | None => (cache, cs)
                end
           else (cache, cs)
       | NetworkError => (cache, cs)
       end.

End IdbCache.

(** ** Predicates and observers used in the statements *)

(** A URL is held by the first cache of the given name. *)
Definition holds (name key : string) (cs : Cache.Storage) : Prop :=
  is_Some (Cache.match_in name key cs).

(** Cache writes between install and activation: each is a [put] into
    some cache. *)
Definition write : Type := string * Cache.FetchRequest * Cache.Response.

Definition apply_writes (ws : list write) (cs : Cache.Storage)
  : Cache.Storage :=
  foldl (λ acc w, Cache.put w.1.1 w.1.2 w.2 acc) cs ws.

(** The number of calls of [syncOfflineData] that have set the flag and
    not yet cleared it. *)
Fixpoint draining_count (ts : list IdbManager.pass) : nat :=
  match ts with
  | [] => 0
  | p :: rest =>
      ((if IdbManager.draining p then 1 else 0) + draining_count rest)%nat
  end.

(** The flag is set exactly when a call is between setting and clearing
    it. *)
Definition flag_ok (c : IdbManager.Context) : Prop :=
  draining_count (IdbManager.tasks c)
  = if IdbManager.syncInProgress (IdbManager.om c) then 1%nat else 0%nat.

(** A bound on the resumptions that a suspended call still needs before
    it clears the flag: one for the snapshot of at most 50 requests, and
    for each request one for its network call and one more when the
    request is moved to the failed store. *)
Definition steps_left (p : IdbManager.pass) : nat :=
  match p with
  | IdbManager.AwaitSnapshot => 101
  | IdbManager.AwaitRequest _ rest => 2 * length rest + 2
  | IdbManager.AwaitRemove _ rest => 2 * length rest + 1
  | IdbManager.AwaitCounter => 0
  end.

Fixpoint work_left (ts : list IdbManager.pass) : nat :=
  match ts with
  | [] => 0
  | p :: rest => (steps_left p + work_left rest)%nat
  end.

(** The step resumes a call that has set the flag and not yet cleared
    it. *)
Definition resumes_pass (ev : IdbManager.event) (c : IdbManager.Context)
  : bool :=
  match ev with
  | IdbManager.Resume i _ _ =>
      match IdbManager.tasks c !! i with
      | Some p => IdbManager.draining p
      | None => false
      end
  | _ => false
  end.

(** The snapshot that a suspended pass still has to process agrees with
    the store: distinct ids, each record as it is stored. *)
Definition snapshot_ok (d : DB) (p : IdbManager.pass) : Prop :=
  match p with
  | IdbManager.AwaitRequest r rest =>
      NoDup (id <$> r :: rest) ∧
      Forall (λ x, requests d !! id x = Some x) (r :: rest)
  | IdbManager.AwaitRemove r rest =>
      NoDup (id <$> r :: rest) ∧
      Forall (λ x, requests d !! id x = Some x) rest ∧
      is_Some (failed d !! id r)
  | _ => True
  end.

(** The stores are keyed by [id], a queued record has attempts left and a
    failed record has used all of its attempts. *)
Definition stores_ok (d : DB) : Prop :=
  keyed d ∧
  map_Forall (λ _ r, retries r < maxRetries r) (requests d) ∧
  map_Forall (λ _ f, retries (request f) = maxRetries (request f)) (failed d).

Definition consistent (c : IdbManager.Context) : Prop :=
  stores_ok (IdbManager.db (IdbManager.om c)) ∧
  Forall (snapshot_ok (IdbManager.db (IdbManager.om c))) (IdbManager.tasks c) ∧
  draining_count (IdbManager.tasks c)
  = if IdbManager.syncInProgress (IdbManager.om c) then 1%nat else 0%nat.

(** The database that the first stage of a loop iteration leaves. *)
Definition stage_db (st : IdbManager.entry_stage) : DB :=
  match st with
  | IdbManager.Settled d _ | IdbManager.Moved d _ | IdbManager.Thrown d _ => d
  end.

Definition in_queue (k : string) (c : IdbManager.Context) : Prop :=
  is_Some (requests (IdbManager.db (IdbManager.om c)) !! k).

Definition in_failed (k : string) (c : IdbManager.Context) : Prop :=
  is_Some (failed (IdbManager.db (IdbManager.om c)) !! k).

(** A pass is suspended between [moveToFailed] and [removeFromQueue] for
    the operation [k]. *)
Definition moving (k : string) (c : IdbManager.Context) : Prop :=
  ∃ r rest, IdbManager.AwaitRemove r rest ∈ IdbManager.tasks c ∧ id r = k.

(** An id is in the queue and in the failed store at once only while a pass
    is moving it, or when it is one of [stranded]. *)
Definition both_only (stranded : string → Prop) (c : IdbManager.Context)
  : Prop :=
  ∀ k, in_queue k c → in_failed k c → moving k c ∨ stranded k.

(** From [d] to [d'] no stored attempt counter goes down, and the failed
    store only grows. *)
Definition attempts_grow (d d' : DB) : Prop :=
  (∀ k r r', requests d !! k = Some r → requests d' !! k = Some r' →
             retries r ≤ retries r') ∧
  (∀ k r f, requests d !! k = Some r → failed d !! k = None →
            failed d' !! k = Some f → retries r ≤ retries (request f)) ∧
  (∀ k f, failed d !! k = Some f → failed d' !! k = Some f).

(** What a pass of the localStorage controller does with one request: it is
    kept, with one more attempt, when the call failed and fewer than three
    attempts were made. *)
Definition local_requeue (net : LocalManager.QueuedRequest → outcome)
    (r : LocalManager.QueuedRequest) : option LocalManager.QueuedRequest :=
  match net r with
  | Fulfilled => None
  | Rejected _ =>
      let r' := LocalManager.set_retries (LocalManager.retries r + 1) r in
      if LocalManager.retries r' <? 3 then Some r' else None
  end.


(** The step is the confirmed success of the operation [k]. *)
Definition succeeds (ev : IdbManager.event) (c : IdbManager.Context)
    (k : string) : Prop :=
  ∃ i now r rest,
    ev = IdbManager.Resume i Fulfilled now ∧
    IdbManager.tasks c !! i = Some (IdbManager.AwaitRequest r rest) ∧
    id r = k.

(** An enqueue does not reuse the id of a record of the failed store. *)
Definition fresh_enqueue (ev : IdbManager.event) (c : IdbManager.Context)
  : Prop :=
  match ev with
  | IdbManager.Enqueue e _ _ _ _ =>
      failed (IdbManager.db (IdbManager.om c)) !! IdbManager.make_id e = None
  | _ => True
  end.

Fixpoint fresh_along (impl : IdbManager.update_impl)
    (evs : list IdbManager.event) (c : IdbManager.Context) : Prop :=
  match evs with
  | [] => True
  | ev :: rest =>
      fresh_enqueue ev c ∧ fresh_along impl rest (IdbManager.step impl ev c)
  end.

(** One of the page visits ended while a pass was moving the operation
    [k]: the page was left between [moveToFailed] and [removeFromQueue]. *)
Fixpoint left_moving (impl : IdbManager.update_impl) (k : string)
    (vs : list IdbManager.visit) (d : DB) : Prop :=
  match vs with
  | [] => False
  | v :: rest =>
      let c := IdbManager.run impl v.2 (IdbManager.load v.1 d) in
      moving k c ∨ left_moving impl k rest (IdbManager.db (IdbManager.om c))
  end.

(** No enqueue of the page visits reuses the id of a record of the failed
    store. *)
Fixpoint fresh_visits (impl : IdbManager.update_impl)
    (vs : list IdbManager.visit) (d : DB) : Prop :=
  match vs with
  | [] => True
  | v :: rest =>
      fresh_along impl v.2 (IdbManager.load v.1 d) ∧
      fresh_visits impl rest
        (IdbManager.db (IdbManager.om
           (IdbManager.run impl v.2 (IdbManager.load v.1 d))))
  end.

(** A trigger that gets past the guard and starts a pass. *)
Definition starts_pass (ev : IdbManager.event) (c : IdbManager.Context)
  : bool :=
  match ev with
  | IdbManager.Trigger =>
      negb (IdbManager.syncInProgress (IdbManager.om c)
            || negb (IdbManager.isOnline (IdbManager.om c)))
  | _ => false
  end.

(** A step on which [syncInProgress] goes from true to false. *)
Definition returns_to_idle (impl : IdbManager.update_impl)
    (ev : IdbManager.event) (c : IdbManager.Context) : bool :=
  IdbManager.syncInProgress (IdbManager.om c)
  && negb (IdbManager.syncInProgress
             (IdbManager.om (IdbManager.step impl ev c))).

(** How often [f] holds of a step along the run of [evs] from [c]. *)
Fixpoint count_along (f : IdbManager.event → IdbManager.Context → bool)
    (impl : IdbManager.update_impl) (evs : list IdbManager.event)
    (c : IdbManager.Context) : nat :=
  match evs with
  | [] => 0
  | ev :: rest =>
      ((if f ev c then 1 else 0)
       + count_along f impl rest (IdbManager.step impl ev c))%nat
  end.

(** The events of one pass that nothing interrupts: the trigger, the
    delivery of the snapshot, for each request that is attempted the
    settling of its call (followed, when the request was moved to the failed
    store, by the return from [removeFromQueue]), and the return from
    [updateQueueCounter]. *)
Fixpoint drain_events (impl : IdbManager.update_impl)
    (net : Request → outcome) (clock : Request → Z) (todo : list Request)
    (d : DB) : list IdbManager.event :=
  match todo with
  | [] => []
  | r :: rest =>
      IdbManager.Resume 0 (net r) (clock r)
      :: match IdbManager.begin_entry impl (net r) (clock r) r d with
         | IdbManager.Settled d1 _ => drain_events impl net clock rest d1
         | IdbManager.Moved d1 r' =>
             IdbManager.Resume 0 Fulfilled 0
             :: drain_events impl net clock rest
                  (IdbManager.removeFromQueue (id r') d1)
         | IdbManager.Thrown _ _ => []
         end
  end.

Definition pass_events (impl : IdbManager.update_impl)
    (net : Request → outcome) (clock : Request → Z) (d : DB)
  : list IdbManager.event :=
  IdbManager.Trigger
  :: IdbManager.Resume 0 Fulfilled 0
  :: drain_events impl net clock (IdbManager.getQueuedRequests d) d
  ++ [IdbManager.Resume 0 Fulfilled 0].

(** A queue of [n] requests of the class [normal], enqueued one millisecond
    apart. *)
Definition sample_request (i : nat) : Request :=
  mkRequest (pretty (1700000000000 + Z.of_nat i) +:+ "-q7c1m4p8w")
            "POST" "/api/orders/" None (1700000000000 + Z.of_nat i)
            (JNum 2) 0 3.

Definition sample_queue (n : nat) : gmap string Request :=
  list_to_map ((λ i, (id (sample_request i), sample_request i)) <$> seq 0 n).

(** A URL that [caches.match] finds in some cache. *)
Definition retrievable (key : string) (cs : Cache.Storage) : Prop :=
  is_Some (Cache.match_url key cs).

(** Fetch events answered by the worker one after the other: each with the
    way its network call settles. *)
Definition serve (evs : list (Cache.fetch_result * Cache.FetchRequest))
    (cs : Cache.Storage) : Cache.Storage :=
  foldl (λ acc ev, (ServiceWorker.on_fetch ev.1 ev.2 acc).2) cs evs.

(** The entry of a URL after a refresh from the network: the response
    just fetched when its status is ok and the cache takes it, else the
    entry as it was. *)
Definition refreshed (net : Cache.fetch_result) (old : option Cache.Response)
  : option Cache.Response :=
  match net with
  | Cache.Fetched r => if Cache.ok r && Cache.storable r then Some r else old
  | Cache.NetworkError => old
  end.

(** The call settled with a confirmed success. *)
Definition confirmed (o : outcome) : bool :=
  match o with
  | Fulfilled => true
  | Rejected _ => false
  end.

(** No failure has left a trace in the database: the failed store is
    empty and every queued record is as [queueRequest] made it, with no
    attempt counted. *)
Definition untouched (d : DB) : Prop :=
  failed d = ∅ ∧
  map_Forall (λ _ r, retries r = 0 ∧ maxRetries r = 3) (requests d).

(** The counters of a summary agree with the calls made: [successCount]
    counts the confirmed calls, [failCount] the other calls except the one
    whose handling threw and ended the pass. *)
Definition counts_ok (net : Request → outcome) (s : IdbManager.Summary)
  : Prop :=
  let ended :=
    match IdbManager.sync_error s with Some _ => 1 | None => 0 end in
  IdbManager.successCount s
  = Z.of_nat (length (filter (λ r, confirmed (net r))
                             (IdbManager.attempted s))) ∧
  IdbManager.failCount s + ended
  = Z.of_nat (length (filter (λ r, ¬ confirmed (net r))
                             (IdbManager.attempted s))) ∧
  IdbManager.successCount s + IdbManager.failCount s + ended
  = Z.of_nat (length (IdbManager.attempted s)) ∧
  0 ≤ IdbManager.failCount s.

(** What the localStorage controller goes through after a page load, one
    completed call after the other. *)
Inductive local_op : Type :=
| WentOnline (net : LocalManager.QueuedRequest → outcome)
| WentOffline
| Queued (new_id : string) (now : Z) (method url : string)
         (data : option string)
| SyncCalled (net : LocalManager.QueuedRequest → outcome)
| Received (message : LocalManager.Message).

Definition local_apply (o : local_op) (om : LocalManager.OfflineManager)
  : LocalManager.OfflineManager :=
  match o with
  | WentOnline net => (LocalManager.handleOnline net om).1
  | WentOffline => LocalManager.handleOffline om
  | Queued new_id now method url data =>
      (LocalManager.queueRequest new_id now method url data om).2
  | SyncCalled net => (LocalManager.syncOfflineData net om).1
  | Received message => LocalManager.handleServiceWorkerMessage message om
  end.

Definition local_run (ops : list local_op) (om : LocalManager.OfflineManager)
  : LocalManager.OfflineManager :=
  foldl (λ acc o, local_apply o acc) om ops.

(** A page load: the constructor on the localStorage it finds, then the
    check for pending syncs. *)
Definition local_load (online : bool)
    (stored : option (list LocalManager.QueuedRequest))
    (net : LocalManager.QueuedRequest → outcome)
  : LocalManager.OfflineManager :=
  (LocalManager.init net (LocalManager.construct online stored)).1.

(** A client that receives the messages of a broadcast in order. *)
Definition deliver (messages : list LocalManager.Message)
    (om : LocalManager.OfflineManager) : LocalManager.OfflineManager :=
  foldl (λ acc m, LocalManager.handleServiceWorkerMessage m acc) om messages.

(** The queue in localStorage is the queue in memory, and no pass is in
    progress. *)
Definition saved (om : LocalManager.OfflineManager) : Prop :=
  LocalManager.loadQueue (LocalManager.stored om)
  = LocalManager.offlineQueue om ∧
  LocalManager.syncInProgress om = false.

(** [document.cookie] as the browser renders a jar of cookies: name, equals
    sign and value, the cookies separated by a semicolon and a space. *)
Definition cookie_pair (nv : string * string) : string :=
  nv.1 +:+ "=" +:+ nv.2.

Fixpoint cookie_string (jar : list (string * string)) : string :=
  match jar with
  | [] => ""
  | nv :: rest =>
      match rest with
      | [] => cookie_pair nv
      | _ :: _ => cookie_pair nv +:+ "; " +:+ cookie_string rest
      end
  end.

(** The value of the first cookie of the jar that has the name. *)
Fixpoint cookie_value (name : string) (jar : list (string * string))
  : option string :=
  match jar with
  | [] => None
  | (n, v) :: rest =>
      if String.eqb n name then Some v else cookie_value name rest
  end.

Fixpoint all_chars (p : ascii → bool) (s : string) : bool :=
  match s with
  | EmptyString => true
  | String c rest => p c && all_chars p rest
  end.

(** Neither a semicolon nor white space occurs in the string; a cookie
    name holds no equals sign either. *)
Definition cookie_plain (s : string) : bool :=
  all_chars (λ c, negb (Ascii.eqb c ";") && negb (JsString.is_space c)) s.

Definition cookie_token (s : string) : bool :=
  cookie_plain s && all_chars (λ c, negb (Ascii.eqb c "=")) s.

(** A cookie that the jar can hold. *)
Definition cookie_ok (nv : string * string) : Prop :=
  cookie_token nv.1 = true ∧ cookie_plain nv.2 = true.

(** The priorities that a stored record can have. *)
Definition stored_priorities : list jsval :=
  [JNum 1; JNum 2; JNum 3; JInherited "__proto__"].

Definition priorities_ok (d : DB) : Prop :=
  map_Forall (λ _ r, priority r ∈ stored_priorities) (requests d) ∧
  map_Forall (λ _ f, priority (request f) ∈ stored_priorities) (failed d).



(** How often a request of the queue can still be sent: three times less
    the attempts made, and once at least. *)
Fixpoint attempts_left (key : string) (q : list LocalManager.QueuedRequest)
  : Z :=
  match q with
  | [] => 0
  | r :: rest =>
      (if String.eqb (LocalManager.id r) key
       then Z.max 1 (3 - LocalManager.retries r) else 0)
      + attempts_left key rest
  end.


(** The requests that a suspended pass will still hand to
    [processQueuedRequest]. *)
Definition pending (p : IdbManager.pass) : list Request :=
  match p with
  | IdbManager.AwaitRequest r rest => r :: rest
  | IdbManager.AwaitRemove _ rest => rest
  | IdbManager.AwaitSnapshot | IdbManager.AwaitCounter => []
  end.

(** * Properties *)

(** ** The priority ordinal stored by queueRequest *)

Section PriorityOrdinal.
Import IdbManager.

Lemma getPriorityValue_named :
  getPriorityValue "critical" = JNum 2 ∧
  getPriorityValue "high" = JNum 1 ∧
  getPriorityValue "normal" = JNum 2 ∧
  getPriorityValue "low" = JNum 3.
Proof. repeat split; reflexivity. Qed.

Lemma own_property_priorities :
  own_property priorities "critical" = Some 0.
Proof. reflexivity. Qed.

End PriorityOrdinal.

(** C8, at the failing input: [queueRequest] called with the class
    [critical] on a new database stores the record with priority 2, the
    ordinal of [normal], although the table lists [critical] as 0; the
    other three classes are stored under their ordinals. *)
Theorem queueRequest_critical_stored_as_2 :
  ∀ (e : IdbManager.Entropy) (method url : string) (data : option string)
    (online : bool),
    let stored (name : string) :=
      priority <$>
        (requests (IdbManager.db
           (IdbManager.queueRequest e method url data (Some name)
              (IdbManager.mkManager online false emptyDB)).2)
         !! IdbManager.make_id e) in
    IdbManager.own_property IdbManager.priorities "critical" = Some 0 ∧
    stored "critical" = Some (JNum 2) ∧
    stored "high" = Some (JNum 1) ∧
    stored "normal" = Some (JNum 2) ∧
    stored "low" = Some (JNum 3).
Proof.
  intros e m u d online stored. subst stored.
  split; [reflexivity|].
  unfold IdbManager.queueRequest, IdbManager.addToQueue, IDB.add; simpl.
  rewrite !lookup_empty; simpl.
  rewrite !lookup_insert_eq. repeat split; reflexivity.
Qed.

(** ** The SYNC_COMPLETED message in the localStorage controller *)

(** C9: on a message of type SYNC_COMPLETED the controller sets its queue to
    the empty array and writes that empty array to localStorage, whatever
    the queue held and whatever the other fields of the message are; the
    connectivity flag and the pass flag are left alone. *)
Theorem sync_completed_empties_queue :
  ∀ (om : LocalManager.OfflineManager) (err : option string)
    (sent : option Z),
    let om' :=
      LocalManager.handleServiceWorkerMessage
        (LocalManager.mkMessage "SYNC_COMPLETED" err sent) om in
    LocalManager.offlineQueue om' = [] ∧
    LocalManager.stored om' = Some [] ∧
    LocalManager.loadQueue (LocalManager.stored om') = [] ∧
    LocalManager.isOnline om' = LocalManager.isOnline om ∧
    LocalManager.syncInProgress om' = LocalManager.syncInProgress om.
Proof. intros om err sent. repeat split. Qed.

(** ** A sync trigger on an empty queue *)

Lemma getAll_empty {V} : IDB.getAll (∅ : gmap string V) = [].
Proof. unfold IDB.getAll. rewrite map_to_list_empty. reflexivity. Qed.

(** C7: with an empty queue a sync trigger changes nothing and calls the
    network for no operation.  The worker broadcasts SYNC_STARTED and
    SYNC_COMPLETED and leaves its store empty; the localStorage controller
    returns with the manager as it was; the IndexedDB controller returns
    with the manager as it was, and when the pass ran its summary counts
    nothing and holds no error. *)
Theorem sync_with_empty_queue_is_noop :
  (∀ net : Request → outcome,
     ServiceWorker.syncOfflineData net (Ok ∅)
     = (Ok ∅, ["SYNC_STARTED"; "SYNC_COMPLETED"], [])) ∧
  (∀ (net : LocalManager.QueuedRequest → outcome) (online flag : bool)
     (stored : option (list LocalManager.QueuedRequest)),
     let om := LocalManager.mkManager online [] flag stored in
     LocalManager.syncOfflineData net om
     = (om, if flag || negb online then LocalManager.Skipped
            else LocalManager.NothingToSync)) ∧
  (∀ (impl : IdbManager.update_impl) (net : Request → outcome)
     (clock : Request → Z) (online flag : bool)
     (f : gmap string FailedRequest),
     let om := IdbManager.mkManager online flag (mkDB ∅ f) in
     IdbManager.syncOfflineData impl net clock om
     = (om, if flag || negb online then None
            else Some IdbManager.summary0)).
Proof.
  split; [|split].
  - intros net. unfold ServiceWorker.syncOfflineData,
      ServiceWorker.getQueuedRequests.
    rewrite getAll_empty. reflexivity.
  - intros net online flag stored om. subst om.
    unfold LocalManager.syncOfflineData; simpl.
    destruct (flag || negb online); reflexivity.
  - intros impl net clock online flag f om. subst om.
    unfold IdbManager.syncOfflineData; simpl.
    destruct flag, online; reflexivity.
Qed.

(** ** Network first with fallback, for API requests *)

Section ApiFallback.
Import Cache.

Lemma json_field_offline_error now :
  LegacyWorker.json_field "error" (LegacyWorker.offline_body now)
  = Some "offline".
Proof. reflexivity. Qed.

Lemma json_field_offline_timestamp now :
  LegacyWorker.json_field "timestamp" (LegacyWorker.offline_body now)
  = Some now.
Proof. reflexivity. Qed.

(** Within one cache a [put] replaces what the URL held. *)
Lemma match_in_put_in name key r cs :
  has name cs = true → match_in name key (put_in name key r cs) = Some r.
Proof.
  unfold has, keys, match_in. rewrite bool_decide_eq_true.
  induction cs as [|[n c] cs IH]; simpl.
  - intros H. inversion H.
  - intros H. destruct (String.eqb n name) eqn:E.
    + apply String.eqb_eq in E as ->. simpl.
      rewrite decide_True by reflexivity. simpl.
      apply lookup_insert_eq.
    + apply String.eqb_neq in E. simpl.
      rewrite decide_False by exact E. simpl.
      apply elem_of_cons in H as [H|H]; [congruence|].
      specialize (IH H).
      destruct (list_find (λ c0 : string * gmap string Response, c0.1 = name)
                  (put_in name key r cs)) as [[i x]|]; simpl in *;
        [exact IH | discriminate].
Qed.

End ApiFallback.

(** C5, the claim refuted: in [static/js/service-worker.js] an API request
    whose network call fails and whose URL is in no cache is answered with
    no response at all. *)
Lemma api_fallback_without_cache_is_absent :
  let req := Cache.mkFetch "/api/products/" "GET" "cors" in
  (ServiceWorker.is_api req = true ∧
   Cache.match_ req [] = None ∧
   (ServiceWorker.on_fetch Cache.NetworkError req []).1
   = ServiceWorker.RespondUndefined) ∧
  ¬ (∀ (req : Cache.FetchRequest) (cs : Cache.Storage),
       ServiceWorker.is_api req = true →
       ∃ r, (ServiceWorker.on_fetch Cache.NetworkError req cs).1
            = ServiceWorker.Respond r).
Proof.
  split; [repeat split|].
  intros H.
  destruct (H (Cache.mkFetch "/api/products/" "GET" "cors") [] eq_refl)
    as [r Hr].
  discriminate Hr.
Qed.

(** C5, amended: when the network call of an API request fails, both
    workers answer with the response that [caches.match] finds for the
    request, if there is one.  When there is none, [handleAPIRequest]
    answers with a 503 response whose JSON body carries the reason code
    [offline] under [error] and the clock reading under [timestamp], and
    the fetch listener of [static/js/service-worker.js] answers with
    [undefined].  Neither touches the caches. *)
Theorem api_network_failure_fallback :
  ∀ (req : Cache.FetchRequest) (cs : Cache.Storage) (now : string),
    ServiceWorker.is_api req = true →
    (LegacyWorker.handleAPIRequest Cache.NetworkError now req cs).2 = cs ∧
    (ServiceWorker.on_fetch Cache.NetworkError req cs).2 = cs ∧
    match Cache.match_ req cs with
    | Some cached =>
        (LegacyWorker.handleAPIRequest Cache.NetworkError now req cs).1
        = cached ∧
        (ServiceWorker.on_fetch Cache.NetworkError req cs).1
        = ServiceWorker.Respond cached
    | None =>
        let r :=
          (LegacyWorker.handleAPIRequest Cache.NetworkError now req cs).1 in
        Cache.status r = 503 ∧
        LegacyWorker.json_field "error" (Cache.body r) = Some "offline" ∧
        LegacyWorker.json_field "timestamp" (Cache.body r) = Some now ∧
        (ServiceWorker.on_fetch Cache.NetworkError req cs).1
        = ServiceWorker.RespondUndefined
    end.
Proof.
  intros req cs now Hapi.
  unfold ServiceWorker.on_fetch, ServiceWorker.respond_api,
    LegacyWorker.handleAPIRequest.
  rewrite Hapi.
  destruct (Cache.match_ req cs) as [cached|]; simpl; repeat split.
Qed.

Lemma api_network_failure_fallback_witness :
  let req := Cache.mkFetch "/api/products/" "GET" "cors" in
  let now := "2024-05-01T10:00:00.000Z" in
  ServiceWorker.is_api req = true ∧
  Cache.status (LegacyWorker.handleAPIRequest Cache.NetworkError now req []).1
  = 503 ∧
  (ServiceWorker.on_fetch Cache.NetworkError req []).1
  = ServiceWorker.RespondUndefined.
Proof.
  intros req now.
  split; [reflexivity|].
  pose proof (api_network_failure_fallback req [] now eq_refl) as H.
  simpl in H. destruct H as (_ & _ & H503 & _ & _ & Hundef).
  split; [exact H503 | exact Hundef].
Defined.

(** ** Activation of a cache generation *)

Section Activation.
Import Cache.

Lemma activate_fold (names : list string) (acc : Storage) :
  foldl (λ acc cacheName,
           if bool_decide (cacheName ≠ ServiceWorker.CACHE_NAME)
           then Cache.delete cacheName acc else acc) acc names
  = filter (λ c, c.1 = ServiceWorker.CACHE_NAME ∨ c.1 ∉ names) acc.
Proof.
  revert acc. induction names as [|n names IH]; intros acc; cbn [foldl].
  - symmetry. induction acc as [|c acc IHacc]; [reflexivity|].
    rewrite filter_cons_True; [by f_equal|].
    right. apply not_elem_of_nil.
  - rewrite IH. clear IH. case_bool_decide as Hn.
    + unfold Cache.delete. rewrite list_filter_filter.
      apply list_filter_iff. intros c. rewrite not_elem_of_cons.
      destruct (decide (c.1 = ServiceWorker.CACHE_NAME)); intuition congruence.
    + subst n.
      apply list_filter_iff. intros c. rewrite not_elem_of_cons.
      destruct (decide (c.1 = ServiceWorker.CACHE_NAME)); intuition congruence.
Qed.

Lemma filter_ext_elem {A} (P Q : A → Prop) `{!∀ x, Decision (P x)}
    `{!∀ x, Decision (Q x)} (l : list A) :
  (∀ x, x ∈ l → P x ↔ Q x) → filter P l = filter Q l.
Proof.
  induction l as [|x l IH]; intros Hext; [reflexivity|].
  assert (filter P l = filter Q l) as IH'.
  { apply IH. intros y Hy. apply Hext. by right. }
  destruct (decide (P x)) as [HP|HP].
  - rewrite !filter_cons_True; [by f_equal | | exact HP].
    apply Hext; [by left | exact HP].
  - rewrite !filter_cons_False; [exact IH' | | exact HP].
    intros HQ. apply HP. apply Hext; [by left | exact HQ].
Qed.

(** The activate listener keeps exactly the caches named [CACHE_NAME]. *)
Lemma activate_filter (cs : Storage) :
  ServiceWorker.activate cs
  = filter (λ c, c.1 = ServiceWorker.CACHE_NAME) cs.
Proof.
  unfold ServiceWorker.activate. rewrite activate_fold.
  apply filter_ext_elem. intros c Hc.
  split; [|by left].
  intros [H|H]; [exact H|].
  exfalso. apply H. unfold keys. apply list_elem_of_fmap. by exists c.
Qed.

Lemma match_in_cons n c name key cs :
  match_in name key ((n, c) :: cs)
  = if decide (n = name) then c !! key else match_in name key cs.
Proof.
  unfold match_in. simpl. destruct (decide (n = name)); simpl; [done|].
  destruct (list_find _ cs) as [[i x]|]; reflexivity.
Qed.

Lemma match_in_filter_name name key cs :
  match_in name key (filter (λ c, c.1 = name) cs) = match_in name key cs.
Proof.
  induction cs as [|[n c] cs IH]; [reflexivity|].
  destruct (decide (n = name)) as [E|E].
  - rewrite filter_cons_True by exact E.
    rewrite !match_in_cons. by rewrite !decide_True.
  - rewrite filter_cons_False by exact E.
    rewrite match_in_cons. by rewrite decide_False.
Qed.

Lemma holds_put_in name key k r cs :
  holds name key cs → holds name key (put_in name k r cs).
Proof.
  unfold holds. induction cs as [|[n c] cs IH]; simpl; [done|].
  rewrite match_in_cons.
  destruct (String.eqb n name) eqn:E.
  - apply String.eqb_eq in E. rewrite decide_True by exact E.
    rewrite match_in_cons, decide_True by exact E.
    intros H. destruct (decide (k = key)) as [->|Hk].
    + rewrite lookup_insert_eq. eauto.
    + by rewrite lookup_insert_ne.
  - apply String.eqb_neq in E. rewrite decide_False by exact E.
    rewrite match_in_cons, decide_False by exact E. exact IH.
Qed.

Lemma holds_put_in_other name name' key k r cs :
  holds name key cs → holds name key (put_in name' k r cs).
Proof.
  destruct (decide (name' = name)) as [->|Hne];
    [apply holds_put_in|].
  unfold holds. induction cs as [|[n c] cs IH]; simpl; [done|].
  rewrite match_in_cons.
  destruct (String.eqb n name') eqn:E.
  - apply String.eqb_eq in E. subst n.
    rewrite decide_False by exact Hne.
    by rewrite match_in_cons, decide_False.
  - rewrite match_in_cons. destruct (decide (n = name)); [done|exact IH].
Qed.

Lemma holds_open name name' key cs :
  holds name key cs → holds name key (open name' cs).
Proof.
  unfold open. destruct (has name' cs); [done|].
  unfold holds. induction cs as [|[n c] cs IH]; simpl.
  - unfold match_in. simpl. intros [x Hx]. discriminate.
  - rewrite !match_in_cons. destruct (decide (n = name)); [done|exact IH].
Qed.

Lemma holds_put_url name name' key k r cs :
  holds name key cs → holds name key (put_url name' k r cs).
Proof.
  intros H. unfold put_url. destruct (storable r); [|exact H].
  by apply holds_put_in_other.
Qed.

Lemma holds_put name name' key req r cs :
  holds name key cs → holds name key (put name' req r cs).
Proof.
  intros H. unfold put. destruct (String.eqb (method req) "GET").
  - apply holds_put_url, holds_open, H.
  - apply holds_open, H.
Qed.

Lemma has_open name cs : has name (open name cs) = true.
Proof.
  unfold open. destruct (has name cs) eqn:E; [exact E|].
  unfold has, keys. apply bool_decide_eq_true.
  rewrite fmap_app. apply elem_of_app. right. simpl.
  apply list_elem_of_singleton. reflexivity.
Qed.

Lemma has_put_in name n k r cs :
  has name (put_in n k r cs) = has name cs.
Proof.
  unfold has. apply bool_decide_ext.
  assert (keys (put_in n k r cs) = keys cs) as ->; [|done].
  unfold keys. induction cs as [|[m c] cs IH]; [done|].
  cbn [put_in]. destruct (String.eqb m n); [done|].
  rewrite !fmap_cons. f_equal. exact IH.
Qed.

(** After [addAll] every fetched URL is held by the cache. *)
Lemma holds_fold_put_in name (l : list (string * Response)) cs key :
  has name cs = true →
  key ∈ l.*1 ∨ holds name key cs →
  holds name key (foldl (λ acc ur, put_in name ur.1 ur.2 acc) cs l).
Proof.
  revert cs. induction l as [|[u r] l IH]; intros cs Hhas; simpl.
  - intros [H|H]; [inversion H | exact H].
  - intros H. apply IH; [by rewrite has_put_in|].
    destruct H as [H|H].
    + apply elem_of_cons in H as [->|H]; [|by left].
      right. unfold holds. rewrite match_in_put_in by exact Hhas. eauto.
    + right. by apply holds_put_in.
Qed.

Lemma fetch_all_urls net urls l :
  fetch_all net urls = Ok l → l.*1 = urls.
Proof.
  revert l. induction urls as [|u urls IH]; intros l; simpl.
  - intros [= <-]. reflexivity.
  - destruct (net u) as [r|]; [|discriminate].
    destruct (ok r && storable r); [|discriminate].
    destruct (fetch_all net urls) as [l'|]; [|discriminate].
    intros [= <-]. simpl. f_equal. by apply IH.
Qed.

Lemma install_holds_manifest net cs cs1 key :
  ServiceWorker.install net cs = Ok cs1 →
  key ∈ ServiceWorker.STATIC_ASSETS →
  holds ServiceWorker.CACHE_NAME key cs1.
Proof.
  unfold ServiceWorker.install, addAll.
  destruct (fetch_all net ServiceWorker.STATIC_ASSETS) as [l|] eqn:E;
    [|discriminate].
  intros [= <-] Hkey. apply holds_fold_put_in; [apply has_open|].
  left. by rewrite (fetch_all_urls _ _ _ E).
Qed.

Lemma holds_apply_writes name key ws cs :
  holds name key cs → holds name key (apply_writes ws cs).
Proof.
  revert cs. induction ws as [|w ws IH]; intros cs H; simpl; [exact H|].
  apply IH. by apply holds_put.
Qed.

End Activation.

Lemma match_url_of_holds name key cs :
  holds name key cs → is_Some (Cache.match_url key cs).
Proof.
  unfold holds. induction cs as [|[n c] cs IH]; simpl.
  - unfold Cache.match_in. simpl. intros [x Hx]. discriminate.
  - rewrite match_in_cons. destruct (c !! key) as [r|] eqn:E; [eauto|].
    destruct (decide (n = name)); [|exact IH].
    intros [x Hx]. discriminate.
Qed.

Lemma match_in_absent name key cs :
  name ∉ Cache.keys cs → Cache.match_in name key cs = None.
Proof.
  induction cs as [|[n c] cs IH]; [reflexivity|].
  unfold Cache.keys. rewrite fmap_cons, not_elem_of_cons. simpl.
  intros [Hne Hnot]. rewrite match_in_cons, decide_False by congruence.
  by apply IH.
Qed.

Lemma keys_activate name cs :
  name ∈ Cache.keys (ServiceWorker.activate cs) →
  name = ServiceWorker.CACHE_NAME.
Proof.
  rewrite activate_filter. unfold Cache.keys.
  intros ([n c] & -> & Hc)%list_elem_of_fmap.
  apply list_elem_of_filter in Hc as [Hc _]. exact Hc.
Qed.

Lemma match_url_held key r cs :
  Cache.match_url key cs = Some r →
  ∃ name c, (name, c) ∈ cs ∧ c !! key = Some r.
Proof.
  induction cs as [|[n c] cs IH]; simpl; [discriminate|].
  destruct (c !! key) as [r'|] eqn:E.
  - intros [= <-]. exists n, c. split; [by left | exact E].
  - intros H. destruct (IH H) as (n' & c' & Hin & Hc').
    exists n', c'. split; [by right | exact Hc'].
Qed.

(** C6: when the worker of generation [CACHE_NAME] has installed and then
    activates, whatever was written to the caches in between, the only
    cache name left is [CACHE_NAME], so that no URL can be read from a
    cache of another name and whatever [caches.match] finds is held by a
    cache named [CACHE_NAME]; and every URL of [STATIC_ASSETS] is held by
    the cache [CACHE_NAME] and found by [caches.match]. *)
Theorem activation_swaps_generation :
  ∀ (net : string → Cache.fetch_result) (ws : list write)
    (cs cs1 : Cache.Storage),
    ServiceWorker.install net cs = Ok cs1 →
    let cs2 := ServiceWorker.activate (apply_writes ws cs1) in
    (∀ name, name ∈ Cache.keys cs2 → name = ServiceWorker.CACHE_NAME) ∧
    (∀ name key, name ≠ ServiceWorker.CACHE_NAME →
                 Cache.has name cs2 = false ∧
                 Cache.match_in name key cs2 = None) ∧
    (∀ key r, Cache.match_url key cs2 = Some r →
              ∃ c, (ServiceWorker.CACHE_NAME, c) ∈ cs2 ∧ c !! key = Some r) ∧
    (∀ key, key ∈ ServiceWorker.STATIC_ASSETS →
            is_Some (Cache.match_in ServiceWorker.CACHE_NAME key cs2) ∧
            is_Some (Cache.match_url key cs2)).
Proof.
  intros net ws cs cs1 Hinstall cs2.
  assert (∀ name, name ≠ ServiceWorker.CACHE_NAME → name ∉ Cache.keys cs2)
    as Hgone.
  { intros name Hne Hin. apply Hne. by apply keys_activate in Hin. }
  split; [intros name; apply keys_activate|].
  split; [|split].
  - intros name key Hne. split.
    + unfold Cache.has. apply bool_decide_eq_false. by apply Hgone.
    + apply match_in_absent. by apply Hgone.
  - intros key r Hmatch.
    destruct (match_url_held key r cs2 Hmatch) as (n & c & Hin & Hc).
    exists c. split; [|exact Hc].
    assert (n = ServiceWorker.CACHE_NAME) as <-; [|exact Hin].
    apply (keys_activate n (apply_writes ws cs1)). fold cs2.
    unfold Cache.keys. apply list_elem_of_fmap. by exists (n, c).
  - intros key Hkey.
    assert (holds ServiceWorker.CACHE_NAME key cs2) as Hholds.
    { unfold holds, cs2. rewrite activate_filter, match_in_filter_name.
      apply holds_apply_writes.
      eapply install_holds_manifest; [exact Hinstall | exact Hkey]. }
    split; [exact Hholds|]. eapply match_url_of_holds, Hholds.
Qed.

Lemma activation_swaps_generation_witness :
  let page := Cache.mkResponse 200 [] (Cache.Text "page") in
  let net := λ _ : string, Cache.Fetched page in
  let cs : Cache.Storage :=
    [("fieldmax-shop-v3", {["/" := page; "/static/js/old.js" := page]})] in
  let ws : list write :=
    [("fieldmax-pages", Cache.mkFetch "/shop/" "GET" "cors", page)] in
  ∃ cs1, ServiceWorker.install net cs = Ok cs1 ∧
         Cache.match_in "fieldmax-shop-v3" "/static/js/old.js"
           (ServiceWorker.activate (apply_writes ws cs1)) = None ∧
         Cache.match_in "fieldmax-pages" "/shop/"
           (ServiceWorker.activate (apply_writes ws cs1)) = None ∧
         is_Some (Cache.match_url "/manifest.json"
                    (ServiceWorker.activate (apply_writes ws cs1))).
Proof.
  intros page net cs ws.
  assert (is_ok (ServiceWorker.install net cs) = true) as Hok
    by (vm_compute; reflexivity).
  destruct (ServiceWorker.install net cs) as [cs1|e] eqn:Hinstall;
    [|discriminate Hok].
  exists cs1. split; [reflexivity|].
  destruct (activation_swaps_generation net ws cs cs1 Hinstall)
    as (_ & Hgone & _ & Hheld).
  split; [|split].
  - apply (Hgone "fieldmax-shop-v3" "/static/js/old.js"). discriminate.
  - apply (Hgone "fieldmax-pages" "/shop/"). discriminate.
  - apply (Hheld "/manifest.json").
    unfold ServiceWorker.STATIC_ASSETS.
    repeat (first [apply list_elem_of_here | apply list_elem_of_further]).
Defined.

(** ** Order of the listing *)

Section IndexOrder.
Context {V : Type}.

Global Instance entry_le_total : Total (@IDB.entry_le V).
Proof.
  intros [[p1 k1] v1] [[p2 k2] v2]. unfold IDB.entry_le; simpl.
  destruct (Z.lt_trichotomy p1 p2) as [H|[H|H]]; [by left; left | | by right; left].
  destruct (total String.le k1 k2); [left | right]; right; split; done.
Qed.

Global Instance entry_le_trans : Transitive (@IDB.entry_le V).
Proof.
  intros [[p1 k1] v1] [[p2 k2] v2] [[p3 k3] v3]. unfold IDB.entry_le; simpl.
  intros [H12|[H12 K12]] [H23|[H23 K23]].
  - left. lia.
  - left. lia.
  - left. lia.
  - right. split; [lia|]. by etrans.
Qed.

Global Instance key_le_total : Total (@IDB.key_le V).
Proof. intros [k1 v1] [k2 v2]. unfold IDB.key_le; simpl. apply total, _. Qed.

Global Instance key_le_trans : Transitive (@IDB.key_le V).
Proof.
  intros [k1 v1] [k2 v2] [k3 v3]. unfold IDB.key_le; simpl. apply transitivity.
Qed.

Lemma StronglySorted_fmap_on {A B} (R1 : relation A) (R2 : relation B)
    (P : A → Prop) (f : A → B) (l : list A) :
  (∀ x y, P x → P y → R1 x y → R2 (f x) (f y)) →
  Forall P l → StronglySorted R1 l → StronglySorted R2 (f <$> l).
Proof.
  intros Hf HP Hs. induction Hs as [|x l Hs IH Hx]; simpl; [constructor|].
  apply Forall_cons in HP as [Px Pl].
  constructor; [by apply IH|].
  apply Forall_fmap, Forall_forall. intros y Hy.
  rewrite Forall_forall in Hx, Pl. apply Hf; auto.
Qed.

Lemma StronglySorted_take {A} (R : relation A) (n : nat) (l : list A) :
  StronglySorted R l → StronglySorted R (take n l).
Proof.
  intros H. rewrite <- (take_drop n l) in H.
  by apply StronglySorted_app_1_l in H.
Qed.

Lemma elem_of_index_entries (key_path : V → option Z) (s : gmap string V)
    (e : Z * string * V) :
  e ∈ IDB.index_entries key_path s ↔
  s !! e.1.2 = Some e.2 ∧ key_path e.2 = Some e.1.1.
Proof.
  unfold IDB.index_entries. rewrite list_elem_of_omap. split.
  - intros ([k v] & Hkv & Heq). apply elem_of_map_to_list in Hkv.
    simpl in Heq. destruct (key_path v) as [p|] eqn:E; [|discriminate].
    simpl in Heq. injection Heq as <-. simpl. by split.
  - destruct e as [[p k] v]. simpl. intros [Hs Hp].
    exists (k, v). split; [by apply elem_of_map_to_list|].
    simpl. by rewrite Hp.
Qed.

(** The records that the cursor over an index delivers are those of the
    store that have an index key. *)
Lemma elem_of_index_cursor (key_path : V → option Z) (s : gmap string V)
    (v : V) :
  v ∈ IDB.index_cursor key_path s ↔
  ∃ k p, s !! k = Some v ∧ key_path v = Some p.
Proof.
  unfold IDB.index_cursor. rewrite list_elem_of_fmap. split.
  - intros ([[p k] v'] & -> & He). rewrite merge_sort_Permutation in He.
    apply elem_of_index_entries in He as [Hs Hp]. by exists k, p.
  - intros (k & p & Hs & Hp). exists (p, k, v). split; [done|].
    rewrite merge_sort_Permutation. by apply elem_of_index_entries.
Qed.

Lemma elem_of_getAll (s : gmap string V) (v : V) :
  v ∈ IDB.getAll s ↔ ∃ k, s !! k = Some v.
Proof.
  unfold IDB.getAll. rewrite list_elem_of_fmap. split.
  - intros ([k v'] & -> & He). rewrite merge_sort_Permutation in He.
    apply elem_of_map_to_list in He. by exists k.
  - intros (k & Hs). exists (k, v). split; [done|].
    rewrite merge_sort_Permutation. by apply elem_of_map_to_list.
Qed.

End IndexOrder.

Section ListingOrder.
Import IdbManager.

Lemma cursor_loop_take (limit : Z) (cursor collected : list Request) :
  cursor_loop limit cursor collected
  = collected ++ take (Z.to_nat limit - length collected) cursor.
Proof.
  revert collected. induction cursor as [|value rest IH]; intros collected.
  - simpl. by rewrite take_nil, app_nil_r.
  - simpl. destruct (Z.ltb_spec (Z.of_nat (length collected)) limit) as [H|H].
    + rewrite IH, length_app. simpl. rewrite <- app_assoc. f_equal.
      replace (Z.to_nat limit - length collected)%nat
        with (S (Z.to_nat limit - (length collected + 1)))%nat by lia.
      reflexivity.
    + replace (Z.to_nat limit - length collected)%nat with 0%nat by lia.
      by rewrite app_nil_r.
Qed.

Lemma getQueuedRequests_limit_take (limit : Z) (d : DB) :
  getQueuedRequests_limit limit d
  = take (Z.to_nat limit) (IDB.index_cursor priority_key (requests d)).
Proof.
  unfold getQueuedRequests_limit. rewrite cursor_loop_take. simpl.
  by rewrite Nat.sub_0_r.
Qed.

Lemma index_cursor_sorted (s : gmap string Request) :
  keyed_store s →
  StronglySorted priority_then_id (IDB.index_cursor priority_key s).
Proof.
  intros Hkeyed. unfold IDB.index_cursor.
  apply (StronglySorted_fmap_on IDB.entry_le priority_then_id
           (λ e, s !! e.1.2 = Some e.2 ∧ priority_key e.2 = Some e.1.1)).
  - intros [[p1 k1] r1] [[p2 k2] r2]; simpl. intros [Hs1 Hp1] [Hs2 Hp2].
    unfold IDB.entry_le, priority_then_id; simpl.
    unfold priority_key in Hp1, Hp2. rewrite Hp1, Hp2.
    apply Hkeyed in Hs1, Hs2. simpl in Hs1, Hs2. by subst k1 k2.
  - apply Forall_forall. intros e He.
    rewrite merge_sort_Permutation in He.
    by apply elem_of_index_entries in He.
  - apply StronglySorted_merge_sort; apply _.
Qed.

Lemma getAll_sorted (s : gmap string Request) :
  keyed_store s → StronglySorted id_le (IDB.getAll s).
Proof.
  intros Hkeyed. unfold IDB.getAll.
  apply (StronglySorted_fmap_on IDB.key_le id_le
           (λ e, s !! e.1 = Some e.2)).
  - intros [k1 r1] [k2 r2]; simpl. intros Hs1 Hs2.
    apply Hkeyed in Hs1, Hs2. simpl in Hs1, Hs2. subst k1 k2.
    by unfold IDB.key_le, id_le.
  - apply Forall_forall. intros [k r] He.
    rewrite merge_sort_Permutation in He.
    by apply elem_of_map_to_list in He.
  - apply StronglySorted_merge_sort; apply _.
Qed.

Lemma index_entries_keys_NoDup {V} (key_path : V → option Z)
    (s : gmap string V) :
  NoDup ((λ e : Z * string * V, e.1.2) <$> IDB.index_entries key_path s).
Proof.
  unfold IDB.index_entries.
  pose proof (NoDup_fst_map_to_list s) as Hnd.
  induction (map_to_list s) as [|[k v] l IH]; [constructor|].
  simpl in Hnd. apply NoDup_cons in Hnd as [Hk Hnd].
  simpl. destruct (key_path v) as [p|]; simpl; [|by apply IH].
  apply NoDup_cons. split; [|by apply IH].
  intros Hin. apply Hk.
  apply list_elem_of_fmap in Hin as ([[p' k'] v'] & Heq & Hin).
  simpl in Heq. subst k'.
  apply list_elem_of_omap in Hin as ([k'' v''] & Hin & Hf).
  simpl in Hf. destruct (key_path v''); [|discriminate].
  simpl in Hf. injection Hf as _ -> _.
  apply list_elem_of_fmap. by exists (k, v'').
Qed.

Lemma index_cursor_ids_NoDup (s : gmap string Request) :
  keyed_store s → NoDup (id <$> IDB.index_cursor priority_key s).
Proof.
  intros Hkeyed. unfold IDB.index_cursor.
  rewrite <- list_fmap_compose.
  rewrite (list_fmap_ext _ (λ e : Z * string * Request, e.1.2)).
  - rewrite merge_sort_Permutation. apply index_entries_keys_NoDup.
  - intros i [[p k] r] Hi. simpl.
    apply list_elem_of_lookup_2 in Hi. rewrite merge_sort_Permutation in Hi.
    apply elem_of_index_entries in Hi as [Hs _]. by apply Hkeyed in Hs.
Qed.

Lemma getAll_ids_NoDup (s : gmap string Request) :
  keyed_store s → NoDup (id <$> IDB.getAll s).
Proof.
  intros Hkeyed. unfold IDB.getAll.
  rewrite <- list_fmap_compose.
  rewrite (list_fmap_ext _ (λ e : string * Request, e.1)).
  - rewrite merge_sort_Permutation. apply NoDup_fst_map_to_list.
  - intros i [k r] Hi. simpl.
    apply list_elem_of_lookup_2 in Hi. rewrite merge_sort_Permutation in Hi.
    apply elem_of_map_to_list in Hi. by apply Hkeyed in Hi.
Qed.

(** What the cursor leaves out when it stops at the limit comes after all
    that it delivered. *)
Lemma take_sorted_rest {A} (R : relation A) (n : nat) (l : list A) (x y : A) :
  StronglySorted R l → x ∈ take n l → y ∈ l → y ∉ take n l →
  length (take n l) = n ∧ R x y.
Proof.
  intros Hs Hx Hy Hny.
  assert (y ∈ drop n l) as Hd.
  { rewrite <- (take_drop n l) in Hy.
    apply elem_of_app in Hy as [Hy|Hy]; [done | exact Hy]. }
  split.
  - rewrite length_take. apply list_elem_of_lookup in Hd as [j Hj].
    apply lookup_lt_Some in Hj. rewrite length_drop in Hj. lia.
  - rewrite <- (take_drop n l) in Hs.
    by apply (StronglySorted_app_1_elem_of R (take n l) (drop n l)).
Qed.

Lemma take_all_or_full {A} (n : nat) (l : list A) (y : A) :
  y ∈ l → y ∉ take n l → length (take n l) = n.
Proof.
  intros Hy Hny.
  assert (y ∈ drop n l) as Hd.
  { rewrite <- (take_drop n l) in Hy.
    apply elem_of_app in Hy as [Hy|Hy]; [done | exact Hy]. }
  rewrite length_take. apply list_elem_of_lookup in Hd as [j Hj].
  apply lookup_lt_Some in Hj. rewrite length_drop in Hj. lia.
Qed.

(** The requests that a pass attempts are a prefix of its snapshot, and
    all of it unless the pass was cut short by an error. *)
Lemma drain_attempted impl net clock todo d s :
  let '(d', s') := drain impl net clock todo d s in
  ∃ done, attempted s' = attempted s ++ done ∧ done `prefix_of` todo ∧
          (sync_error s = None → sync_error s' = None → done = todo).
Proof.
  revert d s. induction todo as [|request rest IH]; intros d s; simpl.
  - exists []. by rewrite app_nil_r.
  - destruct (process_entry impl (net request) (clock request) request d)
      as [d1 synced|d1 e].
    + specialize (IH d1 (tally request synced s)).
      destruct (drain impl net clock rest d1 (tally request synced s))
        as [d' s'].
      destruct IH as (done & Hatt & Hpre & Hall).
      exists (request :: done). simpl in Hatt.
      rewrite Hatt, <- app_assoc. split; [done|].
      split; [by apply prefix_cons|].
      intros Hs Hs'. f_equal. by apply Hall.
    + exists [request]. simpl. split; [done|].
      split; [apply prefix_cons, prefix_nil|]. discriminate.
Qed.

End ListingOrder.

Lemma worker_drain_calls net todo queue calls :
  (ServiceWorker.drain net todo queue calls).2 = calls ++ todo.
Proof.
  revert queue calls. induction todo as [|request rest IH];
    intros queue calls; simpl.
  - by rewrite app_nil_r.
  - destruct (net request); rewrite IH, <- app_assoc; reflexivity.
Qed.

(** C1, the claim refuted.  Two requests of the same class are enqueued
    within one millisecond of [Date.now()], the clock ticking before the
    second [new Date()]: the listing puts the later one first, because its
    random suffix is the smaller string.  In the worker, the listing puts a
    request of priority 3 before one of priority 1. *)
Lemma listing_not_by_enqueue_time :
  let first := IdbManager.mkEntropy 1700000000000 "zk3j9x0q2" 1700000000000 in
  let second := IdbManager.mkEntropy 1700000000000 "a7c1m4p8w" 1700000000001 in
  let om1 :=
    (IdbManager.queueRequest first "POST" "/api/orders/" None (Some "normal")
       (IdbManager.mkManager true false emptyDB)).2 in
  let om2 :=
    (IdbManager.queueRequest second "POST" "/api/orders/" None (Some "normal")
       om1).2 in
  let low := mkRequest "1700000000000-a7c1m4p8w" "POST" "/api/a/" None
                       1700000000000 (JNum 3) 0 3 in
  let high := mkRequest "1700000000001-zk3j9x0q2" "POST" "/api/b/" None
                        1700000000001 (JNum 1) 0 3 in
  let queue : gmap string Request :=
    {[ id low := low; id high := high ]} in
  (timestamp <$> IdbManager.getQueuedRequests (IdbManager.db om2)
   = [1700000000001; 1700000000000] ∧
   ¬ Sorted priority_then_time
       (IdbManager.getQueuedRequests (IdbManager.db om2))) ∧
  (priority <$> ServiceWorker.getQueuedRequests queue = [JNum 3; JNum 1] ∧
   ¬ Sorted priority_then_time (ServiceWorker.getQueuedRequests queue)).
Proof.
  intros first second om1 om2 low high queue.
  split; (split; [vm_compute; reflexivity|]).
  - assert (IdbManager.getQueuedRequests (IdbManager.db om2)
            = [IdbManager.make_request second "POST" "/api/orders/" None
                 (Some "normal");
               IdbManager.make_request first "POST" "/api/orders/" None
                 (Some "normal")]) as -> by (vm_compute; reflexivity).
    intros H. apply Sorted_inv in H as [_ H]. apply HdRel_inv in H.
    unfold priority_then_time in H. simpl in H. lia.
  - assert (ServiceWorker.getQueuedRequests queue = [low; high]) as ->
      by (vm_compute; reflexivity).
    intros H. apply Sorted_inv in H as [_ H]. apply HdRel_inv in H.
    unfold priority_then_time in H. simpl in H. lia.
Qed.

(** C1, amended: on a database keyed by [id], [getQueuedRequests] of the
    IndexedDB controller returns, for every limit, the stored records that
    have a number as [priority], each once, in ascending order of their
    stored priority and, among equal priorities, in ascending order of
    their [id]: every record it returns is stored, and a stored record
    with a numeric priority is left out only when the limit is reached,
    and then it comes after every record returned.  A pass calls
    [processQueuedRequest] on the records returned, in that order, on all
    of them unless an error ends the pass.  The worker's
    [getQueuedRequests] returns every stored record, each once, in
    ascending order of [id] alone, and the worker's pass attempts all of
    them in that order. *)
Theorem listing_by_priority_then_id :
  ∀ (d : DB) (queue : gmap string Request),
    keyed d → keyed_store queue →
    (∀ limit : Z,
       let listed := IdbManager.getQueuedRequests_limit limit d in
       StronglySorted priority_then_id listed ∧
       NoDup (id <$> listed) ∧
       (length listed ≤ Z.to_nat limit)%nat ∧
       (∀ r, r ∈ listed →
             requests d !! id r = Some r ∧ is_Some (priority_of r)) ∧
       (∀ r, requests d !! id r = Some r → is_Some (priority_of r) →
             r ∉ listed →
             length listed = Z.to_nat limit ∧
             ∀ x, x ∈ listed → priority_then_id x r)) ∧
    (∀ (impl : IdbManager.update_impl) (net : Request → outcome)
       (clock : Request → Z) (online : bool) (s : IdbManager.Summary),
       (IdbManager.syncOfflineData impl net clock
          (IdbManager.mkManager online false d)).2 = Some s →
       IdbManager.attempted s `prefix_of` IdbManager.getQueuedRequests d ∧
       (IdbManager.sync_error s = None →
        IdbManager.attempted s = IdbManager.getQueuedRequests d)) ∧
    (StronglySorted id_le (ServiceWorker.getQueuedRequests queue) ∧
     NoDup (id <$> ServiceWorker.getQueuedRequests queue) ∧
     ∀ r, r ∈ ServiceWorker.getQueuedRequests queue ↔
          queue !! id r = Some r) ∧
    (∀ net : Request → outcome,
       (ServiceWorker.syncOfflineData net (Ok queue)).2
       = ServiceWorker.getQueuedRequests queue).
Proof.
  intros d queue [Hkeyed _] Hqueue. split; [|split; [|split]].
  - intros limit listed. subst listed.
    rewrite getQueuedRequests_limit_take.
    set (full := IDB.index_cursor IdbManager.priority_key (requests d)).
    pose proof (index_cursor_sorted (requests d) Hkeyed) as Hsorted.
    fold full in Hsorted.
    assert (∀ r, r ∈ full ↔
                 requests d !! id r = Some r ∧ is_Some (priority_of r))
      as Hfull.
    { intros r. unfold full. rewrite elem_of_index_cursor. split.
      - intros (k & p & Hs & Hp). rewrite (Hkeyed _ _ Hs).
        split; [exact Hs|]. unfold IdbManager.priority_key in Hp. eauto.
      - intros [Hs [p Hp]]. by exists (id r), p. }
    split; [by apply StronglySorted_take|].
    split.
    { rewrite fmap_take. eapply sublist_NoDup; [|apply sublist_take].
      by apply index_cursor_ids_NoDup. }
    split; [rewrite length_take; lia|].
    split.
    + intros r Hr. apply Hfull.
      eapply elem_of_sublist; [exact Hr | apply sublist_take].
    + intros r Hs Hp Hnot.
      assert (r ∈ full) as Hin by (by apply Hfull).
      split; [by apply (take_all_or_full _ full r)|].
      intros x Hx.
      by apply (take_sorted_rest priority_then_id (Z.to_nat limit) full x r).
  - intros impl net clock online s.
    unfold IdbManager.syncOfflineData; simpl.
    destruct online; simpl; [|discriminate].
    pose proof (drain_attempted impl net clock
                  (IdbManager.getQueuedRequests d) d IdbManager.summary0)
      as Hdrain.
    destruct (IdbManager.drain impl net clock
                (IdbManager.getQueuedRequests d) d IdbManager.summary0)
      as [d' s'].
    destruct Hdrain as (done & Hatt & Hpre & Hall).
    simpl in Hatt. intros [= <-]. rewrite Hatt. split; [exact Hpre|].
    intros Hnone. by apply Hall.
  - split; [by apply getAll_sorted|].
    split; [by apply getAll_ids_NoDup|].
    intros r. unfold ServiceWorker.getQueuedRequests.
    rewrite elem_of_getAll. split.
    + intros [k Hk]. by rewrite (Hqueue _ _ Hk).
    + intros Hr. by exists (id r).
  - intros net. unfold ServiceWorker.syncOfflineData.
    pose proof (worker_drain_calls net (ServiceWorker.getQueuedRequests queue)
                  queue []) as Hcalls.
    destruct (ServiceWorker.drain net (ServiceWorker.getQueuedRequests queue)
                queue []) as [queue' calls].
    exact Hcalls.
Qed.

(** Three requests: two of the class [normal], of which the one enqueued
    later has the smaller [id], and one of the class [high] enqueued last.
    The listing has the request of the class [high] first and then the two
    others by [id]; with the limit 2 it leaves out the last of them. *)
Lemma listing_by_priority_then_id_witness :
  let a := mkRequest "1700000000000-zk3j9x0q2" "POST" "/api/a/" None
                     1700000000000 (JNum 2) 0 3 in
  let b := mkRequest "1700000000000-a7c1m4p8w" "POST" "/api/b/" None
                     1700000000001 (JNum 2) 0 3 in
  let c := mkRequest "1700000000002-m2n8b5v1x" "POST" "/api/c/" None
                     1700000000002 (JNum 1) 0 3 in
  let queue : gmap string Request :=
    {[ id a := a; id b := b; id c := c ]} in
  let d := mkDB queue ∅ in
  (keyed d ∧ keyed_store queue) ∧
  IdbManager.getQueuedRequests d = [c; b; a] ∧
  StronglySorted priority_then_id (IdbManager.getQueuedRequests d) ∧
  IdbManager.getQueuedRequests_limit 2 d = [c; b] ∧
  (∀ x, x ∈ IdbManager.getQueuedRequests_limit 2 d → priority_then_id x a) ∧
  ServiceWorker.getQueuedRequests queue = [b; a; c] ∧
  StronglySorted id_le (ServiceWorker.getQueuedRequests queue).
Proof.
  intros a b c queue d.
  assert (keyed d) as Hd
    by (apply (bool_decide_unpack _); vm_compute; exact I).
  assert (keyed_store queue) as Hq
    by (apply (bool_decide_unpack _); vm_compute; exact I).
  split; [by split|].
  destruct (listing_by_priority_then_id d queue Hd Hq)
    as (Hlisting & _ & (Hworker & _) & _).
  assert (IdbManager.getQueuedRequests_limit 2 d = [c; b]) as Htwo
    by (vm_compute; reflexivity).
  split; [vm_compute; reflexivity|].
  split; [apply (Hlisting 50)|].
  split; [exact Htwo|].
  split; [|split; [vm_compute; reflexivity | exact Hworker]].
  destruct (Hlisting 2) as (_ & _ & _ & _ & Hrest).
  apply (Hrest a).
  - vm_compute. reflexivity.
  - by exists 2.
  - rewrite Htwo. intros Hin.
    apply elem_of_cons in Hin as [Hin|Hin]; [discriminate Hin|].
    apply elem_of_cons in Hin as [Hin|Hin]; [discriminate Hin|].
    by apply elem_of_nil in Hin.
Defined.

(** ** What a pass leaves alone *)

Section PassFootprint.
Import IdbManager.

(** One loop iteration writes under the [id] of its request only. *)
Lemma process_entry_other impl o now request d k :
  k ≠ id request →
  requests (match process_entry impl o now request d with
            | Continue d' _ | Abort d' _ => d'
            end) !! k = requests d !! k.
Proof.
  intros Hk. unfold process_entry.
  destruct o as [|message]; simpl.
  - unfold IDB.delete. by rewrite lookup_delete_ne.
  - destruct (retries request + 1 >=? maxRetries request).
    + unfold moveToFailed, IDB.add; simpl.
      destruct (failed d !! id request); simpl; [done|].
      unfold IDB.delete. by rewrite lookup_delete_ne.
    + destruct impl; simpl; [done|].
      unfold IDB.put. by rewrite lookup_insert_ne.
Qed.

Lemma drain_other impl net clock todo d s k :
  k ∉ id <$> todo →
  requests (drain impl net clock todo d s).1 !! k = requests d !! k.
Proof.
  revert d s. induction todo as [|request rest IH]; intros d s; simpl;
    [done|].
  rewrite not_elem_of_cons. intros [Hk Hrest].
  pose proof (process_entry_other impl (net request) (clock request)
                request d k Hk) as Hstep.
  destruct (process_entry impl (net request) (clock request) request d)
    as [d1 synced|d1 e]; simpl.
  - by rewrite IH.
  - exact Hstep.
Qed.

Lemma getQueuedRequests_length (limit : Z) (d : DB) :
  (length (getQueuedRequests_limit limit d) ≤ Z.to_nat limit)%nat.
Proof. rewrite getQueuedRequests_limit_take, length_take. lia. Qed.

End PassFootprint.

(** C10: a pass of the IndexedDB controller works on the first 50 entries
    of the [priority] index.  Its snapshot has at most 50 records, it
    attempts at most 50 requests, and every record that the index lists
    after the first 50 is in the queue after the pass exactly as it was
    before, and was not attempted; more generally the pass leaves alone
    whatever is stored under an id that is not in its snapshot. *)
Theorem pass_limited_to_50 :
  ∀ (d : DB) (impl : IdbManager.update_impl) (net : Request → outcome)
    (clock : Request → Z) (online : bool),
    keyed d →
    let listed := IDB.index_cursor IdbManager.priority_key (requests d) in
    let after := IdbManager.syncOfflineData impl net clock
                   (IdbManager.mkManager online false d) in
    (length (IdbManager.getQueuedRequests d) ≤ 50)%nat ∧
    IdbManager.getQueuedRequests d = take 50 listed ∧
    (∀ s, after.2 = Some s →
          (length (IdbManager.attempted s) ≤ 50)%nat ∧
          ∀ r, r ∈ drop 50 listed → r ∉ IdbManager.attempted s) ∧
    (∀ r, r ∈ drop 50 listed →
          requests (IdbManager.db after.1) !! id r = Some r) ∧
    (∀ k, k ∉ id <$> IdbManager.getQueuedRequests d →
          requests (IdbManager.db after.1) !! k = requests d !! k).
Proof.
  intros d impl net clock online [Hkeyed _] listed after.
  assert (IdbManager.getQueuedRequests d = take 50 listed) as Htake
    by apply getQueuedRequests_limit_take.
  assert (∀ r, r ∈ drop 50 listed →
               id r ∉ id <$> IdbManager.getQueuedRequests d) as Hfresh.
  { intros r Hr Hin. rewrite Htake in Hin.
    pose proof (index_cursor_ids_NoDup (requests d) Hkeyed) as Hnd.
    fold listed in Hnd. rewrite <- (take_drop 50 listed) in Hnd.
    rewrite fmap_app in Hnd. apply NoDup_app in Hnd as (_ & Hdisj & _).
    apply (Hdisj (id r) Hin). by apply list_elem_of_fmap_2. }
  assert (∀ r, r ∈ drop 50 listed → requests d !! id r = Some r) as Hstored.
  { intros r Hr.
    assert (r ∈ listed) as Hin.
    { rewrite <- (take_drop 50 listed). apply elem_of_app. by right. }
    apply elem_of_index_cursor in Hin as (k & p & Hs & _).
    by rewrite (Hkeyed _ _ Hs). }
  split; [apply (getQueuedRequests_length 50)|].
  split; [exact Htake|].
  unfold IdbManager.syncOfflineData in after. simpl in after.
  destruct online; simpl in after; subst after; simpl.
  - pose proof (drain_attempted impl net clock
                  (IdbManager.getQueuedRequests d) d IdbManager.summary0)
      as Hdrain.
    pose proof (λ k, drain_other impl net clock
                  (IdbManager.getQueuedRequests d) d IdbManager.summary0 k)
      as Hother.
    destruct (IdbManager.drain impl net clock
                (IdbManager.getQueuedRequests d) d IdbManager.summary0)
      as [d' s'].
    destruct Hdrain as (done & Hatt & Hpre & _). simpl in Hatt, Hother.
    split.
    + intros s [= <-]. rewrite Hatt. split.
      * apply prefix_length in Hpre.
        pose proof (getQueuedRequests_length 50 d) as Hlen.
        unfold IdbManager.getQueuedRequests in Hpre.
        change (Z.to_nat 50) with 50%nat in Hlen. lia.
      * intros r Hr Hin. apply (Hfresh r Hr).
        apply list_elem_of_fmap_2. destruct Hpre as [rest ->].
        apply elem_of_app. by left.
    + split; [|exact Hother].
      intros r Hr. rewrite Hother; [by apply Hstored | by apply Hfresh].
  - split; [discriminate|]. by split.
Qed.

Lemma pass_limited_to_50_witness :
  let d := mkDB (sample_queue 51) ∅ in
  let after :=
    IdbManager.syncOfflineData IdbManager.UpdatePut (λ _, Fulfilled)
      (λ _, 0) (IdbManager.mkManager true false d) in
  keyed d ∧
  length (IdbManager.getQueuedRequests d) = 50%nat ∧
  IdbManager.getQueueSize (IdbManager.mkManager true false d) = 51%nat ∧
  requests (IdbManager.db after.1) !! id (sample_request 50)
  = Some (sample_request 50).
Proof.
  intros d after.
  assert (keyed d) as Hkeyed
    by (apply (bool_decide_unpack _); vm_compute; exact I).
  split; [exact Hkeyed|].
  split; [vm_compute; reflexivity|].
  split; [vm_compute; reflexivity|].
  destruct (pass_limited_to_50 d IdbManager.UpdatePut (λ _, Fulfilled)
              (λ _, 0) true Hkeyed) as (_ & _ & _ & Hbeyond & _).
  apply Hbeyond.
  assert (drop 50 (IDB.index_cursor IdbManager.priority_key (requests d))
          = [sample_request 50]) as -> by (vm_compute; reflexivity).
  apply list_elem_of_here.
Defined.

(** ** Invariants of the execution context *)

Section ContextInvariant.
Import IdbManager.
Variable impl : update_impl.

Lemma draining_count_app ts1 ts2 :
  draining_count (ts1 ++ ts2)
  = (draining_count ts1 + draining_count ts2)%nat.
Proof. induction ts1 as [|p ts1 IH]; simpl; [done|]. rewrite IH. lia. Qed.

Lemma draining_count_insert ts i p q :
  ts !! i = Some p →
  (draining_count (<[i := q]> ts) + (if draining p then 1 else 0)
   = draining_count ts + (if draining q then 1 else 0))%nat.
Proof.
  revert i. induction ts as [|p0 ts IH]; intros [|i]; simpl; try done.
  - intros [= ->]. lia.
  - intros H. specialize (IH i H). lia.
Qed.

Lemma draining_count_delete ts i p :
  ts !! i = Some p →
  (draining_count (base.delete i ts) + (if draining p then 1 else 0)
   = draining_count ts)%nat.
Proof.
  revert i. induction ts as [|p0 ts IH]; intros [|i]; simpl; try done.
  - intros [= ->]. lia.
  - intros H. specialize (IH i H). simpl in IH. lia.
Qed.

Lemma draining_count_zero ts j q :
  draining_count ts = 0%nat → ts !! j = Some q → draining q = false.
Proof.
  revert j. induction ts as [|p0 ts IH]; intros [|j]; simpl; try done.
  - intros H [= ->]. destruct (draining q); [lia|done].
  - intros H Hj. apply (IH j); [lia | exact Hj].
Qed.

Lemma draining_count_pos ts i p :
  ts !! i = Some p → draining p = true → (1 ≤ draining_count ts)%nat.
Proof.
  intros Hi Hp. pose proof (draining_count_delete ts i p Hi) as H.
  rewrite Hp in H. lia.
Qed.

(** With a single pass in the draining phase, every other call is past
    it. *)
Lemma draining_unique ts i p j q :
  (draining_count ts ≤ 1)%nat →
  ts !! i = Some p → draining p = true →
  j ≠ i → ts !! j = Some q → draining q = false.
Proof.
  revert i j. induction ts as [|p0 ts IH]; intros [|i] [|j]; simpl;
    try done.
  - intros Hc [= ->] Hp _ Hj. rewrite Hp in Hc.
    apply (draining_count_zero ts j); [lia | exact Hj].
  - intros Hc Hi Hp _ [= ->].
    pose proof (draining_count_pos ts i p Hi Hp).
    destruct (draining q); [lia|done].
  - intros Hc Hi Hp Hne Hj.
    apply (IH i j); [lia | exact Hi | exact Hp | congruence | exact Hj].
Qed.

Lemma snapshot_ok_idle d p : draining p = false → snapshot_ok d p.
Proof. destruct p; simpl; [discriminate.. | done]. Qed.

Lemma snapshot_ok_insert d ts i p q :
  (draining_count ts ≤ 1)%nat →
  ts !! i = Some p → draining p = true →
  snapshot_ok d q → Forall (snapshot_ok d) (<[i := q]> ts).
Proof.
  intros Hc Hi Hp Hq. apply Forall_lookup. intros j x Hj.
  destruct (decide (j = i)) as [->|Hne].
  - rewrite list_lookup_insert_eq in Hj by (by eapply lookup_lt_Some).
    by injection Hj as <-.
  - rewrite list_lookup_insert_ne in Hj by congruence.
    apply snapshot_ok_idle. eapply (draining_unique ts i p j); eauto.
Qed.

Lemma snapshot_ok_grow d d' p :
  (∀ k r, requests d !! k = Some r → requests d' !! k = Some r) →
  (∀ k, is_Some (failed d !! k) → is_Some (failed d' !! k)) →
  snapshot_ok d p → snapshot_ok d' p.
Proof.
  intros Hgrow Hfailed. destruct p as [|r rest|r rest|]; simpl; try done.
  - intros [Hnd Hst]. split; [exact Hnd|].
    eapply Forall_impl; [exact Hst|]. intros x Hx. by apply Hgrow.
  - intros (Hnd & Hst & Hf). split; [exact Hnd|]. split; [|by apply Hfailed].
    eapply Forall_impl; [exact Hst|]. intros x Hx. by apply Hgrow.
Qed.

(** The snapshot taken by [getQueuedRequests] agrees with the store. *)
Lemma snapshot_ok_fresh d r rest :
  keyed d → getQueuedRequests d = r :: rest →
  snapshot_ok d (AwaitRequest r rest).
Proof.
  intros [Hkeyed _] Hsnap. unfold snapshot_ok. rewrite <- Hsnap.
  unfold getQueuedRequests. rewrite getQueuedRequests_limit_take. split.
  - rewrite fmap_take. eapply sublist_NoDup; [|apply sublist_take].
    by apply index_cursor_ids_NoDup.
  - apply Forall_forall. intros x Hx.
    assert (x ∈ IDB.index_cursor priority_key (requests d)) as Hin.
    { eapply elem_of_sublist; [exact Hx | apply sublist_take]. }
    apply elem_of_index_cursor in Hin as (k & p & Hs & _).
    by rewrite (Hkeyed _ _ Hs).
Qed.

End ContextInvariant.

Section EntryEffect.
Import IdbManager.
Variable impl : update_impl.

(** The four ways in which the first stage of a loop iteration ends. *)
Lemma begin_entry_cases o now r d :
  (o = Fulfilled ∧
   begin_entry impl o now r d
   = Settled (mkDB (base.delete (id r) (requests d)) (failed d)) true) ∨
  (∃ msg, o = Rejected msg ∧ maxRetries r ≤ retries r + 1 ∧
          failed d !! id r = None ∧
          begin_entry impl o now r d
          = Moved (mkDB (requests d)
                        (<[id r := mkFailed (set_retries (retries r + 1) r)
                                            msg now]> (failed d)))
                  (set_retries (retries r + 1) r)) ∨
  (∃ msg, o = Rejected msg ∧ retries r + 1 < maxRetries r ∧
          impl = UpdatePut ∧
          begin_entry impl o now r d
          = Settled (mkDB (<[id r := set_retries (retries r + 1) r]>
                             (requests d)) (failed d)) false) ∨
  (∃ msg e, o = Rejected msg ∧ begin_entry impl o now r d = Thrown d e).
Proof.
  destruct o as [|msg]; [by left|]. right.
  unfold begin_entry. simpl.
  destruct (Z.geb_spec (retries r + 1) (maxRetries r)) as [Hge|Hlt].
  - unfold moveToFailed, IDB.add. simpl.
    destruct (failed d !! id r) eqn:Hf; simpl.
    + right. right. by exists msg, "ConstraintError".
    + left. exists msg. repeat split; try done; lia.
  - right. destruct impl; simpl.
    + right. by exists msg, "TypeError".
    + left. exists msg. repeat split; try done; lia.
Qed.

Lemma begin_entry_stores_ok o now r d :
  stores_ok d → requests d !! id r = Some r →
  stores_ok (stage_db (begin_entry impl o now r d)).
Proof.
  intros Hok Hr.
  destruct Hok as ([Hkq Hkf] & Hleft & Hused).
  pose proof (Hleft _ _ Hr) as Hlt. simpl in Hlt.
  destruct (begin_entry_cases o now r d)
    as [[_ ->]|[(msg & _ & Hge & Hnone & ->)|[(msg & _ & Hlt' & _ & ->)
       |(msg & e & _ & ->)]]]; simpl.
  - split; [split|split]; simpl; try done.
    + by apply map_Forall_delete.
    + by apply map_Forall_delete.
  - split; [split|split]; simpl; try done.
    + by apply map_Forall_insert_2.
    + apply map_Forall_insert_2; [simpl; lia | done].
  - split; [split|split]; simpl; try done.
    + by apply map_Forall_insert_2.
    + apply map_Forall_insert_2; [simpl; lia | done].
  - done.
Qed.

Lemma remove_stores_ok k d : stores_ok d → stores_ok (removeFromQueue k d).
Proof.
  intros ([Hkq Hkf] & Hleft & Hused).
  split; [split|split]; simpl; try done; by apply map_Forall_delete.
Qed.

Lemma attempts_grow_refl d : attempts_grow d d.
Proof.
  split; [|split].
  - intros k r r' Hr Hr'. rewrite Hr in Hr'. injection Hr' as ->. lia.
  - intros k r f _ Hn Hf. congruence.
  - done.
Qed.

Lemma remove_attempts_grow key d : attempts_grow d (removeFromQueue key d).
Proof.
  split; [|split]; simpl.
  - intros k x x' Hx Hx'. unfold IDB.delete in Hx'.
    apply lookup_delete_Some in Hx' as [_ Hx'].
    rewrite Hx in Hx'. injection Hx' as ->. lia.
  - intros k x f Hx Hn Hf. congruence.
  - done.
Qed.

Lemma begin_entry_attempts_grow o now r d :
  requests d !! id r = Some r →
  attempts_grow d (stage_db (begin_entry impl o now r d)).
Proof.
  intros Hr.
  destruct (begin_entry_cases o now r d)
    as [[_ ->]|[(msg & _ & Hge & Hnone & ->)|[(msg & _ & Hlt' & _ & ->)
       |(msg & e & _ & ->)]]]; simpl.
  - apply (remove_attempts_grow (id r) d).
  - split; [|split]; simpl.
    + intros k x x' Hx Hx'. rewrite Hx in Hx'. injection Hx' as ->. lia.
    + intros k x f Hx Hn Hf.
      destruct (decide (k = id r)) as [->|Hne].
      * rewrite lookup_insert_eq in Hf. injection Hf as <-. simpl.
        rewrite Hr in Hx. injection Hx as <-. lia.
      * rewrite lookup_insert_ne in Hf by congruence. congruence.
    + intros k f Hf. destruct (decide (k = id r)) as [->|Hne];
        [congruence|]. by rewrite lookup_insert_ne by congruence.
  - split; [|split]; simpl.
    + intros k x x' Hx Hx'.
      destruct (decide (k = id r)) as [->|Hne].
      * rewrite lookup_insert_eq in Hx'. injection Hx' as <-. simpl.
        rewrite Hr in Hx. injection Hx as <-. lia.
      * rewrite lookup_insert_ne in Hx' by congruence.
        rewrite Hx in Hx'. injection Hx' as ->. lia.
    + intros k x f Hx Hn Hf. congruence.
    + done.
  - apply attempts_grow_refl.
Qed.

(** The first stage writes to the queue under the [id] of its request
    only. *)
Lemma begin_entry_other o now r d k :
  k ≠ id r →
  requests (stage_db (begin_entry impl o now r d)) !! k = requests d !! k.
Proof.
  intros Hk.
  destruct (begin_entry_cases o now r d)
    as [[_ ->]|[(msg & _ & Hge & Hnone & ->)|[(msg & _ & Hlt' & _ & ->)
       |(msg & e & _ & ->)]]]; simpl; try done.
  - by rewrite lookup_delete_ne.
  - by rewrite lookup_insert_ne.
Qed.

(** The rest of the snapshot still agrees with the store after the first
    stage of the iteration on its head. *)
Lemma begin_entry_rest_ok o now r rest d :
  snapshot_ok d (AwaitRequest r rest) →
  NoDup (id <$> rest) ∧
  Forall (λ x, requests (stage_db (begin_entry impl o now r d)) !! id x
               = Some x) rest.
Proof.
  intros [Hnd Hst]. rewrite fmap_cons in Hnd.
  apply NoDup_cons in Hnd as [Hhead Hnd].
  apply Forall_cons in Hst as [_ Hst].
  split; [exact Hnd|].
  apply Forall_forall. intros x Hx.
  assert (id x ≠ id r) as Hne.
  { intros Heq. apply Hhead. rewrite <- Heq. by apply list_elem_of_fmap_2. }
  rewrite (begin_entry_other o now r d (id x) Hne).
  rewrite Forall_forall in Hst. by apply Hst.
Qed.

End EntryEffect.

Section ContextSteps.
Import IdbManager.
Variable impl : update_impl.

Lemma queueRequest_cases e method url data class om :
  let r := make_request e method url data class in
  (queueRequest e method url data class om).2 = om ∨
  (requests (db om) !! id r = None ∧
   (queueRequest e method url data class om).2
   = set_db (mkDB (<[id r := r]> (requests (db om))) (failed (db om))) om).
Proof.
  intros r. unfold queueRequest, addToQueue. fold r.
  destruct (clonable (priority r)); [|by left].
  unfold IDB.add. destruct (requests (db om) !! id r) eqn:Hr; [by left|].
  right. by split.
Qed.

Lemma consistent_init online : consistent (init online).
Proof.
  split; [|split]; simpl; [|constructor|done].
  split; [split|split]; simpl; apply map_Forall_empty.
Qed.

(** The call [i] goes on, in the draining phase, with the database [d']. *)
Lemma consistent_replace i p q d' c :
  stores_ok d' →
  tasks c !! i = Some p → draining p = true → draining q = true →
  draining_count (tasks c)
  = (if syncInProgress (om c) then 1%nat else 0%nat) →
  snapshot_ok d' q →
  consistent (mkContext (set_db d' (om c)) (<[i := q]> (tasks c))).
Proof.
  intros Hok Hi Hp Hq Hcount Hsnap.
  assert (draining_count (tasks c) ≤ 1)%nat as Hle
    by (rewrite Hcount; destruct (syncInProgress (om c)); lia).
  split; [exact Hok|]. split.
  - by apply (snapshot_ok_insert d' (tasks c) i p q).
  - simpl. pose proof (draining_count_insert (tasks c) i p q Hi) as Hins.
    rewrite Hp, Hq in Hins. rewrite <- Hcount. lia.
Qed.

Lemma consistent_finish i p d' c :
  stores_ok d' →
  tasks c !! i = Some p → draining p = true →
  draining_count (tasks c)
  = (if syncInProgress (om c) then 1%nat else 0%nat) →
  consistent (finish i d' c).
Proof.
  intros Hok Hi Hp Hcount.
  assert (draining_count (tasks c) ≤ 1)%nat as Hle
    by (rewrite Hcount; destruct (syncInProgress (om c)); lia).
  pose proof (draining_count_pos _ _ _ Hi Hp) as Hpos.
  split; [exact Hok|]. split.
  - by apply (snapshot_ok_insert d' (tasks c) i p AwaitCounter).
  - simpl. pose proof (draining_count_insert (tasks c) i p AwaitCounter Hi)
      as Hins. rewrite Hp in Hins. simpl in Hins. lia.
Qed.

Lemma consistent_next_entry i p d' rest c :
  stores_ok d' →
  tasks c !! i = Some p → draining p = true →
  draining_count (tasks c)
  = (if syncInProgress (om c) then 1%nat else 0%nat) →
  NoDup (id <$> rest) →
  Forall (λ x, requests d' !! id x = Some x) rest →
  consistent (next_entry i d' rest c).
Proof.
  intros Hok Hi Hp Hcount Hnd Hst.
  destruct rest as [|r' rest']; simpl.
  - by apply (consistent_finish i p).
  - by apply (consistent_replace i p (AwaitRequest r' rest')).
Qed.

Lemma consistent_step ev c : consistent c → consistent (step impl ev c).
Proof.
  intros Hc. pose proof Hc as (Hok & Hsnap & Hcount).
  destruct ev as [|online|e m u dt pr|i o now].
  - simpl. destruct (syncInProgress (om c)) eqn:Hflag; simpl;
      [exact Hc|].
    destruct (isOnline (om c)); simpl; [|exact Hc].
    split; [exact Hok|]. split.
    + apply Forall_app. split; [exact Hsnap|]. by repeat constructor.
    + simpl. rewrite draining_count_app, Hcount. reflexivity.
  - exact Hc.
  - simpl.
    destruct (queueRequest_cases e m u dt pr (om c)) as [->|[Hnone ->]];
      [exact Hc|].
    set (r := make_request e m u dt pr) in *.
    destruct Hok as ([Hkq Hkf] & Hleft & Hused).
    split; [|split]; simpl; [| |exact Hcount].
    + split; [split|split]; simpl; try done.
      * by apply map_Forall_insert_2.
      * apply map_Forall_insert_2; [simpl; lia | done].
    + eapply Forall_impl; [exact Hsnap|]. intros p.
      apply snapshot_ok_grow; simpl; [|done]. intros k x Hx.
      destruct (decide (k = id r)) as [->|Hne]; [congruence|].
      rewrite lookup_insert_ne; [exact Hx|]. intros Heq. by apply Hne.
  - simpl. unfold resume.
    destruct (tasks c !! i) as [p|] eqn:Hi; [|exact Hc].
    destruct p as [|r rest|r rest|].
    + destruct (getQueuedRequests (db (om c))) as [|r rest] eqn:Hq.
      * by apply (consistent_finish i AwaitSnapshot).
      * pose proof (snapshot_ok_fresh _ _ _ (proj1 Hok) Hq) as [Hnd Hst].
        rewrite fmap_cons in Hnd.
        apply (consistent_next_entry i AwaitSnapshot); try done.
    + pose proof (Forall_lookup_1 _ _ _ _ Hsnap Hi) as Hr.
      pose proof (begin_entry_rest_ok impl o now r rest _ Hr) as [Hnd Hst].
      destruct Hr as [Hnd' Hr]. apply Forall_cons in Hr as [Hr _].
      pose proof (begin_entry_stores_ok impl o now r _ Hok Hr) as Hok'.
      destruct (begin_entry_cases impl o now r (db (om c)))
        as [[_ Heq]|[(msg & _ & Hge & Hnone & Heq)|[(msg & _ & Hlt' & _ & Heq)
           |(msg & e & _ & Heq)]]]; rewrite Heq in *; simpl in *.
      * by apply (consistent_next_entry i (AwaitRequest r rest)).
      * apply (consistent_replace i (AwaitRequest r rest)); try done.
        simpl. split; [exact Hnd'|]. split; [exact Hst|].
        rewrite lookup_insert_eq. eauto.
      * by apply (consistent_next_entry i (AwaitRequest r rest)).
      * by apply (consistent_finish i (AwaitRequest r rest)).
    + pose proof (Forall_lookup_1 _ _ _ _ Hsnap Hi) as (Hnd & Hst & Hf).
      rewrite fmap_cons in Hnd. apply NoDup_cons in Hnd as [Hhead Hnd].
      apply (consistent_next_entry i (AwaitRemove r rest)); try done.
      * by apply remove_stores_ok.
      * apply Forall_forall. intros x Hx. simpl. unfold IDB.delete.
        rewrite lookup_delete_ne.
        -- rewrite Forall_forall in Hst. by apply Hst.
        -- intros Heq. apply Hhead. rewrite Heq.
           by apply list_elem_of_fmap_2.
    + split; [exact Hok|]. split; simpl.
      * by apply Forall_delete.
      * pose proof (draining_count_delete _ _ _ Hi) as Hdel.
        simpl in Hdel. lia.
Qed.

Lemma consistent_run evs c : consistent c → consistent (run impl evs c).
Proof.
  revert c. induction evs as [|ev evs IH]; intros c Hc; simpl; [exact Hc|].
  by apply IH, consistent_step.
Qed.

End ContextSteps.

Section SingleFlight.
Import IdbManager.
Variable impl : update_impl.

Lemma queueRequest_flags e method url data class om :
  syncInProgress (queueRequest e method url data class om).2
  = syncInProgress om ∧
  isOnline (queueRequest e method url data class om).2 = isOnline om.
Proof.
  destruct (queueRequest_cases e method url data class om)
    as [->|[_ ->]]; by split.
Qed.

Lemma db_next_entry i d rest c : db (om (next_entry i d rest c)) = d.
Proof. by destruct rest. Qed.

Lemma tasks_next_entry i d rest c :
  tasks (next_entry i d rest c)
  = <[i := match rest with
           | [] => AwaitCounter
           | r :: rest' => AwaitRequest r rest'
           end]> (tasks c).
Proof. by destruct rest. Qed.

(** The database after a resumption of a call that is suspended in
    [processQueuedRequest]. *)
Lemma db_resume_request i o now r rest c :
  tasks c !! i = Some (AwaitRequest r rest) →
  db (om (resume impl i o now c))
  = stage_db (begin_entry impl o now r (db (om c))).
Proof.
  intros Hi. unfold resume. rewrite Hi.
  destruct (begin_entry impl o now r (db (om c))); simpl;
    [apply db_next_entry | done | done].
Qed.

Lemma consistent_flag_ok c : consistent c → flag_ok c.
Proof. by intros (_ & _ & Hcount). Qed.

Lemma flag_ok_load online d : flag_ok (load online d).
Proof. reflexivity. Qed.

Lemma flag_ok_set i p c :
  tasks c !! i = Some p → draining p = true → flag_ok c →
  syncInProgress (om c) = true.
Proof.
  unfold flag_ok. intros Hi Hp Hc.
  pose proof (draining_count_pos _ _ _ Hi Hp).
  destruct (syncInProgress (om c)); [done|lia].
Qed.

Lemma draining_count_work ts : (draining_count ts ≤ work_left ts)%nat.
Proof.
  induction ts as [|p ts IH]; simpl; [done|].
  destruct p; simpl; lia.
Qed.

Lemma work_left_app ts1 ts2 :
  work_left (ts1 ++ ts2) = (work_left ts1 + work_left ts2)%nat.
Proof. induction ts1 as [|p ts1 IH]; simpl; [done|]. rewrite IH. lia. Qed.

Lemma work_left_insert ts i p q :
  ts !! i = Some p →
  (work_left (<[i := q]> ts) + steps_left p
   = work_left ts + steps_left q)%nat.
Proof.
  revert i. induction ts as [|p0 ts IH]; intros [|i]; simpl; try done.
  - intros [= ->]. lia.
  - intros H. specialize (IH i H). lia.
Qed.

Lemma work_left_delete ts i p :
  ts !! i = Some p →
  (work_left (base.delete i ts) + steps_left p = work_left ts)%nat.
Proof.
  revert i. induction ts as [|p0 ts IH]; intros [|i]; simpl; try done.
  - intros [= ->]. lia.
  - intros H. specialize (IH i H). simpl in IH. lia.
Qed.

Lemma steps_left_idle p : draining p = false → steps_left p = 0%nat.
Proof. by destruct p. Qed.

Lemma work_left_lookup ts i p :
  ts !! i = Some p → (steps_left p ≤ work_left ts)%nat.
Proof. intros Hi. pose proof (work_left_delete ts i p Hi). lia. Qed.

(** The flag and the tasks after the loop has moved on to the rest of the
    snapshot. *)
Lemma next_entry_progress i p d rest c :
  tasks c !! i = Some p → draining p = true → flag_ok c →
  ∃ p', tasks (next_entry i d rest c) = <[i := p']> (tasks c) ∧
        steps_left p' = (2 * length rest)%nat ∧
        syncInProgress (om (next_entry i d rest c)) = draining p'.
Proof.
  intros Hi Hp Hc. destruct rest as [|r' rest']; simpl.
  - by exists AwaitCounter.
  - exists (AwaitRequest r' rest'). split; [done|]. split; [simpl; lia|].
    by apply (flag_ok_set i p).
Qed.

(** A resumption of the call that holds the flag brings the call nearer
    to its end, and the flag is cleared exactly when the call leaves the
    loop. *)
Lemma resume_progress i p o now c :
  tasks c !! i = Some p → draining p = true → flag_ok c →
  (steps_left p ≤ 101)%nat →
  ∃ p', tasks (resume impl i o now c) = <[i := p']> (tasks c) ∧
        (steps_left p' < steps_left p)%nat ∧
        syncInProgress (om (resume impl i o now c)) = draining p'.
Proof.
  intros Hi Hp Hc Hbound. pose proof (flag_ok_set i p c Hi Hp Hc) as Hflag.
  unfold resume. rewrite Hi. destruct p as [|r rest|r rest|]; [| | |done].
  - destruct (next_entry_progress i AwaitSnapshot (db (om c))
                (getQueuedRequests (db (om c))) c Hi Hp Hc)
      as (p' & Htasks & Hsteps & Hflag').
    exists p'. split; [exact Htasks|]. split; [|exact Hflag'].
    pose proof (getQueuedRequests_length 50 (db (om c))) as Hlen.
    unfold getQueuedRequests in Hsteps.
    change (Z.to_nat 50) with 50%nat in Hlen. simpl. lia.
  - destruct (begin_entry impl o now r (db (om c))) as [d b|d r'|d e].
    + destruct (next_entry_progress i (AwaitRequest r rest) d rest c
                  Hi Hp Hc) as (p' & Htasks & Hsteps & Hflag').
      exists p'. split; [exact Htasks|]. split; [simpl; lia | exact Hflag'].
    + exists (AwaitRemove r' rest). split; [done|]. split; [simpl; lia|].
      exact Hflag.
    + exists AwaitCounter. split; [done|]. split; [simpl; lia | done].
  - destruct (next_entry_progress i (AwaitRemove r rest)
                (removeFromQueue (id r) (db (om c))) rest c Hi Hp Hc)
      as (p' & Htasks & Hsteps & Hflag').
    exists p'. split; [exact Htasks|]. split; [simpl; lia | exact Hflag'].
Qed.

(** A resumption of a call that has cleared the flag ends the call and
    changes nothing else, and so does the resumption of no call. *)
Lemma resume_idle i o now c :
  match tasks c !! i with
  | Some p => draining p = false
  | None => True
  end →
  om (resume impl i o now c) = om c ∧
  work_left (tasks (resume impl i o now c)) = work_left (tasks c) ∧
  draining_count (tasks (resume impl i o now c)) = draining_count (tasks c).
Proof.
  unfold resume. destruct (tasks c !! i) as [p|] eqn:Hi; [|done].
  intros Hp. destruct p; try discriminate Hp. simpl.
  pose proof (work_left_delete _ _ _ Hi) as Hw.
  pose proof (draining_count_delete _ _ _ Hi) as Hd.
  simpl in Hw, Hd. split; [done|]. split; lia.
Qed.

(** The flag follows the calls in flight, and the work that is left is
    bounded, at every step. *)
Lemma flight_step ev c :
  flag_ok c ∧ (work_left (tasks c) ≤ 101)%nat →
  flag_ok (step impl ev c) ∧ (work_left (tasks (step impl ev c)) ≤ 101)%nat.
Proof.
  intros [Hc Hw]. destruct ev as [|online|e m u dt pr|i o now]; simpl.
  - destruct (syncInProgress (om c)) eqn:Hflag; simpl; [by split|].
    destruct (isOnline (om c)); simpl; [|by split].
    unfold flag_ok in *. rewrite Hflag in Hc.
    pose proof (draining_count_work (tasks c)) as Hdw.
    simpl. rewrite draining_count_app, work_left_app. simpl. split; [lia|].
    assert (work_left (tasks c) = 0%nat) as ->; [|lia].
    clear Hw Hdw. induction (tasks c) as [|p ts IH]; [done|].
    simpl in Hc. destruct p; simpl in *; lia.
  - by split.
  - unfold flag_ok in *. cbn [tasks om].
    by rewrite (proj1 (queueRequest_flags e m u dt pr (om c))).
  - destruct (tasks c !! i) as [p|] eqn:Hi.
    + destruct (draining p) eqn:Hp.
      * pose proof (work_left_lookup _ _ _ Hi) as Hle.
        destruct (resume_progress i p o now c Hi Hp Hc ltac:(lia))
          as (p' & Htasks & Hsteps & Hflag').
        pose proof (work_left_insert (tasks c) i p p' Hi) as Hins.
        pose proof (draining_count_insert (tasks c) i p p' Hi) as Hcount.
        pose proof (flag_ok_set i p c Hi Hp Hc) as Hflag.
        unfold flag_ok in *. rewrite Htasks, Hflag'. rewrite Hflag in Hc.
        rewrite Hp in Hcount. split; [|lia].
        destruct (draining p'); lia.
      * destruct (resume_idle i o now c) as (Hom & Hwork & Hcount);
          [by rewrite Hi|].
        unfold flag_ok in *. rewrite Hom, Hwork, Hcount. by split.
    + destruct (resume_idle i o now c) as (Hom & Hwork & Hcount);
        [by rewrite Hi|].
      unfold flag_ok in *. rewrite Hom, Hwork, Hcount. by split.
Qed.

Lemma flight_run evs c :
  flag_ok c ∧ (work_left (tasks c) ≤ 101)%nat →
  flag_ok (run impl evs c) ∧ (work_left (tasks (run impl evs c)) ≤ 101)%nat.
Proof.
  revert c. induction evs as [|ev evs IH]; intros c Hc; simpl; [exact Hc|].
  by apply IH, flight_step.
Qed.

(** While the flag is clear, only a trigger that passes the guard sets
    it. *)
Lemma flag_after_step ev c :
  flag_ok c → syncInProgress (om c) = false →
  syncInProgress (om (step impl ev c)) = starts_pass ev c.
Proof.
  unfold flag_ok. intros Hcount Hflag. rewrite Hflag in Hcount.
  destruct ev as [|online|e m u dt pr|i o now]; simpl.
  - rewrite Hflag. simpl. destruct (isOnline (om c)); simpl; done.
  - exact Hflag.
  - by rewrite (proj1 (queueRequest_flags e m u dt pr (om c))).
  - unfold resume. destruct (tasks c !! i) as [p|] eqn:Hi; [|exact Hflag].
    pose proof (draining_count_zero _ _ _ Hcount Hi) as Hp.
    destruct p; simpl in Hp; try discriminate. exact Hflag.
Qed.

Lemma step_count ev c :
  flag_ok c ∧ (work_left (tasks c) ≤ 101)%nat →
  ((if starts_pass ev c then 1 else 0) + draining_count (tasks c)
   = (if returns_to_idle impl ev c then 1 else 0)
     + draining_count (tasks (step impl ev c)))%nat.
Proof.
  intros Hc. pose proof (flight_step ev c Hc) as [Hcount' _].
  destruct Hc as [Hcount _]. pose proof Hcount as Hcount0.
  unfold flag_ok in Hcount, Hcount'.
  rewrite Hcount, Hcount'. unfold returns_to_idle.
  destruct (syncInProgress (om c)) eqn:Hflag.
  - assert (starts_pass ev c = false) as ->.
    { destruct ev; simpl; try done. by rewrite Hflag. }
    simpl. destruct (syncInProgress (om (step impl ev c))); reflexivity.
  - rewrite (flag_after_step ev c Hcount0 Hflag).
    simpl. destruct (starts_pass ev c); reflexivity.
Qed.

Lemma run_count evs c :
  flag_ok c ∧ (work_left (tasks c) ≤ 101)%nat →
  (count_along starts_pass impl evs c + draining_count (tasks c)
   = count_along (returns_to_idle impl) impl evs c
     + draining_count (tasks (run impl evs c)))%nat.
Proof.
  revert c. induction evs as [|ev evs IH]; intros c Hc; simpl; [done|].
  pose proof (step_count ev c Hc) as Hstep.
  pose proof (IH _ (flight_step ev c Hc)) as Hrest. lia.
Qed.

(** While the flag is set, no step adds to the work that is left, and a
    resumption of the call that holds the flag takes from it. *)
Lemma step_work ev c :
  flag_ok c ∧ (work_left (tasks c) ≤ 101)%nat →
  syncInProgress (om c) = true →
  (work_left (tasks (step impl ev c)) + (if resumes_pass ev c then 1 else 0)
   ≤ work_left (tasks c))%nat.
Proof.
  intros [Hc Hw] Hflag.
  destruct ev as [|online|e m u dt pr|i o now]; simpl.
  - rewrite Hflag. simpl. lia.
  - lia.
  - lia.
  - destruct (tasks c !! i) as [p|] eqn:Hi.
    + destruct (draining p) eqn:Hp.
      * pose proof (work_left_lookup _ _ _ Hi) as Hle.
        destruct (resume_progress i p o now c Hi Hp Hc ltac:(lia))
          as (p' & Htasks & Hsteps & _).
        pose proof (work_left_insert (tasks c) i p p' Hi) as Hins.
        rewrite Htasks. lia.
      * destruct (resume_idle i o now c) as (_ & Hwork & _);
          [by rewrite Hi|].
        rewrite Hwork. lia.
    + destruct (resume_idle i o now c) as (_ & Hwork & _);
        [by rewrite Hi|].
      rewrite Hwork. lia.
Qed.

(** A pass that is resumed as often as its work allows has cleared the
    flag. *)
Lemma run_returns evs c :
  flag_ok c ∧ (work_left (tasks c) ≤ 101)%nat →
  syncInProgress (om c) = true →
  (work_left (tasks c) ≤ count_along resumes_pass impl evs c)%nat →
  (1 ≤ count_along (returns_to_idle impl) impl evs c)%nat.
Proof.
  revert c. induction evs as [|ev evs IH]; intros c Hc Hflag Hwork.
  - simpl in Hwork. destruct Hc as [Hc _]. unfold flag_ok in Hc.
    rewrite Hflag in Hc. pose proof (draining_count_work (tasks c)). lia.
  - cbn [count_along] in *.
    destruct (returns_to_idle impl ev c) eqn:Hret; [lia|].
    pose proof (step_work ev c Hc Hflag) as Hstep.
    assert (syncInProgress (om (step impl ev c)) = true) as Hflag'.
    { unfold returns_to_idle in Hret. rewrite Hflag in Hret.
      by destruct (syncInProgress (om (step impl ev c))). }
    pose proof (IH _ (flight_step ev c Hc) Hflag') as Hrest.
    destruct (resumes_pass ev c); lia.
Qed.

(** Resumptions that find no pass in progress start none and clear no
    flag. *)
Lemma idle_resumes i (os : list (outcome * Z)) c :
  flag_ok c ∧ (work_left (tasks c) ≤ 101)%nat →
  syncInProgress (om c) = false →
  let evs := (λ o : outcome * Z, Resume i o.1 o.2) <$> os in
  syncInProgress (om (run impl evs c)) = false ∧
  count_along (returns_to_idle impl) impl evs c = 0%nat.
Proof.
  revert c. induction os as [|[o now] os IH]; intros c Hc Hflag;
    [by split|].
  cbn [fmap list_fmap run count_along fst snd].
  pose proof (flag_after_step (Resume i o now) c (proj1 Hc) Hflag) as Hflag'.
  simpl starts_pass in Hflag'.
  destruct (IH _ (flight_step (Resume i o now) c Hc) Hflag')
    as [Hend Hcount].
  split; [exact Hend|]. cbn zeta in Hcount. rewrite Hcount.
  unfold returns_to_idle. by rewrite Hflag.
Qed.

(** A pass that is resumed as often as the bound on its work says,
    whatever the outcomes of its calls, has cleared the flag, once. *)
Lemma resumed_to_idle i p (os : list (outcome * Z)) c :
  flag_ok c ∧ (work_left (tasks c) ≤ 101)%nat →
  tasks c !! i = Some p → draining p = true →
  (steps_left p ≤ length os)%nat →
  let evs := (λ o : outcome * Z, Resume i o.1 o.2) <$> os in
  syncInProgress (om (run impl evs c)) = false ∧
  count_along (returns_to_idle impl) impl evs c = 1%nat.
Proof.
  revert c p. induction os as [|[o now] os IH]; intros c p Hc Hi Hp Hlen.
  - simpl in Hlen. destruct p; simpl in Hlen, Hp; try lia; discriminate.
  - cbn [fmap list_fmap run count_along fst snd].
    pose proof (work_left_lookup _ _ _ Hi) as Hle.
    pose proof (flag_ok_set i p c Hi Hp (proj1 Hc)) as Hflag.
    destruct (resume_progress i p o now c Hi Hp (proj1 Hc))
      as (p' & Htasks & Hsteps & Hflag'); [destruct Hc; lia|].
    pose proof (flight_step (Resume i o now) c Hc) as Hc'.
    unfold returns_to_idle at 1. cbn [step]. rewrite Hflag, Hflag'.
    destruct (draining p') eqn:Hp'.
    + destruct (IH (step impl (Resume i o now) c) p' Hc') as [Hend Hcount].
      * cbn [step]. rewrite Htasks.
        apply list_lookup_insert_eq. by eapply lookup_lt_Some.
      * exact Hp'.
      * simpl in Hlen. lia.
      * split; [exact Hend|]. cbn zeta in Hcount.
        cbn [step] in Hcount. by rewrite Hcount.
    + destruct (idle_resumes i os (step impl (Resume i o now) c) Hc')
        as [Hend Hcount]; [cbn [step]; exact Hflag'|].
      split; [exact Hend|]. cbn zeta in Hcount.
      cbn [step] in Hcount. by rewrite Hcount.
Qed.

End SingleFlight.

(** ** The interleaved pass and the uninterrupted pass agree *)

Section PassRefinement.
Import IdbManager.
Variable impl : update_impl.

Lemma run_app evs1 evs2 c :
  run impl (evs1 ++ evs2) c = run impl evs2 (run impl evs1 c).
Proof.
  revert c. induction evs1 as [|ev evs1 IH]; intros c; simpl; [done|].
  apply IH.
Qed.

Lemma drain_cons net clock r rest d s :
  drain impl net clock (r :: rest) d s
  = match process_entry impl (net r) (clock r) r d with
    | Continue d1 synced => drain impl net clock rest d1 (tally r synced s)
    | Abort d1 e => (d1, aborted r e s)
    end.
Proof. reflexivity. Qed.

Lemma drain_events_cons net clock r rest d :
  drain_events impl net clock (r :: rest) d
  = Resume 0 (net r) (clock r)
    :: match begin_entry impl (net r) (clock r) r d with
       | Settled d1 _ => drain_events impl net clock rest d1
       | Moved d1 r' =>
           Resume 0 Fulfilled 0
           :: drain_events impl net clock rest (removeFromQueue (id r') d1)
       | Thrown _ _ => []
       end.
Proof. reflexivity. Qed.

(** From the first network call of the loop to the clearing of the flag. *)
Lemma drain_run net clock online todo d s :
  run impl (drain_events impl net clock todo d)
      (next_entry 0 d todo (mkContext (mkManager online true d) [AwaitSnapshot]))
  = mkContext (mkManager online false (drain impl net clock todo d s).1)
              [AwaitCounter].
Proof.
  revert d s. induction todo as [|r rest IH]; intros d s; [reflexivity|].
  rewrite drain_cons, drain_events_cons. unfold process_entry.
  cbn [next_entry run step]. unfold resume at 1.
  cbn [tasks lookup list_lookup insert list_insert om db set_db
       syncInProgress isOnline].
  destruct (begin_entry impl (net r) (clock r) r d) as [d1 b|d1 r'|d1 e].
  - rewrite <- (IH d1 (tally r b s)). by destruct rest.
  - cbn [run step insert list_insert set_db isOnline syncInProgress db om].
    unfold resume at 1.
    cbn [tasks lookup list_lookup insert list_insert om db set_db
         syncInProgress isOnline].
    rewrite <- (IH (removeFromQueue (id r') d1) (tally r false s)).
    by destruct rest.
  - reflexivity.
Qed.

(** Running the events of an uninterrupted pass through the machine gives
    the manager that [syncOfflineData] returns, with no call left in
    flight. *)
Lemma pass_run_agrees net clock online d :
  let om := mkManager online false d in
  match syncOfflineData impl net clock om with
  | (om', Some s) =>
      run impl (pass_events impl net clock d) (mkContext om [])
      = mkContext om' []
  | (om', None) =>
      om' = om ∧ step impl Trigger (mkContext om []) = mkContext om []
  end.
Proof.
  intros om0. subst om0. unfold syncOfflineData, pass_events.
  destruct online; [|by split].
  cbn [syncInProgress isOnline orb negb set_syncInProgress db].
  pose proof (drain_run net clock true (getQueuedRequests d) d summary0)
    as Hrun.
  destruct (drain impl net clock (getQueuedRequests d) d summary0)
    as [d' s'].
  cbn [run step]. cbn [om syncInProgress isOnline orb negb tasks app].
  unfold resume at 1.
  cbn [tasks lookup list_lookup om db set_syncInProgress isOnline
       syncInProgress].
  rewrite run_app. cbn [fst] in Hrun.
  unfold set_syncInProgress. cbn [isOnline syncInProgress db].
  rewrite Hrun. reflexivity.
Qed.

End PassRefinement.

(** C2: in the IndexedDB controller, on whatever database the page was
    loaded and at every point of every run, a trigger that arrives while
    [syncInProgress] is set changes nothing: no pass is started and the
    database is left alone.  At most one call of [syncOfflineData] is
    between setting and clearing the flag, and the flag is set exactly when
    there is one.  Every resumption of that call brings it nearer to its
    end, which is at most 101 resumptions away, and the flag is cleared at
    the very resumption on which the call leaves its loop, normally or
    through the outer [catch].  So a pass that is resumed as often as the
    bound on its remaining work says, whatever the outcomes of its calls,
    has gone back to idle, exactly once; and when other events arrive in
    between, a run that resumes passes in progress that often has a return
    to idle in it.  Along the run, the flag went back to false once for
    every pass that was started, except for the pass that is still in
    progress. *)
Theorem single_flight_drain :
  ∀ (impl : IdbManager.update_impl) (d : DB) (online : bool)
    (evs : list IdbManager.event),
    let c0 := IdbManager.load online d in
    let c := IdbManager.run impl evs c0 in
    (IdbManager.syncInProgress (IdbManager.om c) = true →
     IdbManager.step impl IdbManager.Trigger c = c) ∧
    (draining_count (IdbManager.tasks c) ≤ 1)%nat ∧
    draining_count (IdbManager.tasks c)
    = (if IdbManager.syncInProgress (IdbManager.om c) then 1 else 0)%nat ∧
    (∀ i p o now,
       IdbManager.tasks c !! i = Some p → IdbManager.draining p = true →
       let c' := IdbManager.step impl (IdbManager.Resume i o now) c in
       ∃ p', IdbManager.tasks c' = <[i := p']> (IdbManager.tasks c) ∧
             (steps_left p' < steps_left p ≤ 101)%nat ∧
             IdbManager.syncInProgress (IdbManager.om c')
             = IdbManager.draining p') ∧
    (∀ i p (os : list (outcome * Z)),
       IdbManager.tasks c !! i = Some p → IdbManager.draining p = true →
       (steps_left p ≤ length os)%nat →
       let evs' := (λ o : outcome * Z, IdbManager.Resume i o.1 o.2) <$> os in
       IdbManager.syncInProgress (IdbManager.om (IdbManager.run impl evs' c))
       = false ∧
       count_along (returns_to_idle impl) impl evs' c = 1%nat) ∧
    (∀ evs',
       IdbManager.syncInProgress (IdbManager.om c) = true →
       (work_left (IdbManager.tasks c)
        ≤ count_along resumes_pass impl evs' c)%nat →
       (1 ≤ count_along (returns_to_idle impl) impl evs' c)%nat) ∧
    count_along starts_pass impl evs c0
    = (count_along (returns_to_idle impl) impl evs c0
       + draining_count (IdbManager.tasks c))%nat.
Proof.
  intros impl d online evs c0 c.
  assert (flag_ok c0 ∧ (work_left (IdbManager.tasks c0) ≤ 101)%nat) as Hc0
    by (split; [reflexivity | simpl; lia]).
  pose proof (flight_run impl evs c0 Hc0) as Hc. fold c in Hc.
  pose proof Hc as [Hcount Hwork]. unfold flag_ok in Hcount.
  split; [|split; [|split; [|split; [|split; [|split]]]]].
  - intros Hflag. simpl. by rewrite Hflag.
  - rewrite Hcount. destruct (IdbManager.syncInProgress (IdbManager.om c)); lia.
  - exact Hcount.
  - intros i p o now Hi Hp c'. subst c'. cbn [IdbManager.step].
    pose proof (work_left_lookup _ _ _ Hi) as Hle.
    destruct (resume_progress impl i p o now c Hi Hp (proj1 Hc) ltac:(lia))
      as (p' & Htasks & Hsteps & Hflag).
    exists p'. split; [exact Htasks|]. split; [lia | exact Hflag].
  - intros i p os Hi Hp Hlen. by apply (resumed_to_idle impl i p os c).
  - intros evs' Hflag Hresumed. by apply run_returns.
  - pose proof (run_count impl evs c0 Hc0) as Hrun.
    simpl in Hrun. fold c in Hrun. lia.
Qed.

(** A page is loaded on a database that holds a request with two failed
    attempts.  A pass starts; the trigger that arrives meanwhile does
    nothing.  The call fails for the third time, the request is moved to
    the failed store and removed from the queue, and the flag is clear
    again: one pass was started and the controller went back to idle
    once. *)
Lemma single_flight_drain_witness :
  let r := mkRequest "1700000000000-a7c1m4p8w" "POST" "/api/orders/" None
                     1700000000000 (JNum 1) 2 3 in
  let d := mkDB {[ id r := r ]} ∅ in
  let evs :=
    [IdbManager.Trigger; IdbManager.Trigger;
     IdbManager.Resume 0 Fulfilled 0] in
  let evs' :=
    [IdbManager.Resume 0 (Rejected "HTTP 500") 1700000000500;
     IdbManager.Trigger;
     IdbManager.Resume 0 Fulfilled 0] in
  let os := [(Rejected "HTTP 500", 1700000000500); (Fulfilled, 0)] in
  let c := IdbManager.run IdbManager.UpdateUndefined evs
             (IdbManager.load true d) in
  let c' := IdbManager.run IdbManager.UpdateUndefined evs' c in
  IdbManager.syncInProgress (IdbManager.om c) = true ∧
  IdbManager.step IdbManager.UpdateUndefined IdbManager.Trigger c = c ∧
  draining_count (IdbManager.tasks c) = 1%nat ∧
  (IdbManager.syncInProgress
     (IdbManager.om
        (IdbManager.run IdbManager.UpdateUndefined
           ((λ o : outcome * Z, IdbManager.Resume 0 o.1 o.2) <$> os) c))
   = false ∧
   count_along (returns_to_idle IdbManager.UpdateUndefined)
     IdbManager.UpdateUndefined
     ((λ o : outcome * Z, IdbManager.Resume 0 o.1 o.2) <$> os) c = 1%nat) ∧
  (1 ≤ count_along (returns_to_idle IdbManager.UpdateUndefined)
         IdbManager.UpdateUndefined evs' c)%nat ∧
  IdbManager.syncInProgress (IdbManager.om c') = false ∧
  count_along starts_pass IdbManager.UpdateUndefined (evs ++ evs')
    (IdbManager.load true d) = 1%nat ∧
  count_along (returns_to_idle IdbManager.UpdateUndefined)
    IdbManager.UpdateUndefined (evs ++ evs') (IdbManager.load true d)
  = 1%nat.
Proof.
  intros r d evs evs' os c c'.
  assert (IdbManager.syncInProgress (IdbManager.om c) = true) as Hflag
    by (vm_compute; reflexivity).
  destruct (single_flight_drain IdbManager.UpdateUndefined d true evs)
    as (Hnoop & _ & Hcount & _ & Hend & Hback & _).
  fold c in Hnoop, Hcount, Hend, Hback.
  split; [exact Hflag|]. split; [exact (Hnoop Hflag)|].
  split; [rewrite Hcount, Hflag; reflexivity|].
  split.
  { apply (Hend 0%nat (IdbManager.AwaitRequest r []) os);
      [vm_compute; reflexivity | reflexivity | simpl; lia]. }
  split; [apply (Hback evs' Hflag); vm_compute; lia|].
  split; [vm_compute; reflexivity|].
  split; vm_compute; reflexivity.
Defined.

(** ** Attempt counters *)

Section Attempts.
Import IdbManager.
Variable impl : update_impl.

Lemma step_attempts_grow ev c :
  consistent c → attempts_grow (db (om c)) (db (om (step impl ev c))).
Proof.
  intros (Hok & Hsnap & Hcount).
  destruct ev as [|online|e m u dt pr|i o now]; simpl.
  - destruct (syncInProgress (om c) || negb (isOnline (om c)));
      apply attempts_grow_refl.
  - apply attempts_grow_refl.
  - destruct (queueRequest_cases e m u dt pr (om c)) as [->|[Hnone ->]];
      [apply attempts_grow_refl|].
    simpl. split; [|split]; simpl.
    + intros k r r' Hr Hr'.
      destruct (decide (k = id (make_request e m u dt pr))) as [->|Hne];
        [congruence|].
      rewrite lookup_insert_ne in Hr' by (intros Heq; by apply Hne).
      rewrite Hr in Hr'. injection Hr' as ->. lia.
    + intros k r f _ Hn Hf. congruence.
    + done.
  - destruct (tasks c !! i) as [p|] eqn:Hi;
      [|unfold resume; rewrite Hi; apply attempts_grow_refl].
    destruct p as [|r rest|r rest|].
    + unfold resume. rewrite Hi, db_next_entry. apply attempts_grow_refl.
    + rewrite (db_resume_request impl i o now r rest c Hi).
      pose proof (Forall_lookup_1 _ _ _ _ Hsnap Hi) as [_ Hr].
      apply Forall_cons in Hr as [Hr _].
      by apply begin_entry_attempts_grow.
    + unfold resume. rewrite Hi, db_next_entry. apply remove_attempts_grow.
    + unfold resume. rewrite Hi. apply attempts_grow_refl.
Qed.



End Attempts.





(** ** Queue and failed store *)

Section BothStores.
Import IdbManager.
Variable impl : update_impl.

Lemma elem_of_insert_other {A} (l : list A) i p q x :
  l !! i = Some p → x ∈ l → x ≠ p → x ∈ <[i := q]> l.
Proof.
  revert i. induction l as [|y l IH]; intros [|i]; simpl; try done.
  - intros [= ->] Hx Hne. apply elem_of_cons in Hx as [->|Hx]; [done|].
    by right.
  - intros Hi Hx Hne. apply elem_of_cons in Hx as [->|Hx]; [by left|].
    right. by apply IH.
Qed.

Lemma elem_of_delete_other {A} (l : list A) i p x :
  l !! i = Some p → x ∈ l → x ≠ p → x ∈ base.delete i l.
Proof.
  revert i. induction l as [|y l IH]; intros [|i]; simpl; try done.
  - intros [= ->] Hx Hne. by apply elem_of_cons in Hx as [->|Hx].
  - intros Hi Hx Hne. apply elem_of_cons in Hx as [->|Hx]; [by left|].
    right. by apply IH.
Qed.

(** A move in progress stays in progress while its call is left alone. *)
Lemma moving_keep k c om' ts' :
  (∀ r rest, AwaitRemove r rest ∈ tasks c → id r = k →
             AwaitRemove r rest ∈ ts') →
  moving k c → moving k (mkContext om' ts').
Proof.
  intros Hkeep (r & rest & Hin & Hid). exists r, rest. split; [|exact Hid].
  by apply Hkeep.
Qed.

Lemma moving_insert k c om' i p q :
  tasks c !! i = Some p →
  (∀ r rest, p = AwaitRemove r rest → id r ≠ k) →
  moving k c → moving k (mkContext om' (<[i := q]> (tasks c))).
Proof.
  intros Hi Hp. apply moving_keep. intros r rest Hin Hid.
  apply (elem_of_insert_other _ i p); [exact Hi | exact Hin |].
  intros Heq. exact (Hp r rest (eq_sym Heq) Hid).
Qed.

Lemma moving_next_entry k c i p d rest :
  tasks c !! i = Some p →
  (∀ r rest', p = AwaitRemove r rest' → id r ≠ k) →
  moving k c → moving k (next_entry i d rest c).
Proof.
  intros Hi Hp Hm.
  destruct rest as [|r' rest']; simpl; by apply (moving_insert k c _ i p).
Qed.

Lemma step_both_only stranded ev c :
  consistent c → both_only stranded c → fresh_enqueue ev c →
  both_only stranded (step impl ev c).
Proof.
  intros (Hok & Hsnap & Hcount) Hboth Hfresh k.
  assert (∀ c', in_queue k c → in_failed k c →
                (moving k c → moving k c') → moving k c' ∨ stranded k)
    as Hlift.
  { intros c' Hq Hf Hkeep.
    destruct (Hboth k Hq Hf) as [Hm|Hs]; [left; by apply Hkeep | by right]. }
  unfold in_queue, in_failed in *.
  destruct ev as [|online|e m u dt pr|i o now]; simpl.
  - destruct (syncInProgress (om c) || negb (isOnline (om c)));
      [apply Hboth|].
    simpl. intros Hq Hf. apply Hlift; [done..|]. apply moving_keep.
    intros r rest Hin _. apply elem_of_app. by left.
  - apply Hboth.
  - destruct (queueRequest_cases e m u dt pr (om c)) as [->|[Hnone ->]];
      [apply Hboth|].
    simpl. intros Hq Hf. simpl in Hfresh.
    apply lookup_insert_is_Some in Hq as [<-|[_ Hq]].
    + change (id (make_request e m u dt pr)) with (make_id e) in Hf.
      rewrite Hfresh in Hf. by destruct Hf.
    + apply Hlift; [done..|]. by apply moving_keep.
  - unfold resume. destruct (tasks c !! i) as [p|] eqn:Hi; [|apply Hboth].
    destruct p as [|r rest|r rest|].
    + rewrite db_next_entry. intros Hq Hf. apply Hlift; [done..|].
      by apply (moving_next_entry k c i AwaitSnapshot).
    + pose proof (Forall_lookup_1 _ _ _ _ Hsnap Hi) as [_ Hr].
      apply Forall_cons in Hr as [Hr _].
      destruct (begin_entry_cases impl o now r (db (om c)))
        as [[_ ->]|[(msg & _ & Hge & Hnone & ->)|[(msg & _ & Hlt' & _ & ->)
           |(msg & e & _ & ->)]]].
      * rewrite db_next_entry. simpl. intros Hq Hf.
        apply lookup_delete_is_Some in Hq as [_ Hq].
        apply Hlift; [done..|].
        by apply (moving_next_entry k c i (AwaitRequest r rest)).
      * simpl. intros Hq Hf.
        destruct (decide (id r = k)) as [Heq|Hne].
        -- left. exists (set_retries (retries r + 1) r), rest.
           split; [|exact Heq]. simpl.
           apply list_elem_of_lookup. exists i.
           apply list_lookup_insert_eq. by eapply lookup_lt_Some.
        -- rewrite lookup_insert_ne in Hf by exact Hne.
           apply Hlift; [done..|].
           by apply (moving_insert k c _ i (AwaitRequest r rest)).
      * rewrite db_next_entry. simpl. intros Hq Hf.
        apply Hlift; [|exact Hf|].
        -- apply lookup_insert_is_Some in Hq as [<-|[_ Hq]]; eauto.
        -- by apply (moving_next_entry k c i (AwaitRequest r rest)).
      * simpl. intros Hq Hf. apply Hlift; [done..|].
        by apply (moving_insert k c _ i (AwaitRequest r rest)).
    + rewrite db_next_entry. simpl. intros Hq Hf. unfold IDB.delete in Hq.
      apply lookup_delete_is_Some in Hq as [Hne Hq].
      apply Hlift; [done..|].
      apply (moving_next_entry k c i (AwaitRemove r rest)); [done|].
      by intros r' rest' [= -> ->].
    + simpl. intros Hq Hf. apply Hlift; [done..|]. apply moving_keep.
      intros r rest Hin _. by apply (elem_of_delete_other _ i AwaitCounter).
Qed.

Lemma run_both_only stranded evs c :
  consistent c → both_only stranded c → fresh_along impl evs c →
  both_only stranded (run impl evs c).
Proof.
  revert c. induction evs as [|ev evs IH]; intros c Hc Hboth Hfresh; simpl;
    [exact Hboth|].
  destruct Hfresh as [Hev Hrest].
  apply IH; [by apply consistent_step | by apply step_both_only
            | exact Hrest].
Qed.

(** A page load finds the stores as the page before left them, with no
    call in flight. *)
Lemma consistent_load online d : stores_ok d → consistent (load online d).
Proof. intros Hok. split; [exact Hok|]. split; [constructor | done]. Qed.

Lemma stores_ok_empty : stores_ok emptyDB.
Proof. split; [split|split]; simpl; apply map_Forall_empty. Qed.

Lemma stores_ok_visit online evs d :
  stores_ok d → stores_ok (db (om (run impl evs (load online d)))).
Proof.
  intros Hok.
  by destruct (consistent_run impl evs _ (consistent_load online d Hok)).
Qed.

Lemma stores_ok_after_visits vs d :
  stores_ok d → stores_ok (after_visits impl vs d).
Proof.
  revert d. induction vs as [|[online evs] vs IH]; intros d Hok; [exact Hok|].
  simpl. by apply IH, stores_ok_visit.
Qed.

(** Over a series of page visits, an id is in both stores only when one of
    the visits ended while it was being moved. *)
Lemma after_visits_both (stranded : string → Prop) vs d :
  stores_ok d → fresh_visits impl vs d →
  (∀ k, is_Some (requests d !! k) → is_Some (failed d !! k) → stranded k) →
  ∀ k, is_Some (requests (after_visits impl vs d) !! k) →
       is_Some (failed (after_visits impl vs d) !! k) →
       stranded k ∨ left_moving impl k vs d.
Proof.
  revert d stranded. induction vs as [|[online evs] vs IH];
    intros d stranded Hok Hfresh Hd k Hq Hf; [left; by apply Hd|].
  destruct Hfresh as [Hfresh Hrest]. cbn [after_visits fst snd] in *.
  set (c := run impl evs (load online d)) in *.
  assert (both_only stranded c) as Hboth.
  { apply run_both_only; [by apply consistent_load | | exact Hfresh].
    intros k' Hq' Hf'. right. by apply Hd. }
  destruct (IH (db (om c)) (λ k', moving k' c ∨ stranded k')
              (stores_ok_visit online evs d Hok) Hrest Hboth k Hq Hf)
    as [[Hm|Hs]|Hleft].
  - right. cbn [left_moving fst snd]. fold c. by left.
  - by left.
  - right. cbn [left_moving fst snd]. fold c. by right.
Qed.

(** While no pass is in progress nothing is being moved. *)
Lemma idle_not_moving k c :
  consistent c → syncInProgress (om c) = false → ¬ moving k c.
Proof.
  intros (_ & _ & Hcount) Hflag (r & rest & Hin & _).
  rewrite Hflag in Hcount.
  apply list_elem_of_lookup in Hin as [j Hj].
  by pose proof (draining_count_zero _ _ _ Hcount Hj).
Qed.

(** No step loses an operation: it stays in one of the stores unless the
    step is its confirmed success. *)
Lemma step_kept ev c k :
  consistent c →
  in_queue k c ∨ in_failed k c →
  in_queue k (step impl ev c) ∨ in_failed k (step impl ev c) ∨
  succeeds ev c k.
Proof.
  intros Hc [Hq|Hf].
  - destruct Hc as (Hok & Hsnap & Hcount). unfold in_queue, in_failed in *.
    destruct ev as [|online|e m u dt pr|i o now]; simpl.
    + left. by destruct (syncInProgress (om c) || negb (isOnline (om c))).
    + by left.
    + left.
      destruct (queueRequest_cases e m u dt pr (om c)) as [->|[Hnone ->]];
        [exact Hq|].
      simpl. apply lookup_insert_is_Some'. by right.
    + destruct (tasks c !! i) as [p|] eqn:Hi;
        [|unfold resume; rewrite Hi; by left].
      destruct p as [|r rest|r rest|].
      * left. unfold resume. by rewrite Hi, db_next_entry.
      * rewrite (db_resume_request impl i o now r rest c Hi).
        destruct (begin_entry_cases impl o now r (db (om c)))
          as [[-> ->]|[(msg & _ & Hge & Hnone & ->)|[(msg & _ & Hlt' & _ & ->)
             |(msg & e & _ & ->)]]]; simpl.
        -- destruct (decide (id r = k)) as [Heq|Hne].
           ++ right. right. by exists i, now, r, rest.
           ++ left. by rewrite lookup_delete_ne.
        -- by left.
        -- left. apply lookup_insert_is_Some'. by right.
        -- by left.
      * unfold resume. rewrite Hi, db_next_entry. simpl.
        pose proof (Forall_lookup_1 _ _ _ _ Hsnap Hi) as (_ & _ & Hmoved).
        destruct (decide (id r = k)) as [<-|Hne]; [by right; left|].
        left. unfold IDB.delete. by rewrite lookup_delete_ne.
      * left. unfold resume. by rewrite Hi.
  - right. left. unfold in_failed in *.
    destruct Hf as [f Hf].
    pose proof (step_attempts_grow impl ev c Hc) as (_ & _ & Hkeep).
    rewrite (Hkeep _ _ Hf). eauto.
Qed.

End BothStores.

Section AsWrittenStores.
Import IdbManager.

Lemma untouched_delete k d : untouched d → untouched (removeFromQueue k d).
Proof.
  intros [Hf Hq]. split; [exact Hf|]. simpl. by apply map_Forall_delete.
Qed.

Lemma begin_entry_as_written o now r d :
  retries r + 1 < maxRetries r →
  begin_entry UpdateUndefined o now r d
  = if confirmed o then Settled (removeFromQueue (id r) d) true
    else Thrown d "TypeError".
Proof.
  intros Hlt. destruct o as [|msg]; [done|]. unfold begin_entry. simpl.
  destruct (Z.geb_spec (retries r + 1) (maxRetries r)) as [Hge|_]; [lia|].
  reflexivity.
Qed.

Lemma step_untouched ev c :
  consistent c → untouched (db (om c)) →
  untouched (db (om (step UpdateUndefined ev c))).
Proof.
  intros (Hok & Hsnap & Hcount) Hun.
  destruct ev as [|online|e m u dt pr|i o now]; simpl.
  - by destruct (syncInProgress (om c) || negb (isOnline (om c))).
  - exact Hun.
  - destruct (queueRequest_cases e m u dt pr (om c)) as [->|[Hnone ->]];
      [exact Hun|].
    destruct Hun as [Hf Hq]. split; [exact Hf|]. simpl.
    by apply map_Forall_insert_2.
  - unfold resume. destruct (tasks c !! i) as [p|] eqn:Hi; [|exact Hun].
    destruct p as [|r rest|r rest|].
    + by rewrite db_next_entry.
    + pose proof (Forall_lookup_1 _ _ _ _ Hsnap Hi) as [_ Hr].
      apply Forall_cons in Hr as [Hr _].
      destruct Hun as [Hf Hq]. pose proof (Hq _ _ Hr) as [Hr0 Hr3].
      simpl in Hr0, Hr3.
      rewrite begin_entry_as_written by lia.
      destruct (confirmed o).
      * rewrite db_next_entry. by apply untouched_delete.
      * by split.
    + rewrite db_next_entry. by apply untouched_delete.
    + exact Hun.
Qed.

Lemma run_untouched evs c :
  consistent c → untouched (db (om c)) →
  untouched (db (om (run UpdateUndefined evs c))).
Proof.
  revert c. induction evs as [|ev evs IH]; intros c Hc Hun; [exact Hun|].
  simpl. apply IH; [by apply consistent_step | by apply step_untouched].
Qed.

Lemma untouched_after_visits vs d :
  stores_ok d → untouched d →
  untouched (after_visits UpdateUndefined vs d).
Proof.
  revert d. induction vs as [|[online evs] vs IH]; intros d Hok Hun;
    [exact Hun|].
  cbn [after_visits fst snd]. apply IH.
  - by apply stores_ok_visit.
  - apply run_untouched; [by apply consistent_load | exact Hun].
Qed.

End AsWrittenStores.

Lemma local_process_queue_spec net queueCopy q res calls :
  (LocalManager.process_queue net queueCopy q res calls).1.1
  = q ++ omap (local_requeue net) queueCopy.
Proof.
  revert q res calls. induction queueCopy as [|request rest IH];
    intros q res calls.
  - simpl. by rewrite app_nil_r.
  - cbn [LocalManager.process_queue].
    assert (omap (local_requeue net) (request :: rest)
            = match local_requeue net request with
              | Some y => y :: omap (local_requeue net) rest
              | None => omap (local_requeue net) rest
              end) as -> by reflexivity.
    unfold local_requeue at 1. destruct (net request) as [|msg].
    + apply IH.
    + cbn zeta. rewrite IH.
      destruct (LocalManager.retries
                  (LocalManager.set_retries (LocalManager.retries request + 1)
                     request) <? 3);
        [by rewrite <- app_assoc | done].
Qed.

Lemma local_sync_spec net q stored :
  q ≠ [] →
  let om' :=
    (LocalManager.syncOfflineData net
       (LocalManager.mkManager true q false stored)).1 in
  LocalManager.offlineQueue om' = omap (local_requeue net) q ∧
  LocalManager.stored om' = Some (omap (local_requeue net) q).
Proof.
  intros Hq. destruct q as [|r q]; [done|].
  unfold LocalManager.syncOfflineData.
  cbn [LocalManager.offlineQueue LocalManager.set_syncInProgress
       LocalManager.set_offlineQueue LocalManager.isOnline
       LocalManager.syncInProgress LocalManager.stored orb negb length
       Nat.eqb].
  destruct (LocalManager.process_queue net (r :: q) [] _ [])
    as [[q' res] calls] eqn:Hrun.
  apply (f_equal (λ x, x.1.1)) in Hrun.
  rewrite local_process_queue_spec in Hrun.
  cbn [fst snd app] in Hrun. subst q'. by split.
Qed.

(** C4, the claim refuted: in the localStorage controller an operation whose
    network call fails in three passes is in the queue after the first and
    the second pass and in no store after the third; the controller has no
    other store than its queue and the copy of it in localStorage. *)
Lemma local_operation_dropped_after_third_failure :
  let net := λ _ : LocalManager.QueuedRequest, Rejected "HTTP 500" in
  let om0 := LocalManager.construct true None in
  let om1 :=
    (LocalManager.queueRequest "1700000000000-a7c1m4p8w" 1700000000000
       "POST" "/api/orders/" None om0).2 in
  let om2 := (LocalManager.syncOfflineData net om1).1 in
  let om3 := (LocalManager.syncOfflineData net om2).1 in
  let om4 := (LocalManager.syncOfflineData net om3).1 in
  LocalManager.id <$> LocalManager.offlineQueue om2
  = ["1700000000000-a7c1m4p8w"] ∧
  LocalManager.id <$> LocalManager.offlineQueue om3
  = ["1700000000000-a7c1m4p8w"] ∧
  LocalManager.offlineQueue om4 = [] ∧
  LocalManager.stored om4 = Some [].
Proof. repeat split. Qed.

(** Under the store update of the spec, the third failure of an operation
    puts it in the failed store while it is still in the queue: until
    [removeFromQueue] returns it is in both. *)
Lemma both_stores_while_moving :
  let e := IdbManager.mkEntropy 1700000000000 "a7c1m4p8w" 1700000000000 in
  let pass :=
    [IdbManager.Trigger;
     IdbManager.Resume 0 Fulfilled 0;
     IdbManager.Resume 0 (Rejected "HTTP 500") 1700000000500;
     IdbManager.Resume 0 Fulfilled 0] in
  let evs :=
    IdbManager.Enqueue e "POST" "/api/orders/" None (Some "high")
    :: pass ++ pass
    ++ [IdbManager.Trigger;
        IdbManager.Resume 0 Fulfilled 0;
        IdbManager.Resume 0 (Rejected "HTTP 500") 1700000000500] in
  let c := IdbManager.run IdbManager.UpdatePut evs (IdbManager.init true) in
  in_queue (IdbManager.make_id e) c ∧ in_failed (IdbManager.make_id e) c ∧
  ¬ in_queue (IdbManager.make_id e)
      (IdbManager.step IdbManager.UpdatePut (IdbManager.Resume 0 Fulfilled 0) c).
Proof.
  intros e pass evs c. unfold in_queue, in_failed. split; [|split].
  - destruct (requests (IdbManager.db (IdbManager.om c))
              !! IdbManager.make_id e) eqn:E; [eauto|by vm_compute in E].
  - destruct (failed (IdbManager.db (IdbManager.om c))
              !! IdbManager.make_id e) eqn:E; [eauto|by vm_compute in E].
  - intros [x Hx]. by vm_compute in Hx.
Qed.

(** When the page is left at that point, the next page load finds the
    operation in both stores with no pass in progress, and a pass in which
    its call fails again ends on the ConstraintError of [moveToFailed] and
    leaves it there. *)
Lemma both_stores_after_unload :
  let e := IdbManager.mkEntropy 1700000000000 "a7c1m4p8w" 1700000000000 in
  let pass :=
    [IdbManager.Trigger;
     IdbManager.Resume 0 Fulfilled 0;
     IdbManager.Resume 0 (Rejected "HTTP 500") 1700000000500;
     IdbManager.Resume 0 Fulfilled 0] in
  let first : IdbManager.visit :=
    (true,
     IdbManager.Enqueue e "POST" "/api/orders/" None (Some "high")
     :: pass ++ pass
     ++ [IdbManager.Trigger;
         IdbManager.Resume 0 Fulfilled 0;
         IdbManager.Resume 0 (Rejected "HTTP 500") 1700000000500]) in
  let d := IdbManager.after_visits IdbManager.UpdatePut [first] emptyDB in
  let c := IdbManager.load true d in
  let after :=
    IdbManager.syncOfflineData IdbManager.UpdatePut
      (λ _, Rejected "HTTP 500") (λ _, 1700000001000) (IdbManager.om c) in
  (in_queue (IdbManager.make_id e) c ∧ in_failed (IdbManager.make_id e) c) ∧
  IdbManager.syncInProgress (IdbManager.om c) = false ∧
  IdbManager.sync_error <$> after.2 = Some (Some "ConstraintError") ∧
  IdbManager.db after.1 = d.
Proof.
  intros e pass first d c after. unfold in_queue, in_failed.
  split; [split|split; [reflexivity|split]].
  - destruct (requests (IdbManager.db (IdbManager.om c))
              !! IdbManager.make_id e) eqn:E; [eauto|by vm_compute in E].
  - destruct (failed (IdbManager.db (IdbManager.om c))
              !! IdbManager.make_id e) eqn:E; [eauto|by vm_compute in E].
  - vm_compute. reflexivity.
  - vm_compute. reflexivity.
Qed.

(** C4, amended: in the IndexedDB controller, over every series of page
    visits, the first on a new database, every step leaves an operation
    that is in one of the two stores in one of them, unless the step is the
    confirmed success of that operation, and leaving the page changes
    neither store.  As the class is written, with no [updateRequest], the
    failed store is empty at every point, so that no id is in both stores.
    With the store update that the spec names, and as long as no enqueue
    reuses an id that the failed store holds, an id is in the queue and in
    the failed store at once only while a pass is suspended between
    [moveToFailed] and [removeFromQueue] for that operation, or when an
    earlier visit ended at such a point; while no pass is in progress it
    is only the latter.  The localStorage controller has no failed store:
    a pass that runs leaves in the queue exactly the requests whose call
    failed and that have made fewer than three attempts, in order, and
    writes that queue to localStorage. *)
Theorem operation_in_one_store :
  ∀ (impl : IdbManager.update_impl) (vs : list IdbManager.visit)
    (online : bool) (evs : list IdbManager.event),
    let d := IdbManager.after_visits impl vs emptyDB in
    let c := IdbManager.run impl evs (IdbManager.load online d) in
    (∀ ev k, in_queue k c ∨ in_failed k c →
             in_queue k (IdbManager.step impl ev c) ∨
             in_failed k (IdbManager.step impl ev c) ∨
             succeeds ev c k) ∧
    (∀ online' k,
       let c' := IdbManager.load online' (IdbManager.db (IdbManager.om c)) in
       (in_queue k c' ↔ in_queue k c) ∧ (in_failed k c' ↔ in_failed k c)) ∧
    (impl = IdbManager.UpdateUndefined →
     failed (IdbManager.db (IdbManager.om c)) = ∅ ∧
     ∀ k, ¬ (in_queue k c ∧ in_failed k c)) ∧
    (fresh_visits impl vs emptyDB →
     fresh_along impl evs (IdbManager.load online d) →
     (∀ k, in_queue k c → in_failed k c →
           moving k c ∨ left_moving impl k vs emptyDB) ∧
     (IdbManager.syncInProgress (IdbManager.om c) = false →
      ∀ k, in_queue k c → in_failed k c →
           left_moving impl k vs emptyDB)) ∧
    (∀ (net : LocalManager.QueuedRequest → outcome)
       (q : list LocalManager.QueuedRequest)
       (stored : option (list LocalManager.QueuedRequest)),
       q ≠ [] →
       let om' :=
         (LocalManager.syncOfflineData net
            (LocalManager.mkManager true q false stored)).1 in
       LocalManager.offlineQueue om' = omap (local_requeue net) q ∧
       LocalManager.stored om' = Some (omap (local_requeue net) q)).
Proof.
  intros impl vs online evs d c.
  assert (stores_ok d) as Hd
    by apply stores_ok_after_visits, stores_ok_empty.
  pose proof (consistent_run impl evs _ (consistent_load online d Hd)) as Hc.
  fold c in Hc.
  split; [|split; [|split; [|split]]].
  - intros ev k. by apply step_kept.
  - intros online' k c'. by split.
  - intros ->.
    assert (untouched (IdbManager.db (IdbManager.om c))) as [Hempty _].
    { apply run_untouched; [by apply consistent_load|].
      apply untouched_after_visits; [apply stores_ok_empty|].
      split; [done | apply map_Forall_empty]. }
    split; [exact Hempty|].
    intros k [_ [x Hx]]. rewrite Hempty, lookup_empty in Hx. discriminate.
  - intros Hvisits Hfresh.
    assert (both_only (λ k, left_moving impl k vs emptyDB) c) as Hboth.
    { apply run_both_only; [by apply consistent_load | | exact Hfresh].
      intros k Hq Hf. right.
      destruct (after_visits_both impl (λ _, False) vs emptyDB
                  stores_ok_empty Hvisits) with (k := k) as [[]|Hleft];
        [|exact Hq | exact Hf | exact Hleft].
      intros k' [x Hx]. simpl in Hx. by rewrite lookup_empty in Hx. }
    split; [exact Hboth|].
    intros Hflag k Hq Hf. destruct (Hboth k Hq Hf) as [Hm|Hleft]; [|done].
    exfalso. by apply (idle_not_moving k c Hc Hflag).
  - intros net q stored Hq om'. subst om'. by apply local_sync_spec.
Qed.

(** A first visit ends while the operation is being moved to the failed
    store; on the next page load it is in both stores with no pass in
    progress, and the theorem traces that to the visit that was cut
    short. *)
Lemma operation_in_one_store_witness :
  let e := IdbManager.mkEntropy 1700000000000 "a7c1m4p8w" 1700000000000 in
  let pass :=
    [IdbManager.Trigger;
     IdbManager.Resume 0 Fulfilled 0;
     IdbManager.Resume 0 (Rejected "HTTP 500") 1700000000500;
     IdbManager.Resume 0 Fulfilled 0] in
  let first : IdbManager.visit :=
    (true,
     IdbManager.Enqueue e "POST" "/api/orders/" None (Some "high")
     :: pass ++ pass
     ++ [IdbManager.Trigger;
         IdbManager.Resume 0 Fulfilled 0;
         IdbManager.Resume 0 (Rejected "HTTP 500") 1700000000500]) in
  let d := IdbManager.after_visits IdbManager.UpdatePut [first] emptyDB in
  let evs := [IdbManager.Connectivity false; IdbManager.Trigger] in
  let c := IdbManager.run IdbManager.UpdatePut evs (IdbManager.load false d) in
  (fresh_visits IdbManager.UpdatePut [first] emptyDB ∧
   fresh_along IdbManager.UpdatePut evs (IdbManager.load false d)) ∧
  (in_queue (IdbManager.make_id e) c ∧ in_failed (IdbManager.make_id e) c) ∧
  IdbManager.syncInProgress (IdbManager.om c) = false ∧
  left_moving IdbManager.UpdatePut (IdbManager.make_id e) [first] emptyDB.
Proof.
  intros e pass first d evs c.
  assert (fresh_visits IdbManager.UpdatePut [first] emptyDB) as Hvisits
    by (vm_compute; repeat split).
  assert (fresh_along IdbManager.UpdatePut evs (IdbManager.load false d))
    as Hfresh by (vm_compute; repeat split).
  split; [by split|].
  destruct (operation_in_one_store IdbManager.UpdatePut [first] false evs)
    as (_ & _ & _ & Hboth & _).
  destruct (Hboth Hvisits Hfresh) as [_ Hidle].
  fold d c in Hidle.
  assert (IdbManager.syncInProgress (IdbManager.om c) = false) as Hflag
    by (vm_compute; reflexivity).
  assert (in_queue (IdbManager.make_id e) c) as Hq.
  { unfold in_queue.
    destruct (requests (IdbManager.db (IdbManager.om c))
              !! IdbManager.make_id e) eqn:E; [eauto|by vm_compute in E]. }
  assert (in_failed (IdbManager.make_id e) c) as Hf.
  { unfold in_failed.
    destruct (failed (IdbManager.db (IdbManager.om c))
              !! IdbManager.make_id e) eqn:E; [eauto|by vm_compute in E]. }
  split; [by split|]. split; [exact Hflag|].
  exact (Hidle Hflag (IdbManager.make_id e) Hq Hf).
Defined.

(** * Further properties *)

(** ** Reads and writes of the Cache API *)

Section CacheLookups.
Import Cache.

Lemma match_in_app_absent name key cs c :
  has name cs = false →
  match_in name key (cs ++ [(name, c)]) = c !! key.
Proof.
  unfold has, keys. rewrite bool_decide_eq_false.
  induction cs as [|[n c0] cs IH]; intros Hnot.
  - simpl. rewrite match_in_cons. by rewrite decide_True.
  - rewrite fmap_cons, not_elem_of_cons in Hnot. destruct Hnot as [Hne Hnot].
    simpl in Hne. cbn [app]. rewrite match_in_cons.
    rewrite decide_False by congruence. by apply IH.
Qed.

Lemma match_in_app_other name n key cs c :
  n ≠ name →
  match_in name key (cs ++ [(n, c)]) = match_in name key cs.
Proof.
  intros Hne. induction cs as [|[n0 c0] cs IH].
  - simpl. rewrite match_in_cons. by rewrite decide_False.
  - cbn [app]. rewrite !match_in_cons. by destruct (decide (n0 = name)).
Qed.

(** Opening a cache changes no lookup. *)
Lemma match_in_open name n key cs :
  match_in name key (open n cs) = match_in name key cs.
Proof.
  unfold open. destruct (has n cs) eqn:Hhas; [done|].
  destruct (decide (n = name)) as [->|Hne].
  - rewrite match_in_app_absent by exact Hhas. rewrite lookup_empty.
    symmetry. apply match_in_absent. unfold has in Hhas.
    by apply bool_decide_eq_false in Hhas.
  - by apply match_in_app_other.
Qed.

(** A [put] into one cache under one URL changes no other lookup. *)
Lemma match_in_put_in_ne name n key k r cs :
  n ≠ name ∨ k ≠ key →
  match_in name key (put_in n k r cs) = match_in name key cs.
Proof.
  intros Hne. induction cs as [|[n0 c0] cs IH]; [done|].
  cbn [put_in]. destruct (String.eqb n0 n) eqn:E.
  - apply String.eqb_eq in E. subst n0. rewrite !match_in_cons.
    destruct (decide (n = name)) as [->|Hn]; [|done].
    destruct Hne as [Hne|Hne]; [done|]. by rewrite lookup_insert_ne.
  - rewrite !match_in_cons. by destruct (decide (n0 = name)).
Qed.

Lemma match_in_put_url_ne name n key k r cs :
  n ≠ name ∨ k ≠ key →
  match_in name key (put_url n k r cs) = match_in name key cs.
Proof.
  intros Hne. unfold put_url. destruct (storable r); [|done].
  by apply match_in_put_in_ne.
Qed.

Lemma match_in_put_ne name n key req r cs :
  n ≠ name ∨ url req ≠ key →
  match_in name key (put n req r cs) = match_in name key cs.
Proof.
  intros Hne. unfold put. destruct (String.eqb (method req) "GET").
  - rewrite match_in_put_url_ne by exact Hne. apply match_in_open.
  - apply match_in_open.
Qed.

Lemma match_in_put_eq name req r cs :
  method req = "GET" → storable r = true →
  match_in name (url req) (put name req r cs) = Some r.
Proof.
  intros Hget Hst. unfold put, put_url. rewrite Hget, Hst. simpl.
  apply match_in_put_in, has_open.
Qed.

(** A [put] that the cache refuses changes no lookup. *)
Lemma match_in_put_refused name key n req r cs :
  method req ≠ "GET" ∨ storable r = false →
  match_in name key (put n req r cs) = match_in name key cs.
Proof.
  intros Hrefused. unfold put, put_url.
  destruct (String.eqb (method req) "GET") eqn:Hget;
    [|apply match_in_open].
  apply String.eqb_eq in Hget.
  destruct Hrefused as [Hne|Hst]; [done|].
  rewrite Hst. apply match_in_open.
Qed.

(** What [caches.match] finds after a [put]: the URLs that could be found
    before, and the one that was put. *)
Lemma match_url_app key cs1 cs2 :
  match_url key (cs1 ++ cs2)
  = match match_url key cs1 with
    | Some r => Some r
    | None => match_url key cs2
    end.
Proof.
  induction cs1 as [|[n c] cs1 IH]; [done|].
  cbn [app match_url]. by destruct (c !! key).
Qed.

Lemma match_url_open key n cs :
  match_url key (open n cs) = match_url key cs.
Proof.
  unfold open. destruct (has n cs); [done|].
  rewrite match_url_app. simpl. rewrite lookup_empty.
  by destruct (match_url key cs).
Qed.

Lemma match_url_put_in_ne key n k r cs :
  k ≠ key → match_url key (put_in n k r cs) = match_url key cs.
Proof.
  intros Hne. induction cs as [|[n0 c0] cs IH]; [done|].
  cbn [put_in]. destruct (String.eqb n0 n).
  - cbn [match_url]. by rewrite lookup_insert_ne.
  - cbn [match_url]. by rewrite IH.
Qed.

Lemma match_url_put_in_is_Some key n k r cs :
  is_Some (match_url key cs) → is_Some (match_url key (put_in n k r cs)).
Proof.
  induction cs as [|[n0 c0] cs IH]; [done|].
  cbn [put_in]. destruct (String.eqb n0 n); cbn [match_url].
  - destruct (decide (k = key)) as [->|Hne].
    + rewrite lookup_insert_eq. eauto.
    + by rewrite lookup_insert_ne.
  - destruct (c0 !! key); [eauto|exact IH].
Qed.

(** A [put] into the cache [n] is what [caches.match] finds afterwards,
    when no cache of another name holds the URL. *)
Lemma match_url_put_in_eq key n r cs :
  has n cs = true →
  (∀ n' c, (n', c) ∈ cs → n' ≠ n → c !! key = None) →
  match_url key (put_in n key r cs) = Some r.
Proof.
  unfold has, keys. rewrite bool_decide_eq_true.
  induction cs as [|[n0 c0] cs IH]; intros Hhas Hothers.
  - by apply elem_of_nil in Hhas.
  - cbn [put_in]. destruct (String.eqb n0 n) eqn:E; cbn [match_url].
    + by rewrite lookup_insert_eq.
    + apply String.eqb_neq in E.
      rewrite (Hothers n0 c0) by (by left || done).
      apply IH.
      * rewrite fmap_cons in Hhas. apply elem_of_cons in Hhas as [Hhas|Hhas];
          [simpl in Hhas; congruence | exact Hhas].
      * intros n' c Hin. apply Hothers. by right.
Qed.

Lemma match_url_put_eq n req r cs :
  method req = "GET" → storable r = true →
  (∀ n' c, (n', c) ∈ cs → n' ≠ n → c !! url req = None) →
  match_url (url req) (put n req r cs) = Some r.
Proof.
  intros Hget Hst Hothers. unfold put, put_url. rewrite Hget, Hst. simpl.
  apply match_url_put_in_eq; [apply has_open|].
  intros n' c Hin Hne. unfold open in Hin.
  destruct (has n cs); [by apply (Hothers n')|].
  apply elem_of_app in Hin as [Hin|Hin]; [by apply (Hothers n')|].
  apply list_elem_of_singleton in Hin. congruence.
Qed.

(** A [put] that the cache refuses changes nothing that [caches.match]
    finds. *)
Lemma match_url_put_refused key n req r cs :
  method req ≠ "GET" ∨ storable r = false →
  match_url key (put n req r cs) = match_url key cs.
Proof.
  intros Hrefused. unfold put, put_url.
  destruct (String.eqb (method req) "GET") eqn:Hget;
    [|apply match_url_open].
  apply String.eqb_eq in Hget.
  destruct Hrefused as [Hne|Hst]; [done|].
  rewrite Hst. apply match_url_open.
Qed.

Lemma match_url_None key cs n c :
  match_url key cs = None → (n, c) ∈ cs → c !! key = None.
Proof.
  induction cs as [|[n0 c0] cs IH]; intros Hnone Hin.
  - by apply elem_of_nil in Hin.
  - cbn [match_url] in Hnone. destruct (c0 !! key) eqn:E; [done|].
    apply elem_of_cons in Hin as [Hin|Hin]; [congruence|by apply IH].
Qed.

End CacheLookups.

(** ** The fetch listener of the worker *)

Section FetchListener.
Import Cache.

Lemma match_url_put_in_inv key n k r cs :
  is_Some (match_url key (put_in n k r cs)) →
  key = k ∨ is_Some (match_url key cs).
Proof.
  destruct (decide (k = key)) as [->|Hne]; [by left|].
  rewrite match_url_put_in_ne by exact Hne. by right.
Qed.

Lemma match_url_put_inv key n req r cs :
  is_Some (match_url key (put n req r cs)) →
  (key = url req ∧ method req = "GET") ∨ is_Some (match_url key cs).
Proof.
  unfold put, put_url. destruct (String.eqb (method req) "GET") eqn:E.
  - apply String.eqb_eq in E. destruct (storable r).
    + intros H. apply match_url_put_in_inv in H as [->|H]; [by left|].
      right. by rewrite match_url_open in H.
    + rewrite match_url_open. by right.
  - rewrite match_url_open. by right.
Qed.

Lemma match_url_put_is_Some key n req r cs :
  is_Some (match_url key cs) → is_Some (match_url key (put n req r cs)).
Proof.
  intros H. unfold put, put_url. destruct (String.eqb (method req) "GET").
  - destruct (storable r); [|by rewrite match_url_open].
    apply match_url_put_in_is_Some. by rewrite match_url_open.
  - by rewrite match_url_open.
Qed.

Lemma match_GET req cs r :
  match_ req cs = Some r →
  method req = "GET" ∧ match_url (url req) cs = Some r.
Proof.
  unfold match_. destruct (String.eqb (method req) "GET") eqn:E;
    [|discriminate].
  apply String.eqb_eq in E. by split.
Qed.

(** One fetch event: what can be found afterwards is what could be found
    before, and the URL of an API request that was answered ok. *)
Lemma on_fetch_retrievable net req cs key :
  (retrievable key cs →
   retrievable key (ServiceWorker.on_fetch net req cs).2) ∧
  (retrievable key (ServiceWorker.on_fetch net req cs).2 →
   retrievable key cs ∨
   ∃ r, net = Fetched r ∧ ok r = true ∧ ServiceWorker.is_api req = true ∧
        method req = "GET" ∧ url req = key).
Proof.
  unfold retrievable, ServiceWorker.on_fetch.
  destruct (ServiceWorker.is_api req) eqn:Hapi.
  - unfold ServiceWorker.respond_api. destruct net as [r|]; simpl;
      [|by split; [|left]].
    destruct (ok r) eqn:Hok; [|by split; [|left]].
    split; [apply match_url_put_is_Some|].
    intros H. apply match_url_put_inv in H as [[-> Hget]|H]; [|by left].
    right. by exists r.
  - destruct (String.eqb (mode req) "navigate").
    + unfold ServiceWorker.respond_navigate.
      destruct net; simpl; by split; [|left].
    + unfold ServiceWorker.respond_static.
      destruct (match_ req cs) as [cached|] eqn:Hm; simpl.
      * apply match_GET in Hm as [Hget Hm].
        destruct net as [r|]; [|by split; [|left]].
        destruct (ok r); [|by split; [|left]].
        split; [apply match_url_put_is_Some|].
        intros H. apply match_url_put_inv in H as [[-> _]|H]; left;
          [by rewrite Hm | exact H].
      * destruct net; simpl; by split; [|left].
Qed.

End FetchListener.

(** X1: the fetch listener of [static/js/service-worker.js] writes to the
    cache [CACHE_NAME] only, and there only under the URL of the request:
    every other entry of every cache reads as before.  The entry of the
    request itself changes only to a response that the network has just
    given with an ok status to a GET request. *)
Theorem fetch_listener_footprint :
  ∀ (net : Cache.fetch_result) (req : Cache.FetchRequest)
    (cs : Cache.Storage),
    let cs' := (ServiceWorker.on_fetch net req cs).2 in
    (∀ name key,
       name ≠ ServiceWorker.CACHE_NAME ∨ key ≠ Cache.url req →
       Cache.match_in name key cs' = Cache.match_in name key cs) ∧
    (Cache.match_in ServiceWorker.CACHE_NAME (Cache.url req) cs'
     = Cache.match_in ServiceWorker.CACHE_NAME (Cache.url req) cs ∨
     ∃ r, net = Cache.Fetched r ∧ Cache.ok r = true ∧
          Cache.method req = "GET" ∧
          Cache.match_in ServiceWorker.CACHE_NAME (Cache.url req) cs'
          = Some r).
Proof.
  intros net req cs cs'. subst cs'.
  assert (∀ r,
    (∀ name key,
       name ≠ ServiceWorker.CACHE_NAME ∨ key ≠ Cache.url req →
       Cache.match_in name key (Cache.put ServiceWorker.CACHE_NAME req r cs)
       = Cache.match_in name key cs)) as Hframe.
  { intros r name key Hne. apply match_in_put_ne.
    destruct Hne as [Hne|Hne]; [left|right]; congruence. }
  assert (∀ r, Cache.ok r = true →
    Cache.match_in ServiceWorker.CACHE_NAME (Cache.url req)
      (Cache.put ServiceWorker.CACHE_NAME req r cs)
    = Cache.match_in ServiceWorker.CACHE_NAME (Cache.url req) cs ∨
    ∃ r', Cache.Fetched r = Cache.Fetched r' ∧ Cache.ok r' = true ∧
          Cache.method req = "GET" ∧
          Cache.match_in ServiceWorker.CACHE_NAME (Cache.url req)
            (Cache.put ServiceWorker.CACHE_NAME req r cs) = Some r') as Hown.
  { intros r Hok. destruct (decide (Cache.method req = "GET")) as [Hget|Hget].
    - destruct (Cache.storable r) eqn:Hst.
      + right. exists r. by rewrite match_in_put_eq.
      + left. apply match_in_put_refused. by right.
    - left. apply match_in_put_refused. by left. }
  unfold ServiceWorker.on_fetch.
  destruct (ServiceWorker.is_api req).
  - unfold ServiceWorker.respond_api. destruct net as [r|]; simpl;
      [|by split; [|left]].
    destruct (Cache.ok r) eqn:Hok; [|by split; [|left]].
    split; [apply Hframe | by apply Hown].
  - destruct (String.eqb (Cache.mode req) "navigate").
    + unfold ServiceWorker.respond_navigate.
      destruct net; simpl; by split; [|left].
    + unfold ServiceWorker.respond_static.
      destruct (Cache.match_ req cs) as [cached|]; simpl.
      * destruct net as [r|]; [|by split; [|left]].
        destruct (Cache.ok r) eqn:Hok; [|by split; [|left]].
        split; [apply Hframe | by apply Hown].
      * destruct net; simpl; by split; [|left].
Qed.

(** X2: whatever fetch events the worker answers, a URL that
    [caches.match] could find before can be found afterwards, and a URL
    that can be found afterwards could be found before or is the URL of an
    API request with method GET that the network answered with an ok
    status.  Static assets and pages that are requested are never added to
    what the caches hold. *)
Theorem fetch_traffic_adds_api_responses_only :
  ∀ (evs : list (Cache.fetch_result * Cache.FetchRequest))
    (cs : Cache.Storage) (key : string),
    (retrievable key cs → retrievable key (serve evs cs)) ∧
    (retrievable key (serve evs cs) →
     retrievable key cs ∨
     ∃ r req, (Cache.Fetched r, req) ∈ evs ∧ Cache.ok r = true ∧
              ServiceWorker.is_api req = true ∧
              Cache.method req = "GET" ∧ Cache.url req = key).
Proof.
  intros evs. induction evs as [|[net req] evs IH]; intros cs key.
  - split; [done | by left].
  - unfold serve. cbn [foldl fst snd].
    destruct (IH (ServiceWorker.on_fetch net req cs).2 key) as [IH1 IH2].
    destruct (on_fetch_retrievable net req cs key) as [H1 H2].
    split.
    + intros H. by apply IH1, H1.
    + intros H. apply IH2 in H as [H|(r & req' & Hin & Hrest)].
      * apply H2 in H as [H|(r & -> & Hrest)]; [by left|].
        right. exists r, req. split; [by left | exact Hrest].
      * right. exists r, req'. split; [by right | exact Hrest].
Qed.

Lemma keys_activate_all cs n c :
  (n, c) ∈ ServiceWorker.activate cs → n = ServiceWorker.CACHE_NAME.
Proof.
  intros Hin. apply (keys_activate n cs). unfold Cache.keys.
  apply list_elem_of_fmap. by exists (n, c).
Qed.

(** X3: once the worker is active, an API response that the network gives
    with an ok status to a GET request is the answer to the same request
    when the network fails afterwards, if the cache takes the response.  A
    response that [cache.put] refuses, of status 206 or with a Vary header
    that has the member [*], is not stored: the answer to the failing
    request is then what it was before the response came. *)
Theorem api_response_kept_for_offline :
  ∀ (cs0 : Cache.Storage) (req : Cache.FetchRequest) (r : Cache.Response),
    ServiceWorker.is_api req = true →
    Cache.method req = "GET" →
    Cache.ok r = true →
    let cs := ServiceWorker.activate cs0 in
    let cs1 := (ServiceWorker.on_fetch (Cache.Fetched r) req cs).2 in
    (ServiceWorker.on_fetch (Cache.Fetched r) req cs).1
    = ServiceWorker.Respond r ∧
    (ServiceWorker.on_fetch Cache.NetworkError req cs1).2 = cs1 ∧
    (ServiceWorker.on_fetch Cache.NetworkError req cs1).1
    = if Cache.storable r then ServiceWorker.Respond r
      else (ServiceWorker.on_fetch Cache.NetworkError req cs).1.
Proof.
  intros cs0 req r Hapi Hget Hok cs cs1. subst cs1.
  unfold ServiceWorker.on_fetch. rewrite Hapi.
  unfold ServiceWorker.respond_api. rewrite Hok. cbn [fst snd].
  split; [reflexivity|]. split; [reflexivity|].
  unfold Cache.match_. rewrite Hget. cbn [String.eqb Ascii.eqb Bool.eqb].
  destruct (Cache.storable r) eqn:Hst.
  - rewrite match_url_put_eq; [reflexivity | exact Hget | exact Hst |].
    intros n' c Hin Hne. exfalso. apply Hne.
    by apply (keys_activate_all cs0 n' c).
  - rewrite match_url_put_refused by (by right). reflexivity.
Qed.

Lemma api_response_kept_for_offline_witness :
  let page := Cache.mkResponse 200 [] (Cache.Text "[]") in
  let part := Cache.mkResponse 206 [("Content-Range", "bytes 0-1/2")]
                               (Cache.Text "[]") in
  let varied := Cache.mkResponse 200 [("vary", "Accept-Encoding, *")]
                                 (Cache.Text "[]") in
  let old := Cache.mkResponse 200 [] (Cache.Text "old") in
  let req := Cache.mkFetch "/api/products/" "GET" "cors" in
  let cs0 : Cache.Storage :=
    [("fieldmax-shop-v3", {["/api/products/" := old]})] in
  let later := λ r,
    (ServiceWorker.on_fetch Cache.NetworkError req
       (ServiceWorker.on_fetch (Cache.Fetched r) req
          (ServiceWorker.activate cs0)).2).1 in
  later page = ServiceWorker.Respond page ∧
  later part = ServiceWorker.RespondUndefined ∧
  later varied = ServiceWorker.RespondUndefined.
Proof.
  intros page part varied old req cs0 later. subst later. cbn beta.
  split; [|split].
  - destruct (api_response_kept_for_offline cs0 req page eq_refl eq_refl
                eq_refl) as (_ & _ & H).
    exact H.
  - destruct (api_response_kept_for_offline cs0 req part eq_refl eq_refl
                eq_refl) as (_ & _ & H).
    exact H.
  - destruct (api_response_kept_for_offline cs0 req varied eq_refl eq_refl
                eq_refl) as (_ & _ & H).
    exact H.
Defined.

(** X4: after the worker has installed and activated, whatever was written
    to the caches in between, a navigation request outside [/api/] is
    answered with the network response when there is one, and else with a
    cached response, the offline page; the caches are left as they are. *)
Theorem navigation_falls_back_to_offline_page :
  ∀ (net : string → Cache.fetch_result) (ws : list write)
    (cs cs1 : Cache.Storage) (req : Cache.FetchRequest),
    ServiceWorker.install net cs = Ok cs1 →
    ServiceWorker.is_api req = false →
    Cache.mode req = "navigate" →
    let cs2 := ServiceWorker.activate (apply_writes ws cs1) in
    (∀ r, ServiceWorker.on_fetch (Cache.Fetched r) req cs2
          = (ServiceWorker.Respond r, cs2)) ∧
    (∃ page, Cache.match_url ServiceWorker.OFFLINE_URL cs2 = Some page ∧
             ServiceWorker.on_fetch Cache.NetworkError req cs2
             = (ServiceWorker.Respond page, cs2)).
Proof.
  intros net ws cs cs1 req Hinstall Hapi Hmode cs2.
  unfold ServiceWorker.on_fetch. rewrite Hapi, Hmode.
  cbn [String.eqb Ascii.eqb Bool.eqb]. split; [done|].
  assert (holds ServiceWorker.CACHE_NAME ServiceWorker.OFFLINE_URL cs2)
    as Hholds.
  { unfold holds, cs2. rewrite activate_filter, match_in_filter_name.
    apply holds_apply_writes.
    eapply install_holds_manifest; [exact Hinstall|].
    unfold ServiceWorker.STATIC_ASSETS.
    repeat (first [apply list_elem_of_here | apply list_elem_of_further]). }
  apply match_url_of_holds in Hholds as [page Hpage].
  exists page. split; [exact Hpage|].
  unfold ServiceWorker.respond_navigate. by rewrite Hpage.
Qed.

Lemma navigation_falls_back_to_offline_page_witness :
  let page := Cache.mkResponse 200 [] (Cache.Text "page") in
  let net := λ _ : string, Cache.Fetched page in
  let req := Cache.mkFetch "/shop/" "GET" "navigate" in
  (ServiceWorker.on_fetch Cache.NetworkError req []).1
  = ServiceWorker.RespondUndefined ∧
  ∃ cs1, ServiceWorker.install net [] = Ok cs1 ∧
         ∃ r, (ServiceWorker.on_fetch Cache.NetworkError req
                 (ServiceWorker.activate cs1)).1 = ServiceWorker.Respond r.
Proof.
  intros page net req. split; [reflexivity|].
  assert (is_ok (ServiceWorker.install net []) = true) as Hok
    by (vm_compute; reflexivity).
  destruct (ServiceWorker.install net []) as [cs1|e] eqn:Hinstall;
    [|discriminate Hok].
  exists cs1. split; [reflexivity|].
  destruct (navigation_falls_back_to_offline_page net [] [] cs1 req Hinstall
              eq_refl eq_refl) as [_ (r & _ & Hr)].
  exists r. simpl in Hr. by rewrite Hr.
Defined.

(** ** Refreshing cached responses *)

Section Refresh.
Import Cache.

(** A loop that refreshes the entries of [urls] in the cache [name] one
    after the other. *)
Lemma fold_refresh (name : string) (net : string → fetch_result)
    (f : Storage → string → Storage) (Inv : Storage → Prop)
    (urls : list string) :
  (∀ acc u, Inv acc → Inv (f acc u)) →
  (∀ acc u name' key, name' ≠ name ∨ key ≠ u →
     match_in name' key (f acc u) = match_in name' key acc) →
  (∀ acc u, Inv acc →
     match_in name u (f acc u) = refreshed (net u) (match_in name u acc)) →
  NoDup urls →
  ∀ cs name' key,
    Inv cs →
    match_in name' key (foldl f cs urls)
    = if bool_decide (name' = name ∧ key ∈ urls)
      then refreshed (net key) (match_in name' key cs)
      else match_in name' key cs.
Proof.
  intros Hinv Hframe Hown.
  induction urls as [|u urls IH]; intros Hnd cs name' key Hcs.
  - simpl. rewrite bool_decide_eq_false_2; [done|].
    intros [_ H]. by apply elem_of_nil in H.
  - apply NoDup_cons in Hnd as [Hu Hnd]. cbn [foldl].
    rewrite (IH Hnd) by (by apply Hinv).
    destruct (decide (name' = name ∧ key = u)) as [[-> ->]|Hne].
    + rewrite bool_decide_eq_false_2 by (intros [_ H]; done).
      rewrite bool_decide_eq_true_2 by (split; [done | by left]).
      by apply Hown.
    + assert (name' ≠ name ∨ key ≠ u) as Hne'.
      { destruct (decide (name' = name)) as [->|]; [|by left].
        right. intros ->. by apply Hne. }
      rewrite (Hframe cs u name' key Hne').
      apply (f_equal (λ b : bool,
               if b then refreshed (net key) (match_in name' key cs)
               else match_in name' key cs)).
      apply bool_decide_ext. rewrite elem_of_cons.
      split; [intros [-> H]; split; [done | by right]|].
      intros [-> [->|H]]; [|done]. exfalso. by apply Hne.
Qed.

End Refresh.

(** X5: [updateCachedData] replaces, in the cache [CACHE_NAME], the entry
    of each of the three API URLs whose fetch answers with an ok status and
    a response that the cache takes by the response just fetched; a URL
    whose fetch fails or is not ok, or whose response [cache.put] refuses
    (status 206, or a Vary header with the member [*]), keeps the entry it
    had, and the other URLs are refreshed all the same.  Every other entry
    of every cache reads as before. *)
Theorem updateCachedData_refreshes :
  ∀ (net : string → Cache.fetch_result) (cs : Cache.Storage)
    (name key : string),
    Cache.match_in name key (ServiceWorker.updateCachedData net cs)
    = if bool_decide (name = ServiceWorker.CACHE_NAME
                      ∧ key ∈ ServiceWorker.apiUrls)
      then refreshed (net key) (Cache.match_in name key cs)
      else Cache.match_in name key cs.
Proof.
  intros net cs name key. unfold ServiceWorker.updateCachedData.
  rewrite (fold_refresh ServiceWorker.CACHE_NAME net _
             (λ acc, Cache.has ServiceWorker.CACHE_NAME acc = true)).
  - by rewrite match_in_open.
  - intros acc u Hacc. unfold Cache.put_url.
    destruct (net u) as [r|]; [|done]. destruct (Cache.ok r); [|done].
    destruct (Cache.storable r); [|done]. by rewrite has_put_in.
  - intros acc u name' key' Hne.
    destruct (net u) as [r|]; [|done]. destruct (Cache.ok r); [|done].
    apply match_in_put_url_ne. destruct Hne as [Hne|Hne]; [left|right];
      congruence.
  - intros acc u Hacc. unfold refreshed, Cache.put_url.
    destruct (net u) as [r|]; [|done]. destruct (Cache.ok r); [|done].
    destruct (Cache.storable r); [|done]. by apply match_in_put_in.
  - unfold ServiceWorker.apiUrls. apply (bool_decide_unpack _).
    vm_compute. exact I.
  - apply has_open.
Qed.

(** X6: [cacheCriticalPages] stores, in the cache [fieldmax-pages], each
    of the three pages whose fetch answers with an ok status and a response
    that the cache takes; a page whose fetch fails or is not ok, or whose
    response [cache.put] refuses (status 206, or a Vary header with the
    member [*]), keeps the entry it had, and the pages after it are fetched
    all the same.  Every other entry of every cache reads as before.  [cacheOfflineData] does nothing while the controller is
    offline; it caches the pages only after it has stored the data of
    [/api/offline-data/], and it stores them only from an ok response
    whose body is JSON. *)
Theorem cacheOfflineData_effect :
  ∀ (net : string → Cache.fetch_result)
    (parse : Cache.Response → option IdbCache.json) (new_date date_now : Z)
    (cache : gmap string IdbCache.Item) (cs : Cache.Storage),
    (∀ name key,
       Cache.match_in name key (IdbCache.cacheCriticalPages net cs)
       = if bool_decide (name = "fieldmax-pages" ∧ key ∈ IdbCache.pages)
         then refreshed (net key) (Cache.match_in name key cs)
         else Cache.match_in name key cs) ∧
    IdbCache.cacheOfflineData false net parse new_date date_now cache cs
    = (cache, cs) ∧
    (let after :=
       IdbCache.cacheOfflineData true net parse new_date date_now cache cs in
     after = (cache, cs) ∨
     ∃ r data,
       net "/api/offline-data/" = Cache.Fetched r ∧ Cache.ok r = true ∧
       parse r = Some data ∧
       after.2 = IdbCache.cacheCriticalPages net cs ∧
       ∀ now, IdbCache.getFromCache "/api/offline-data/" now after.1
              = if date_now + 86400000 >? now then data
                else IdbCache.JsonNull).
Proof.
  intros net parse new_date date_now cache cs. split; [|split].
  - intros name key. unfold IdbCache.cacheCriticalPages.
    rewrite (fold_refresh "fieldmax-pages" net _ (λ _, True)); try done.
    + intros acc u name' key' Hne.
      destruct (net u) as [r|]; [|done]. destruct (Cache.ok r); [|done].
      rewrite match_in_put_url_ne; [apply match_in_open|].
      destruct Hne as [Hne|Hne]; [left|right]; congruence.
    + intros acc u _. unfold refreshed, Cache.put_url.
      destruct (net u) as [r|]; [|done]. destruct (Cache.ok r); [|done].
      destruct (Cache.storable r); cbn [andb];
        [apply match_in_put_in, has_open | apply match_in_open].
    + unfold IdbCache.pages. apply (bool_decide_unpack _).
      vm_compute. exact I.
  - reflexivity.
  - unfold IdbCache.cacheOfflineData. cbn [negb].
    destruct (net "/api/offline-data/") as [r|] eqn:Hnet; [|by left].
    destruct (Cache.ok r) eqn:Hok; [|by left].
    destruct (parse r) as [data|] eqn:Hparse; [|by left].
    right. exists r, data. repeat split; try done.
    intros now. cbn [fst].
    unfold IdbCache.getFromCache, IdbCache.storeInCache, IDB.put.
    rewrite lookup_insert_eq. reflexivity.
Qed.

(** X7: an item that [storeInCache] has written is what [getFromCache]
    delivers for its key until 24 hours after the write; from then on, as
    for a key that was never written, [getFromCache] delivers [null].  A
    write replaces the item of its key and leaves the other keys alone. *)
Theorem cached_item_expires_after_a_day :
  ∀ (key key' : string) (data : IdbCache.json) (new_date date_now now : Z)
    (cache : gmap string IdbCache.Item),
    IdbCache.getFromCache key' now
      (IdbCache.storeInCache key data new_date date_now cache)
    = (if decide (key' = key)
       then if now <? date_now + 86400000 then data else IdbCache.JsonNull
       else IdbCache.getFromCache key' now cache) ∧
    IdbCache.getFromCache key' now ∅ = IdbCache.JsonNull.
Proof.
  intros key key' data new_date date_now now cache.
  unfold IdbCache.getFromCache, IdbCache.storeInCache, IDB.put. split.
  - destruct (decide (key' = key)) as [->|Hne].
    + rewrite lookup_insert_eq. cbn [IdbCache.expires IdbCache.data].
      rewrite Z.gtb_ltb. reflexivity.
    + by rewrite lookup_insert_ne.
  - by rewrite lookup_empty.
Qed.

(** ** Enqueueing in the IndexedDB controller *)

Section Enqueue.
Import IdbManager.

Lemma getPriorityValue_cases name :
  (∃ n, getPriorityValue name = JNum n) ∨
  (getPriorityValue name = JInherited name ∧
   name ∈ object_prototype_members).
Proof.
  unfold getPriorityValue, js_get.
  destruct (own_property priorities name) as [n|] eqn:Hown.
  - left. unfold js_or, truthy. destruct (n =? 0); simpl; eauto.
  - case_bool_decide as Hmem; simpl; [by right | left; eauto].
Qed.

End Enqueue.

(** X8: [queueRequest] either stores the new record and returns its id, or
    rejects and leaves the database as it was.  It stores the record under
    an id that was free, with no attempt made and three allowed, and the
    queue size grows by one.  It rejects with ConstraintError when the id
    is taken, and with DataCloneError when the priority names a function
    that objects inherit, such as [toString], since the record then holds
    that function. *)
Theorem queueRequest_outcomes :
  ∀ (e : IdbManager.Entropy) (method url : string) (data : option string)
    (class : option string) (om : IdbManager.OfflineManager),
    let request := IdbManager.make_request e method url data class in
    let after := IdbManager.queueRequest e method url data class om in
    match after.1 with
    | Ok key =>
        key = IdbManager.make_id e ∧
        requests (IdbManager.db om) !! key = None ∧
        after.2
        = IdbManager.set_db
            (set_requests (<[key := request]> (requests (IdbManager.db om)))
               (IdbManager.db om)) om ∧
        id request = key ∧ retries request = 0 ∧ maxRetries request = 3 ∧
        IdbManager.getQueueSize after.2 = S (IdbManager.getQueueSize om)
    | Err err =>
        after.2 = om ∧
        ((err = "ConstraintError" ∧
          is_Some (requests (IdbManager.db om) !! IdbManager.make_id e)) ∨
         (err = "DataCloneError" ∧
          ∃ name, class = Some name ∧
                  name ∈ IdbManager.object_prototype_members ∧
                  name ≠ "__proto__" ∧
                  priority request = JInherited name))
    end.
Proof.
  intros e method url data class om request after. subst after.
  unfold IdbManager.queueRequest, IdbManager.addToQueue. fold request.
  destruct (IdbManager.clonable (priority request)) eqn:Hclone.
  - unfold IDB.add.
    destruct (requests (IdbManager.db om) !! id request) eqn:Hfree;
      cbn [fst snd].
    + split; [done|]. left. split; [done|]. eexists. exact Hfree.
    + repeat split; try done.
      unfold IdbManager.getQueueSize, IDB.count. simpl.
      by rewrite map_size_insert_None.
  - cbn [fst snd]. split; [done|]. right. split; [done|].
    unfold request, IdbManager.make_request in Hclone. simpl in Hclone.
    destruct (getPriorityValue_cases (default "normal" class))
      as [[n Hn]|[Hinh Hmem]].
    + rewrite Hn in Hclone. discriminate.
    + rewrite Hinh in Hclone. simpl in Hclone.
      apply String.eqb_neq in Hclone.
      destruct class as [name|]; simpl in *.
      * exists name. repeat split; try done.
      * exfalso. apply (bool_decide_pack _) in Hmem.
        vm_compute in Hmem. exact Hmem.
Qed.

(** ** Records without an index key *)

Section IndexCoverage.
Import IdbManager.

Lemma length_omap_le {A B} (f : A → option B) (l : list A) :
  (length (omap f l) ≤ length l)%nat.
Proof.
  induction l as [|x l IH]; [done|].
  change (omap f (x :: l))
    with (match f x with Some y => y :: omap f l | None => omap f l end).
  destruct (f x); simpl; lia.
Qed.

Lemma length_index_cursor (s : gmap string Request) :
  (length (IDB.index_cursor priority_key s) ≤ size s)%nat.
Proof.
  unfold IDB.index_cursor, IDB.index_entries.
  rewrite length_fmap, merge_sort_Permutation.
  rewrite <- length_map_to_list. apply length_omap_le.
Qed.

Lemma elem_of_listing (limit : Z) (d : DB) (r : Request) :
  keyed d →
  r ∈ getQueuedRequests_limit limit d →
  requests d !! id r = Some r ∧ ∃ p, priority r = JNum p.
Proof.
  intros [Hkeyed _] Hin. rewrite getQueuedRequests_limit_take in Hin.
  assert (r ∈ IDB.index_cursor priority_key (requests d)) as Hcur.
  { eapply elem_of_sublist; [exact Hin | apply sublist_take]. }
  apply elem_of_index_cursor in Hcur as (k & p & Hs & Hp).
  split; [by rewrite (Hkeyed _ _ Hs)|].
  exists p. unfold priority_key, priority_of in Hp.
  destruct (priority r); [by injection Hp as -> | discriminate].
Qed.

End IndexCoverage.

(** X9: [getQueuedRequests] lists a record of the queue only when its
    stored priority is a number, and lists every such record once when the
    limit is not below the queue size.  A record whose priority is not a
    number, as [queueRequest] stores it for the priority [__proto__], has no
    entry in the [priority] index: it counts in the queue size, no pass
    attempts it and every pass leaves it in the queue as it is. *)
Theorem listing_covers_numeric_priorities_only :
  ∀ (d : DB) (limit : Z),
    keyed d →
    (∀ r, r ∈ IdbManager.getQueuedRequests_limit limit d →
          requests d !! id r = Some r ∧ ∃ p, priority r = JNum p) ∧
    NoDup (IdbManager.getQueuedRequests_limit limit d) ∧
    (Z.of_nat (size (requests d)) ≤ limit →
     ∀ r p, requests d !! id r = Some r → priority r = JNum p →
            r ∈ IdbManager.getQueuedRequests_limit limit d) ∧
    (∀ (impl : IdbManager.update_impl) (net : Request → outcome)
       (clock : Request → Z) (online : bool) (k : string) (r : Request),
       requests d !! k = Some r → priority_of r = None →
       let after := IdbManager.syncOfflineData impl net clock
                      (IdbManager.mkManager online false d) in
       requests (IdbManager.db after.1) !! k = Some r ∧
       ∀ s, after.2 = Some s → r ∉ IdbManager.attempted s).
Proof.
  intros d limit Hkeyed. split; [|split; [|split]].
  - intros r. by apply elem_of_listing.
  - rewrite getQueuedRequests_limit_take.
    eapply sublist_NoDup; [|apply sublist_take].
    eapply NoDup_fmap_1. apply index_cursor_ids_NoDup, Hkeyed.
  - intros Hlimit r p Hr Hp. rewrite getQueuedRequests_limit_take.
    rewrite take_ge.
    + apply elem_of_index_cursor. exists (id r), p. split; [exact Hr|].
      unfold IdbManager.priority_key, priority_of. by rewrite Hp.
    + pose proof (length_index_cursor (requests d)). lia.
  - intros impl net clock online k r Hr Hp after.
    assert (∀ x, x ∈ IdbManager.getQueuedRequests d → id x ≠ k) as Hskip.
    { intros x Hx Heq. apply elem_of_listing in Hx as [Hx [p Hnum]];
        [|exact Hkeyed].
      rewrite Heq, Hr in Hx. injection Hx as <-.
      unfold priority_of in Hp. by rewrite Hnum in Hp. }
    assert (k ∉ id <$> IdbManager.getQueuedRequests d) as Hnot.
    { intros (x & Heq & Hx)%list_elem_of_fmap. by apply (Hskip x). }
    subst after. unfold IdbManager.syncOfflineData. simpl.
    destruct online; simpl; [|by split].
    pose proof (drain_attempted impl net clock
                  (IdbManager.getQueuedRequests d) d IdbManager.summary0)
      as Hdrain.
    pose proof (drain_other impl net clock
                  (IdbManager.getQueuedRequests d) d IdbManager.summary0 k
                  Hnot) as Hother.
    destruct (IdbManager.drain impl net clock
                (IdbManager.getQueuedRequests d) d IdbManager.summary0)
      as [d' s'].
    destruct Hdrain as (done & Hatt & Hpre & _). simpl in Hatt, Hother.
    split; [simpl; by rewrite Hother|].
    intros s [= <-] Hin. rewrite Hatt in Hin.
    destruct Hpre as [rest Hrest]. apply (Hskip r); [|by apply Hkeyed in Hr].
    rewrite Hrest. apply elem_of_app. by left.
Qed.

Lemma listing_covers_numeric_priorities_only_witness :
  let e := IdbManager.mkEntropy 1700000000000 "a7c1m4p8w" 1700000000000 in
  let om :=
    (IdbManager.queueRequest e "POST" "/api/orders/" None (Some "__proto__")
       (IdbManager.mkManager true false emptyDB)).2 in
  let after :=
    IdbManager.syncOfflineData IdbManager.UpdateUndefined (λ _, Fulfilled)
      (λ _, 0) om in
  keyed (IdbManager.db om) ∧
  IdbManager.getQueueSize om = 1%nat ∧
  IdbManager.getQueuedRequests (IdbManager.db om) = [] ∧
  is_Some (requests (IdbManager.db after.1) !! IdbManager.make_id e).
Proof.
  intros e om after.
  assert (keyed (IdbManager.db om)) as Hkeyed
    by (apply (bool_decide_unpack _); vm_compute; exact I).
  split; [exact Hkeyed|].
  split; [vm_compute; reflexivity|].
  split; [vm_compute; reflexivity|].
  destruct (requests (IdbManager.db om) !! IdbManager.make_id e)
    as [r|] eqn:Hr; [|by vm_compute in Hr].
  assert (priority_of r = None) as Hp.
  { assert (priority_of <$> requests (IdbManager.db om)
                            !! IdbManager.make_id e = Some None) as H
      by (vm_compute; reflexivity).
    rewrite Hr in H. by injection H. }
  destruct (listing_covers_numeric_priorities_only (IdbManager.db om) 50
              Hkeyed) as (_ & _ & _ & Hkept).
  destruct (Hkept IdbManager.UpdateUndefined (λ _, Fulfilled) (λ _, 0)
              true _ _ Hr Hp) as [Hafter _].
  exists r. exact Hafter.
Defined.

(** ** The controller as the class is written, without [updateRequest] *)

Section AsWritten.
Import IdbManager.

Lemma drain_as_written net clock todo d s :
  Forall (λ r, retries r + 1 < maxRetries r) todo →
  let s' := (drain UpdateUndefined net clock todo d s).2 in
  failCount s' = failCount s ∧
  match list_find (λ r, confirmed (net r) = false) todo with
  | None =>
      attempted s' = attempted s ++ todo ∧
      successCount s' = successCount s + Z.of_nat (length todo) ∧
      sync_error s' = sync_error s
  | Some (i, r) =>
      attempted s' = attempted s ++ take (S i) todo ∧
      successCount s' = successCount s + Z.of_nat i ∧
      sync_error s' = Some "TypeError"
  end.
Proof.
  revert d s. induction todo as [|r rest IH]; intros d s Hall.
  - simpl. by rewrite app_nil_r, Z.add_0_r.
  - apply Forall_cons in Hall as [Hr Hall]. rewrite drain_cons.
    unfold process_entry. rewrite begin_entry_as_written by exact Hr.
    cbn [list_find]. destruct (net r) as [|msg] eqn:Hnet; simpl confirmed.
    + rewrite decide_False by done. cbn zeta.
      specialize (IH (removeFromQueue (id r) d) (tally r true s) Hall).
      cbn zeta in IH. destruct IH as [Hfail IH]. split; [exact Hfail|].
      destruct (list_find (λ r0, confirmed (net r0) = false) rest)
        as [[i x]|]; simpl in *.
      * destruct IH as (Hatt & Hsucc & Herr).
        rewrite Hatt, <- app_assoc. repeat split; try done. lia.
      * destruct IH as (Hatt & Hsucc & Herr).
        rewrite Hatt, <- app_assoc. repeat split; try done. lia.
    + rewrite decide_True by done. simpl. repeat split. lia.
Qed.

Lemma counts_ok_tally net r synced s :
  synced = confirmed (net r) → sync_error s = None →
  counts_ok net s → counts_ok net (tally r synced s).
Proof.
  intros -> Hnone. unfold counts_ok. simpl. rewrite Hnone.
  rewrite !filter_app, !length_app.
  intros (Hs & Hf & Hall & Hpos). destruct (confirmed (net r)) eqn:Hc.
  - rewrite (filter_cons_True _ r []) by (rewrite Hc; simpl; tauto).
    rewrite (filter_cons_False _ r []) by (rewrite Hc; simpl; tauto).
    simpl. lia.
  - rewrite (filter_cons_False _ r []) by (rewrite Hc; simpl; tauto).
    rewrite (filter_cons_True _ r []) by (rewrite Hc; simpl; tauto).
    simpl. lia.
Qed.

Lemma counts_ok_aborted net r e s :
  confirmed (net r) = false → sync_error s = None →
  counts_ok net s → counts_ok net (aborted r e s).
Proof.
  intros Hc Hnone. unfold counts_ok. simpl. rewrite Hnone.
  rewrite !filter_app, !length_app.
  intros (Hs & Hf & Hall & Hpos).
  rewrite (filter_cons_False _ r []) by (rewrite Hc; simpl; tauto).
  rewrite (filter_cons_True _ r []) by (rewrite Hc; simpl; tauto).
  simpl. lia.
Qed.

Lemma process_entry_synced impl o now r d :
  match process_entry impl o now r d with
  | Continue _ synced => synced = confirmed o
  | Abort _ _ => confirmed o = false
  end.
Proof.
  unfold process_entry.
  destruct (begin_entry_cases impl o now r d)
    as [[-> ->]|[(msg & -> & _ & _ & ->)|[(msg & -> & _ & _ & ->)
       |(msg & e & -> & ->)]]]; done.
Qed.

Lemma drain_counts_ok impl net clock todo d s :
  sync_error s = None → counts_ok net s →
  counts_ok net (drain impl net clock todo d s).2.
Proof.
  revert d s. induction todo as [|r rest IH]; intros d s Hnone Hs;
    [exact Hs|].
  rewrite drain_cons.
  pose proof (process_entry_synced impl (net r) (clock r) r d) as Hsync.
  destruct (process_entry impl (net r) (clock r) r d) as [d1 synced|d1 e].
  - apply IH; [exact Hnone | by apply counts_ok_tally].
  - by apply counts_ok_aborted.
Qed.

End AsWritten.

(** X10: as the class is written, with no [updateRequest], no run of the
    controller records a failed attempt: at every point the failed store
    is empty and every queued record has [retries] 0 and [maxRetries] 3.
    When a call of [processQueuedRequest] fails, the pass ends at once with
    the database as it was. *)
Theorem failures_leave_no_trace_as_written :
  ∀ (evs : list IdbManager.event) (online : bool),
    let c := IdbManager.run IdbManager.UpdateUndefined evs
               (IdbManager.init online) in
    failed (IdbManager.db (IdbManager.om c)) = ∅ ∧
    map_Forall (λ _ r, retries r = 0 ∧ maxRetries r = 3)
               (requests (IdbManager.db (IdbManager.om c))) ∧
    (∀ i msg now r rest,
       IdbManager.tasks c !! i = Some (IdbManager.AwaitRequest r rest) →
       let c' := IdbManager.step IdbManager.UpdateUndefined
                   (IdbManager.Resume i (Rejected msg) now) c in
       IdbManager.db (IdbManager.om c') = IdbManager.db (IdbManager.om c) ∧
       IdbManager.syncInProgress (IdbManager.om c') = false ∧
       IdbManager.tasks c' !! i = Some IdbManager.AwaitCounter).
Proof.
  intros evs online c.
  pose proof (consistent_run IdbManager.UpdateUndefined evs _
                (consistent_init online)) as Hc.
  assert (untouched (IdbManager.db (IdbManager.om c))) as [Hf Hq].
  { apply run_untouched; [apply consistent_init|].
    split; [done | apply map_Forall_empty]. }
  fold c in Hc. split; [exact Hf|]. split; [exact Hq|].
  intros i msg now r rest Hi c'. subst c'.
  destruct Hc as (_ & Hsnap & _).
  pose proof (Forall_lookup_1 _ _ _ _ Hsnap Hi) as [_ Hr].
  apply Forall_cons in Hr as [Hr _].
  pose proof (Hq _ _ Hr) as [Hr0 Hr3]. simpl in Hr0, Hr3.
  simpl. unfold IdbManager.resume. rewrite Hi.
  rewrite begin_entry_as_written by lia. simpl.
  split; [by destruct (IdbManager.db (IdbManager.om c))|].
  split; [done|].
  apply list_lookup_insert_eq. by eapply lookup_lt_Some.
Qed.

(** X11: as the class is written, an uninterrupted pass over a queue whose
    records have at least two attempts left calls [processQueuedRequest] on
    the snapshot in order up to the first call that fails, and no further.
    It then ends with the error of the undefined [updateRequest];
    [successCount] is the number of calls before that one and [failCount]
    stays 0.  When no call fails the whole snapshot is attempted and
    counted. *)
Theorem pass_ends_at_first_failure_as_written :
  ∀ (net : Request → outcome) (clock : Request → Z) (d : DB),
    map_Forall (λ _ r, retries r + 1 < maxRetries r) (requests d) →
    let snapshot := IdbManager.getQueuedRequests d in
    let after := IdbManager.syncOfflineData IdbManager.UpdateUndefined net
                   clock (IdbManager.mkManager true false d) in
    IdbManager.syncInProgress after.1 = false ∧
    ∃ s, after.2 = Some s ∧ IdbManager.failCount s = 0 ∧
         match list_find (λ r, confirmed (net r) = false) snapshot with
         | None =>
             IdbManager.attempted s = snapshot ∧
             IdbManager.successCount s = Z.of_nat (length snapshot) ∧
             IdbManager.sync_error s = None
         | Some (i, r) =>
             IdbManager.attempted s = take (S i) snapshot ∧
             IdbManager.successCount s = Z.of_nat i ∧
             IdbManager.sync_error s = Some "TypeError"
         end.
Proof.
  intros net clock d Hleft snapshot after. subst after.
  unfold IdbManager.syncOfflineData. simpl.
  assert (Forall (λ r, retries r + 1 < maxRetries r) snapshot) as Hall.
  { apply Forall_forall. intros r Hr. unfold snapshot in Hr.
    unfold IdbManager.getQueuedRequests in Hr.
    rewrite getQueuedRequests_limit_take in Hr.
    assert (r ∈ IDB.index_cursor IdbManager.priority_key (requests d))
      as Hcur by (eapply elem_of_sublist; [exact Hr | apply sublist_take]).
    apply elem_of_index_cursor in Hcur as (k & p & Hs & _).
    apply (Hleft _ _ Hs). }
  pose proof (drain_as_written net clock snapshot d IdbManager.summary0 Hall)
    as Hdrain.
  fold snapshot.
  destruct (IdbManager.drain IdbManager.UpdateUndefined net clock snapshot d
              IdbManager.summary0) as [d' s'].
  cbn zeta in Hdrain. simpl in Hdrain. destruct Hdrain as [Hfail Hdrain].
  split; [done|]. exists s'. split; [done|]. split; [exact Hfail|].
  destruct (list_find (λ r, confirmed (net r) = false) snapshot)
    as [[i r]|]; exact Hdrain.
Qed.

Lemma pass_ends_at_first_failure_as_written_witness :
  let net := λ r : Request,
    if String.eqb (url r) "/api/payments/" then Rejected "HTTP 500"
    else Fulfilled in
  let a := mkRequest "1700000000000-a7c1m4p8w" "POST" "/api/orders/" None
                     1700000000000 (JNum 1) 0 3 in
  let b := mkRequest "1700000000001-zk3j9x0q2" "POST" "/api/payments/" None
                     1700000000001 (JNum 2) 0 3 in
  let c := mkRequest "1700000000002-q7c1m4p8w" "POST" "/api/stock/" None
                     1700000000002 (JNum 3) 0 3 in
  let d := mkDB {[ id a := a; id b := b; id c := c ]} ∅ in
  let after := IdbManager.syncOfflineData IdbManager.UpdateUndefined net
                 (λ _, 0) (IdbManager.mkManager true false d) in
  map_Forall (λ _ r, retries r + 1 < maxRetries r) (requests d) ∧
  ∃ s, after.2 = Some s ∧ IdbManager.attempted s = [a; b] ∧
       IdbManager.successCount s = 1 ∧ IdbManager.failCount s = 0 ∧
       IdbManager.sync_error s = Some "TypeError".
Proof.
  intros net a b c d after.
  assert (map_Forall (λ _ r, retries r + 1 < maxRetries r) (requests d))
    as Hleft by (apply (bool_decide_unpack _); vm_compute; exact I).
  split; [exact Hleft|].
  destruct (pass_ends_at_first_failure_as_written net (λ _, 0) d Hleft)
    as [_ (s & Hs & Hfail & Hfind)].
  exists s. split; [exact Hs|].
  assert (IdbManager.getQueuedRequests d = [a; b; c]) as Hsnap
    by (vm_compute; reflexivity).
  rewrite Hsnap in Hfind. vm_compute in Hfind.
  destruct Hfind as (Hatt & Hsucc & Herr). by repeat split.
Defined.

(** X12: the summary of a pass agrees with the calls it made:
    [successCount] is the number of calls of [processQueuedRequest] that
    were confirmed, [failCount] the number of the other calls, less the one
    whose handling threw and ended the pass, and the two together count at
    most 50.  No summary is made only when the guard turns the call away,
    a pass being in progress or the controller offline. *)
Theorem summary_counts_the_calls :
  ∀ (impl : IdbManager.update_impl) (net : Request → outcome)
    (clock : Request → Z) (om : IdbManager.OfflineManager),
    match (IdbManager.syncOfflineData impl net clock om).2 with
    | Some s =>
        counts_ok net s ∧
        0 ≤ IdbManager.successCount s ∧ 0 ≤ IdbManager.failCount s ∧
        IdbManager.successCount s + IdbManager.failCount s ≤ 50
    | None =>
        IdbManager.syncInProgress om || negb (IdbManager.isOnline om) = true
    end.
Proof.
  intros impl net clock om. unfold IdbManager.syncOfflineData.
  destruct (IdbManager.syncInProgress om || negb (IdbManager.isOnline om));
    [done|].
  cbn [IdbManager.db IdbManager.set_syncInProgress].
  pose proof (drain_counts_ok impl net clock
                (IdbManager.getQueuedRequests (IdbManager.db om))
                (IdbManager.db om) IdbManager.summary0 eq_refl) as Hcounts.
  pose proof (drain_attempted impl net clock
                (IdbManager.getQueuedRequests (IdbManager.db om))
                (IdbManager.db om) IdbManager.summary0) as Hdrain.
  destruct (IdbManager.drain impl net clock
              (IdbManager.getQueuedRequests (IdbManager.db om))
              (IdbManager.db om) IdbManager.summary0) as [d' s'].
  cbn [snd] in *. destruct Hdrain as (done & Hatt & Hpre & _).
  assert (counts_ok net s') as Hok by (apply Hcounts; by repeat split).
  split; [exact Hok|].
  destruct Hok as (Hs & Hf & Hall & Hpos).
  apply prefix_length in Hpre.
  pose proof (getQueuedRequests_length 50 (IdbManager.db om)) as Hlen.
  unfold IdbManager.getQueuedRequests in Hpre.
  change (Z.to_nat 50) with 50%nat in Hlen.
  simpl in Hatt. rewrite Hatt in Hall.
  pose proof (length_filter (λ r, ¬ confirmed (net r))
                (IdbManager.attempted s')) as Hle.
  destruct (IdbManager.sync_error s'); lia.
Qed.

(** ** The pass of the worker *)

Lemma worker_drain_lookup net todo (queue : gmap string Request) calls k :
  (ServiceWorker.drain net todo queue calls).1 !! k
  = if decide (Exists (λ r, id r = k ∧ confirmed (net r) = true) todo)
    then None else queue !! k.
Proof.
  revert queue calls. induction todo as [|r rest IH]; intros queue calls.
  - cbn [ServiceWorker.drain fst]. rewrite decide_False; [done|].
    by intros H%Exists_nil.
  - cbn [ServiceWorker.drain]. destruct (net r) as [|msg] eqn:Hnet.
    + rewrite IH. unfold ServiceWorker.removeFromQueue, IDB.delete.
      destruct (decide (id r = k)) as [Hk|Hk].
      * rewrite (decide_True (P := Exists _ (r :: rest)))
          by (left; by rewrite Hnet).
        rewrite Hk, lookup_delete_eq. by destruct (decide _).
      * rewrite lookup_delete_ne by exact Hk.
        destruct (decide (Exists _ rest)) as [He|He].
        -- rewrite decide_True; [done | by right].
        -- rewrite decide_False; [done|].
           intros [[Heq _]|H]%Exists_cons; [by apply Hk | by apply He].
    + rewrite IH. destruct (decide (Exists _ rest)) as [He|He].
      * rewrite decide_True; [done | by right].
      * rewrite decide_False; [done|].
        intros [[_ Hc]|H]%Exists_cons; [|by apply He].
        rewrite Hnet in Hc. discriminate.
Qed.

(** X13: on a store keyed by [id], the pass of the worker removes exactly
    the records whose call was confirmed and keeps the others as they are;
    it calls [processQueuedRequest] once on every record, in ascending
    order of [id], and broadcasts SYNC_STARTED and then SYNC_COMPLETED
    however many of the calls failed.  When every call fails, as it does
    while the worker script declares no [processQueuedRequest], the store
    is left as it was and SYNC_COMPLETED is broadcast all the same. *)
Theorem worker_pass_removes_confirmed :
  ∀ (net : Request → outcome) (queue : gmap string Request),
    keyed_store queue →
    ServiceWorker.syncOfflineData net (Ok queue)
    = (Ok (filter (λ kr, confirmed (net kr.2) = false) queue),
       ["SYNC_STARTED"; "SYNC_COMPLETED"],
       ServiceWorker.getQueuedRequests queue) ∧
    (∀ error,
       ServiceWorker.syncOfflineData (λ _, Rejected error) (Ok queue)
       = (Ok queue, ["SYNC_STARTED"; "SYNC_COMPLETED"],
          ServiceWorker.getQueuedRequests queue)).
Proof.
  intros net queue Hkeyed.
  assert (∀ net',
    ServiceWorker.syncOfflineData net' (Ok queue)
    = (Ok (filter (λ kr, confirmed (net' kr.2) = false) queue),
       ["SYNC_STARTED"; "SYNC_COMPLETED"],
       ServiceWorker.getQueuedRequests queue)) as Hpass.
  { intros net'. unfold ServiceWorker.syncOfflineData.
    pose proof (worker_drain_calls net'
                  (ServiceWorker.getQueuedRequests queue) queue []) as Hcalls.
    pose proof (λ k, worker_drain_lookup net'
                  (ServiceWorker.getQueuedRequests queue) queue [] k)
      as Hlookup.
    destruct (ServiceWorker.drain net'
                (ServiceWorker.getQueuedRequests queue) queue [])
      as [queue' calls].
    simpl in Hcalls, Hlookup. subst calls. f_equal. f_equal. f_equal.
    apply map_eq. intros k. rewrite Hlookup, map_lookup_filter.
    destruct (queue !! k) as [r|] eqn:Hr; simpl.
    - pose proof (Hkeyed _ _ Hr) as Hid. simpl in Hid.
      destruct (confirmed (net' r)) eqn:Hc.
      + rewrite option_guard_False by done.
        rewrite decide_True; [done|].
        apply Exists_exists. exists r. split; [|done].
        apply elem_of_getAll. by exists k.
      + rewrite option_guard_True by done.
        rewrite decide_False; [done|].
        intros (x & Hx & Hxk & Hxc)%Exists_exists.
        apply elem_of_getAll in Hx as [k' Hx].
        pose proof (Hkeyed _ _ Hx) as Hid'. simpl in Hid'.
        assert (k' = k) as -> by congruence.
        rewrite Hr in Hx. injection Hx as <-. congruence.
    - by destruct (decide _). }
  split; [apply Hpass|].
  intros error. rewrite Hpass. f_equal. f_equal. f_equal.
  apply map_eq. intros k. rewrite map_lookup_filter.
  by destruct (queue !! k).
Qed.

Lemma worker_pass_removes_confirmed_witness :
  let net := λ r : Request,
    if String.eqb (url r) "/api/b/" then Fulfilled else Rejected "HTTP 500" in
  let low := mkRequest "1700000000000-a7c1m4p8w" "POST" "/api/a/" None
                       1700000000000 (JNum 3) 0 3 in
  let high := mkRequest "1700000000001-zk3j9x0q2" "POST" "/api/b/" None
                        1700000000001 (JNum 1) 0 3 in
  let queue : gmap string Request := {[ id low := low; id high := high ]} in
  keyed_store queue ∧
  ∃ queue',
    (ServiceWorker.syncOfflineData net (Ok queue)).1.1 = Ok queue' ∧
    queue' !! id low = Some low ∧ queue' !! id high = None.
Proof.
  intros net low high queue.
  assert (keyed_store queue) as Hq
    by (apply (bool_decide_unpack _); vm_compute; exact I).
  split; [exact Hq|].
  destruct (worker_pass_removes_confirmed net queue Hq) as [Hpass _].
  eexists. rewrite Hpass. split; [reflexivity|].
  split.
  - apply map_lookup_filter_Some. split; [|reflexivity].
    vm_compute. reflexivity.
  - apply map_lookup_filter_None. right. intros x Hx.
    assert (queue !! id high = Some high) as Hh by (vm_compute; reflexivity).
    rewrite Hh in Hx. injection Hx as <-. simpl. discriminate.
Defined.

(** ** The earlier worker: caches, fetch events and messages *)

Section LegacyCaches.
Import Cache.

(** Deleting by name the caches of [names] that [D] selects. *)
Lemma delete_fold (D : string → Prop) `{!∀ n, Decision (D n)}
    (names : list string) (acc : Storage) :
  foldl (λ acc n, if bool_decide (D n) then Cache.delete n acc else acc)
        acc names
  = filter (λ c, ¬ D c.1 ∨ c.1 ∉ names) acc.
Proof.
  revert acc. induction names as [|n names IH]; intros acc; cbn [foldl].
  - symmetry. induction acc as [|c acc IHacc]; [reflexivity|].
    rewrite filter_cons_True; [by f_equal|].
    right. apply not_elem_of_nil.
  - rewrite IH. clear IH. case_bool_decide as Hn.
    + unfold Cache.delete. rewrite list_filter_filter.
      apply list_filter_iff. intros c. rewrite not_elem_of_cons.
      destruct (decide (c.1 = n)) as [->|Hne]; [tauto|tauto].
    + apply list_filter_iff. intros c. rewrite not_elem_of_cons.
      destruct (decide (c.1 = n)) as [->|Hne]; [tauto|tauto].
Qed.

Lemma legacy_activate_filter (cs : Storage) :
  LegacyWorker.activate cs
  = filter (λ c, c.1 = LegacyWorker.CACHE_NAME
                 ∨ c.1 = LegacyWorker.API_CACHE) cs.
Proof.
  unfold LegacyWorker.activate.
  rewrite (delete_fold (λ n, n ≠ LegacyWorker.CACHE_NAME
                             ∧ n ≠ LegacyWorker.API_CACHE)).
  apply filter_ext_elem. intros c Hc.
  assert (c.1 ∈ keys cs) as Hin.
  { unfold keys. apply list_elem_of_fmap. by exists c. }
  destruct (decide (c.1 = LegacyWorker.CACHE_NAME));
    destruct (decide (c.1 = LegacyWorker.API_CACHE)); tauto.
Qed.

Lemma clear_fold (names : list string) (acc : Storage) :
  foldl (λ acc n, Cache.delete n acc) acc names
  = filter (λ c, c.1 ∉ names) acc.
Proof.
  revert acc. induction names as [|n names IH]; intros acc; cbn [foldl].
  - symmetry. induction acc as [|c acc IHacc]; [reflexivity|].
    rewrite filter_cons_True; [by f_equal|]. apply not_elem_of_nil.
  - rewrite IH. unfold Cache.delete. rewrite list_filter_filter.
    apply list_filter_iff. intros c. rewrite not_elem_of_cons. tauto.
Qed.

Lemma filter_none {A} (P : A → Prop) `{!∀ x, Decision (P x)} (l : list A) :
  (∀ x, x ∈ l → ¬ P x) → filter P l = [].
Proof.
  induction l as [|x l IH]; intros Hnone; [done|].
  rewrite filter_cons_False by (apply Hnone; by left).
  apply IH. intros y Hy. apply Hnone. by right.
Qed.

Lemma clear_all (cs : Storage) :
  foldl (λ acc n, Cache.delete n acc) cs (keys cs) = [].
Proof.
  rewrite clear_fold. apply filter_none. intros c Hc Hnot.
  apply Hnot. unfold keys. apply list_elem_of_fmap. by exists c.
Qed.

(** A lookup by cache name, after the caches are filtered by name. *)
Lemma match_in_filter (K : string → Prop) `{!∀ n, Decision (K n)}
    name key cs :
  match_in name key (filter (λ c, K c.1) cs)
  = if decide (K name) then match_in name key cs else None.
Proof.
  induction cs as [|[n c] cs IH]; [by destruct (decide (K name))|].
  destruct (decide (K n)) as [Hn|Hn].
  - rewrite filter_cons_True by exact Hn. rewrite !match_in_cons, IH.
    destruct (decide (n = name)) as [->|Hne]; destruct (decide (K name));
      done.
  - rewrite filter_cons_False by exact Hn. rewrite match_in_cons, IH.
    destruct (decide (n = name)) as [->|Hne]; destruct (decide (K name));
      done.
Qed.

Lemma addAll_holds name net urls cs cs1 key :
  addAll name net urls cs = Ok cs1 →
  has name cs = true → key ∈ urls → holds name key cs1.
Proof.
  unfold addAll. destruct (fetch_all net urls) as [l|] eqn:E; [|discriminate].
  intros [= <-] Hhas Hkey. apply holds_fold_put_in; [exact Hhas|].
  left. by rewrite (fetch_all_urls _ _ _ E).
Qed.

End LegacyCaches.

(** X14: the activate listener of the earlier worker keeps the static
    cache and the API cache with everything they hold, and deletes every
    cache of another name.  After an install that succeeded, every URL of
    [STATIC_CACHE_URLS] is still held by the static cache. *)
Theorem legacy_activation_keeps_both_caches :
  ∀ (cs : Cache.Storage) (name key : string),
    Cache.match_in name key (LegacyWorker.activate cs)
    = (if bool_decide (name = LegacyWorker.CACHE_NAME
                       ∨ name = LegacyWorker.API_CACHE)
       then Cache.match_in name key cs else None) ∧
    (name ∈ Cache.keys (LegacyWorker.activate cs) ↔
     name ∈ Cache.keys cs ∧
     (name = LegacyWorker.CACHE_NAME ∨ name = LegacyWorker.API_CACHE)) ∧
    (∀ net cs1,
       LegacyWorker.install net cs = Ok cs1 →
       key ∈ LegacyWorker.STATIC_CACHE_URLS →
       is_Some (Cache.match_in LegacyWorker.CACHE_NAME key
                  (LegacyWorker.activate cs1))).
Proof.
  intros cs name key.
  assert (∀ cs', Cache.match_in name key (LegacyWorker.activate cs')
    = if bool_decide (name = LegacyWorker.CACHE_NAME
                      ∨ name = LegacyWorker.API_CACHE)
      then Cache.match_in name key cs' else None) as Hmatch.
  { intros cs'. rewrite legacy_activate_filter.
    etrans; [exact (match_in_filter
                      (λ n, n = LegacyWorker.CACHE_NAME
                            ∨ n = LegacyWorker.API_CACHE) name key cs')|].
    case_bool_decide; [by rewrite decide_True | by rewrite decide_False]. }
  split; [apply Hmatch|]. split.
  - rewrite legacy_activate_filter. unfold Cache.keys. split.
    + intros ([n c] & -> & Hc)%list_elem_of_fmap.
      apply list_elem_of_filter in Hc as [Hkeep Hc]. split; [|exact Hkeep].
      apply list_elem_of_fmap. by exists (n, c).
    + intros [([n c] & -> & Hc)%list_elem_of_fmap Hkeep].
      apply list_elem_of_fmap. exists (n, c). split; [done|].
      by apply list_elem_of_filter.
  - intros net cs1 Hinstall Hkey.
    assert (Cache.match_in LegacyWorker.CACHE_NAME key
              (LegacyWorker.activate cs1)
            = Cache.match_in LegacyWorker.CACHE_NAME key cs1) as ->.
    { rewrite legacy_activate_filter.
      etrans; [exact (match_in_filter
                        (λ n, n = LegacyWorker.CACHE_NAME
                              ∨ n = LegacyWorker.API_CACHE)
                        LegacyWorker.CACHE_NAME key cs1)|].
      by rewrite decide_True by (by left). }
    eapply addAll_holds; [exact Hinstall | apply has_open | exact Hkey].
Qed.

(** X15: in the earlier worker, a static asset that no cache holds and that
    the network delivers with an ok status to a GET request is stored if
    the cache takes the response, and every later request for it is then
    answered with that response without the network being asked, whatever
    the network would do.  A response that [cache.put] refuses, of status
    206 or with a Vary header that has the member [*], is passed on and not
    stored: the asset is still in no cache, and a later request that finds
    the network down is answered with the 404 response.  When the network
    fails on a miss the answer is a 404 response and nothing is stored. *)
Theorem legacy_static_asset_served_from_cache :
  ∀ (req : Cache.FetchRequest) (cs : Cache.Storage) (r : Cache.Response),
    Cache.method req = "GET" →
    Cache.match_ req cs = None →
    Cache.ok r = true →
    let first := LegacyWorker.handleStaticRequest (Cache.Fetched r) req cs in
    first.1 = r ∧
    (if Cache.storable r
     then ∀ net, LegacyWorker.handleStaticRequest net req first.2
                 = (r, first.2)
     else Cache.match_ req first.2 = None ∧
          Cache.status
            (LegacyWorker.handleStaticRequest Cache.NetworkError req
               first.2).1 = 404) ∧
    Cache.status
      (LegacyWorker.handleStaticRequest Cache.NetworkError req cs).1 = 404 ∧
    (LegacyWorker.handleStaticRequest Cache.NetworkError req cs).2 = cs.
Proof.
  intros req cs r Hget Hmiss Hok first. subst first.
  unfold LegacyWorker.handleStaticRequest. rewrite Hmiss, Hok. cbn [fst snd].
  split; [done|]. split; [|by split].
  destruct (Cache.storable r) eqn:Hst.
  - intros net.
    assert (Cache.match_ req (Cache.put LegacyWorker.CACHE_NAME req r cs)
            = Some r) as ->; [|done].
    unfold Cache.match_ in *. rewrite Hget in *.
    cbn [String.eqb Ascii.eqb Bool.eqb] in *.
    apply match_url_put_eq; [exact Hget | exact Hst |].
    intros n c Hin _. by apply (match_url_None _ cs n).
  - assert (Cache.match_ req (Cache.put LegacyWorker.CACHE_NAME req r cs)
            = None) as ->; [|done].
    unfold Cache.match_ in *. rewrite Hget in *.
    cbn [String.eqb Ascii.eqb Bool.eqb] in *.
    rewrite match_url_put_refused by (by right). exact Hmiss.
Qed.

Lemma legacy_static_asset_served_from_cache_witness :
  let logo := Cache.mkResponse 200 [] (Cache.Text "logo") in
  let part := Cache.mkResponse 206 [("Content-Range", "bytes 0-3/4")]
                               (Cache.Text "logo") in
  let req := Cache.mkFetch "/static/images/LOGO.jpg" "GET" "no-cors" in
  let later := λ r,
    (LegacyWorker.handleStaticRequest Cache.NetworkError req
       (LegacyWorker.handleStaticRequest (Cache.Fetched r) req []).2).1 in
  later logo = logo ∧
  Cache.status (later part) = 404 ∧
  Cache.status (LegacyWorker.handleStaticRequest Cache.NetworkError req []).1
  = 404.
Proof.
  intros logo part req later. subst later. cbn beta.
  destruct (legacy_static_asset_served_from_cache req [] logo eq_refl
              eq_refl eq_refl) as (_ & Hlater & H404 & _).
  destruct (legacy_static_asset_served_from_cache req [] part eq_refl
              eq_refl eq_refl) as (_ & Hpart & _).
  split; [|split; [|exact H404]].
  - change (Cache.storable logo) with true in Hlater. cbn iota in Hlater.
    by rewrite (Hlater Cache.NetworkError).
  - change (Cache.storable part) with false in Hpart. cbn iota in Hpart.
    exact (proj2 Hpart).
Defined.

(** X16: in the earlier worker, an API response that the network gives with
    an ok status to a GET request is stored in the API cache, if the cache
    takes the response, and is then the answer to the same request when the
    network fails afterwards, provided no cache of another name holds the
    URL.  A response that [cache.put] refuses, of status 206 or with a Vary
    header that has the member [*], is passed on and not stored: the entry
    of the API cache and the answer to the failing request are what they
    were before.  A response whose status is not ok is passed on and not
    stored. *)
Theorem legacy_api_response_kept_for_offline :
  ∀ (req : Cache.FetchRequest) (cs : Cache.Storage) (r : Cache.Response)
    (now : string),
    Cache.method req = "GET" →
    Cache.ok r = true →
    (∀ n c, (n, c) ∈ cs → n ≠ LegacyWorker.API_CACHE →
            c !! Cache.url req = None) →
    let first := LegacyWorker.handleAPIRequest (Cache.Fetched r) now req cs in
    first.1 = r ∧
    Cache.match_in LegacyWorker.API_CACHE (Cache.url req) first.2
    = (if Cache.storable r then Some r
       else Cache.match_in LegacyWorker.API_CACHE (Cache.url req) cs) ∧
    (∀ later,
       LegacyWorker.handleAPIRequest Cache.NetworkError later req first.2
       = (if Cache.storable r then r
          else (LegacyWorker.handleAPIRequest Cache.NetworkError later req
                  cs).1,
          first.2)) ∧
    (∀ bad, Cache.ok bad = false →
            LegacyWorker.handleAPIRequest (Cache.Fetched bad) now req cs
            = (bad, cs)).
Proof.
  intros req cs r now Hget Hok Hothers first. subst first.
  unfold LegacyWorker.handleAPIRequest. rewrite Hok. cbn [fst snd].
  split; [done|].
  destruct (Cache.storable r) eqn:Hst.
  - split; [by apply match_in_put_eq|]. split.
    + intros later.
      assert (Cache.match_ req (Cache.put LegacyWorker.API_CACHE req r cs)
              = Some r) as ->; [|done].
      unfold Cache.match_. rewrite Hget.
      cbn [String.eqb Ascii.eqb Bool.eqb].
      by apply match_url_put_eq.
    + intros bad Hbad. by rewrite Hbad.
  - split; [apply match_in_put_refused; by right|]. split.
    + intros later.
      assert (Cache.match_ req (Cache.put LegacyWorker.API_CACHE req r cs)
              = Cache.match_ req cs) as ->.
      { unfold Cache.match_. rewrite Hget.
        cbn [String.eqb Ascii.eqb Bool.eqb].
        apply match_url_put_refused. by right. }
      by destruct (Cache.match_ req cs).
    + intros bad Hbad. by rewrite Hbad.
Qed.

(** A static cache that holds the URL hides the API cache from
    [caches.match]. *)
Lemma legacy_api_response_kept_for_offline_witness :
  let fresh := Cache.mkResponse 200 [] (Cache.Text "fresh") in
  let part := Cache.mkResponse 206 [("Content-Range", "bytes 0-4/5")]
                               (Cache.Text "fresh") in
  let stale := Cache.mkResponse 200 [] (Cache.Text "stale") in
  let req := Cache.mkFetch "/api/products/" "GET" "cors" in
  let now := "2024-05-01T10:00:00.000Z" in
  let shadowed : Cache.Storage :=
    [("fieldmax-v1", {["/api/products/" := stale]})] in
  let later := λ r cs,
    (LegacyWorker.handleAPIRequest Cache.NetworkError now req
       (LegacyWorker.handleAPIRequest (Cache.Fetched r) now req cs).2).1 in
  later fresh [("fieldmax-v1", ∅)] = fresh ∧
  later part [("fieldmax-v1", ∅)] = LegacyWorker.offline_response now ∧
  later fresh shadowed = stale.
Proof.
  intros fresh part stale req now shadowed later. subst later. cbn beta.
  split; [|split; [|vm_compute; reflexivity]].
  - assert (∀ n c,
              (n, c) ∈ [("fieldmax-v1", (∅ : gmap string Cache.Response))]
              → n ≠ LegacyWorker.API_CACHE →
              c !! Cache.url req = None) as Hothers.
    { intros n c Hin _. apply list_elem_of_singleton in Hin.
      injection Hin as -> ->. apply lookup_empty. }
    destruct (legacy_api_response_kept_for_offline req _ fresh now eq_refl
                eq_refl Hothers) as (_ & _ & Hlater & _).
    by rewrite (Hlater now).
  - assert (∀ n c,
              (n, c) ∈ [("fieldmax-v1", (∅ : gmap string Cache.Response))]
              → n ≠ LegacyWorker.API_CACHE →
              c !! Cache.url req = None) as Hothers.
    { intros n c Hin _. apply list_elem_of_singleton in Hin.
      injection Hin as -> ->. apply lookup_empty. }
    destruct (legacy_api_response_kept_for_offline req _ part now eq_refl
                eq_refl Hothers) as (_ & _ & Hlater & _).
    by rewrite (Hlater now).
Defined.

(** X17: in the earlier worker a navigation request is always answered and
    no entry of any cache changes: with the network response when there is
    one, and else with the offline page when the static cache holds it, as
    it does after an install that succeeded, and else with a plain text of
    status 200. *)
Theorem legacy_navigation_always_answered :
  ∀ (net : Cache.fetch_result) (cs : Cache.Storage),
    let answer := LegacyWorker.handleNavigationRequest net cs in
    (∀ name key,
       Cache.match_in name key answer.2 = Cache.match_in name key cs) ∧
    answer.1
    = match net, Cache.match_in LegacyWorker.CACHE_NAME
                   LegacyWorker.OFFLINE_URL cs with
      | Cache.Fetched response, _ => response
      | Cache.NetworkError, Some page => page
      | Cache.NetworkError, None =>
          LegacyWorker.text_response 200
            "Offline - Please check your connection"
      end ∧
    (∀ fetched cs0 ws,
       LegacyWorker.install fetched cs0 = Ok cs →
       is_Some (Cache.match_in LegacyWorker.CACHE_NAME
                  LegacyWorker.OFFLINE_URL
                  (apply_writes ws (LegacyWorker.activate cs)))).
Proof.
  intros net cs answer. subst answer.
  unfold LegacyWorker.handleNavigationRequest. split; [|split].
  - intros name key. destruct net; [done|]. apply match_in_open.
  - destruct net as [response|]; [done|]. cbn [fst].
    rewrite match_in_open.
    by destruct (Cache.match_in LegacyWorker.CACHE_NAME
                   LegacyWorker.OFFLINE_URL cs).
  - intros fetched cs0 ws Hinstall. apply holds_apply_writes.
    unfold holds. rewrite legacy_activate_filter.
    assert (Cache.match_in LegacyWorker.CACHE_NAME LegacyWorker.OFFLINE_URL
              (filter (λ c, c.1 = LegacyWorker.CACHE_NAME
                            ∨ c.1 = LegacyWorker.API_CACHE) cs)
            = Cache.match_in LegacyWorker.CACHE_NAME
                LegacyWorker.OFFLINE_URL cs) as ->.
    { etrans; [exact (match_in_filter
                        (λ n, n = LegacyWorker.CACHE_NAME
                              ∨ n = LegacyWorker.API_CACHE)
                        LegacyWorker.CACHE_NAME LegacyWorker.OFFLINE_URL
                        cs)|].
      by rewrite decide_True by (by left). }
    eapply addAll_holds; [exact Hinstall | apply has_open |].
    unfold LegacyWorker.STATIC_CACHE_URLS.
    repeat (first [apply list_elem_of_here | apply list_elem_of_further]).
Qed.

(** X18: on the message CLEAR_CACHE the earlier worker deletes every cache,
    so that nothing can be found afterwards: an API request that fails is
    then answered with the 503 response and a static request that fails
    with the 404 response.  The message SKIP_WAITING calls [skipWaiting]
    and leaves the caches alone, and so does every other message. *)
Theorem legacy_clear_cache_message :
  ∀ (cs : Cache.Storage) (message : LocalManager.Message)
    (req : Cache.FetchRequest) (now : string),
    let after := LegacyWorker.on_message (Some message) cs in
    LegacyWorker.on_message None cs = (false, cs) ∧
    after.1 = bool_decide (LocalManager.type message = "SKIP_WAITING") ∧
    (LocalManager.type message ≠ "CLEAR_CACHE" ∧ after.2 = cs ∨
     LocalManager.type message = "CLEAR_CACHE" ∧ after.2 = [] ∧
     Cache.match_ req after.2 = None ∧
     (LegacyWorker.handleAPIRequest Cache.NetworkError now req after.2).1
     = LegacyWorker.offline_response now ∧
     Cache.status
       (LegacyWorker.handleStaticRequest Cache.NetworkError req after.2).1
     = 404).
Proof.
  intros cs message req now after. subst after.
  unfold LegacyWorker.on_message. cbn [fst snd].
  split; [done|]. split.
  - destruct (String.eqb_spec (LocalManager.type message) "SKIP_WAITING").
    + by rewrite bool_decide_eq_true_2.
    + by rewrite bool_decide_eq_false_2.
  - destruct (String.eqb_spec (LocalManager.type message) "CLEAR_CACHE");
      [right | by left].
    rewrite clear_all. split; [done|]. split; [done|].
    assert (Cache.match_ req [] = None) as Hnone.
    { unfold Cache.match_. by destruct (String.eqb _ _). }
    split; [exact Hnone|].
    unfold LegacyWorker.handleAPIRequest, LegacyWorker.handleStaticRequest.
    rewrite Hnone. by split.
Qed.

(** X19: the background sync of the earlier worker sends no queued request
    itself: it posts to [/api/sync-offline-queue/] and broadcasts
    SYNC_STARTED followed by SYNC_COMPLETED when the answer is ok, and by
    SYNC_FAILED otherwise.  A client of the localStorage controller that
    receives the broadcast drops its whole queue, in memory and in
    localStorage, in the first case and keeps it in the second. *)
Theorem legacy_sync_broadcast_and_client :
  ∀ (net : Cache.fetch_result) (net_message tag : string) (started ended : Z)
    (om : LocalManager.OfflineManager),
    let messages :=
      LegacyWorker.syncOfflineData net net_message started ended in
    let answered_ok :=
      match net with
      | Cache.Fetched response => Cache.ok response
      | Cache.NetworkError => false
      end in
    LocalManager.type <$> messages
    = ["SYNC_STARTED";
       if answered_ok then "SYNC_COMPLETED" else "SYNC_FAILED"] ∧
    deliver messages om
    = (if answered_ok
       then LocalManager.saveQueue (LocalManager.set_offlineQueue [] om)
       else om) ∧
    LegacyWorker.on_sync tag net net_message started ended
    = (if String.eqb tag "sync-offline-data" then messages else []).
Proof.
  intros net net_message tag started ended om messages answered_ok.
  subst messages answered_ok. unfold LegacyWorker.syncOfflineData.
  split; [|split]; [| |reflexivity].
  - destruct net as [response|]; [destruct (Cache.ok response)|]; reflexivity.
  - destruct net as [response|]; [destruct (Cache.ok response)|]; reflexivity.
Qed.

(** ** The localStorage controller *)

Section LocalPass.
Import LocalManager.

Lemma process_queue_report net queueCopy q res calls :
  (process_queue net queueCopy q res calls).1.2
  = mkResults
      (success res
       + Z.of_nat (length (filter (λ r, confirmed (net r)) queueCopy)))
      (failed res
       + Z.of_nat (length (filter (λ r, ¬ confirmed (net r)) queueCopy)))
      (total res) ∧
  (process_queue net queueCopy q res calls).2 = calls ++ queueCopy.
Proof.
  revert q res calls. induction queueCopy as [|r rest IH];
    intros q res calls.
  - simpl. rewrite !Z.add_0_r, app_nil_r. by destruct res.
  - cbn [process_queue]. destruct (net r) as [|msg] eqn:Hnet.
    + destruct (IH q (mkResults (success res + 1) (failed res) (total res))
                  (calls ++ [r])) as [-> ->].
      rewrite filter_cons_True by (rewrite Hnet; simpl; tauto).
      rewrite filter_cons_False by (rewrite Hnet; simpl; tauto).
      rewrite <- app_assoc. simpl. split; [f_equal; lia | done].
    + cbn zeta.
      destruct (IH (if retries (set_retries (retries r + 1) r) <? 3
                    then q ++ [set_retries (retries r + 1) r] else q)
                  (mkResults (success res) (failed res + 1) (total res))
                  (calls ++ [r])) as [-> ->].
      rewrite filter_cons_False by (rewrite Hnet; simpl; tauto).
      rewrite filter_cons_True by (rewrite Hnet; simpl; tauto).
      rewrite <- app_assoc. simpl. split; [f_equal; lia | done].
Qed.

Lemma length_filter_split {A} (P : A → Prop) `{!∀ x, Decision (P x)}
    (l : list A) :
  (length (filter P l) + length (filter (λ x, ¬ P x) l) = length l)%nat.
Proof.
  induction l as [|x l IH]; [done|].
  destruct (decide (P x)) as [HP|HP].
  - rewrite filter_cons_True by exact HP.
    rewrite filter_cons_False by tauto. simpl. lia.
  - rewrite filter_cons_False by exact HP.
    rewrite filter_cons_True by exact HP. simpl. lia.
Qed.

Lemma local_pass_calls net q stored :
  q ≠ [] →
  ∃ res bg,
    (syncOfflineData net (mkManager true q false stored)).2
    = Synced res q bg.
Proof.
  intros Hq. destruct q as [|r q]; [done|]. unfold syncOfflineData.
  cbn [offlineQueue set_syncInProgress set_offlineQueue isOnline
       syncInProgress LocalManager.stored orb negb].
  change (length (r :: q) =? 0)%nat with false. cbn iota.
  pose proof (process_queue_report net (r :: q) []
                (mkResults 0 0 (Z.of_nat (length (r :: q)))) [])
    as [_ Hcalls].
  destruct (process_queue net (r :: q) [] _ []) as [[q' res] calls].
  cbn [fst snd app] in *. subst calls. eauto.
Qed.

End LocalPass.

(** X20: a pass of the localStorage controller over a queue that is not
    empty calls [processQueuedRequest] once on every queued request, in
    the order in which they were queued.  Its results count the confirmed
    calls as [success] and all the others as [failed], so that the two add
    up to [total], the length of the queue; it asks for a background sync
    exactly when a request is left in the queue, and it clears the
    flag. *)
Theorem local_pass_report :
  ∀ (net : LocalManager.QueuedRequest → outcome)
    (q : list LocalManager.QueuedRequest)
    (stored : option (list LocalManager.QueuedRequest)),
    q ≠ [] →
    let after :=
      LocalManager.syncOfflineData net
        (LocalManager.mkManager true q false stored) in
    let done := Z.of_nat (length (filter (λ r, confirmed (net r)) q)) in
    after.2
    = LocalManager.Synced
        (LocalManager.mkResults done (Z.of_nat (length q) - done)
           (Z.of_nat (length q)))
        q (bool_decide (LocalManager.offlineQueue after.1 ≠ [])) ∧
    LocalManager.syncInProgress after.1 = false ∧
    LocalManager.isOnline after.1 = true.
Proof.
  intros net q stored Hq after done. subst after done.
  destruct q as [|r q]; [done|].
  unfold LocalManager.syncOfflineData.
  cbn [LocalManager.offlineQueue LocalManager.set_syncInProgress
       LocalManager.set_offlineQueue LocalManager.isOnline
       LocalManager.syncInProgress LocalManager.stored orb negb].
  change (length (r :: q) =? 0)%nat with false. cbn iota.
  pose proof (process_queue_report net (r :: q) []
                (LocalManager.mkResults 0 0 (Z.of_nat (length (r :: q)))) [])
    as [Hres Hcalls].
  destruct (LocalManager.process_queue net (r :: q) [] _ [])
    as [[q' res] calls].
  cbn [fst snd] in *. subst res calls.
  cbn [LocalManager.success LocalManager.failed LocalManager.total
       LocalManager.offlineQueue LocalManager.saveQueue
       LocalManager.set_offlineQueue LocalManager.set_syncInProgress
       LocalManager.syncInProgress LocalManager.isOnline app].
  split; [|done]. f_equal.
  - f_equal. pose proof (length_filter_split (λ x, confirmed (net x))
                           (r :: q)) as Hsplit. lia.
  - destruct q' as [|x q']; [done|]. symmetry.
    by apply bool_decide_eq_true_2.
Qed.

Lemma local_pass_report_witness :
  let net := λ r : LocalManager.QueuedRequest,
    if String.eqb (LocalManager.url r) "/api/payments/"
    then Rejected "HTTP 500" else Fulfilled in
  let a := LocalManager.mkQueued "1700000000000-a7c1m4p8w" "POST"
             "/api/orders/" None 1700000000000 0 in
  let b := LocalManager.mkQueued "1700000000001-zk3j9x0q2" "POST"
             "/api/payments/" None 1700000000001 0 in
  ∃ bg, (LocalManager.syncOfflineData net
           (LocalManager.mkManager true [a; b] false None)).2
        = LocalManager.Synced (LocalManager.mkResults 1 1 2) [a; b] bg.
Proof.
  intros net a b.
  assert ([a; b] ≠ []) as Hq by discriminate.
  destruct (local_pass_report net [a; b] None Hq) as [Hreport _].
  eexists. rewrite Hreport. reflexivity.
Defined.

Section LocalSaved.
Import LocalManager.

Lemma saved_sync net om : saved om → saved (syncOfflineData net om).1.
Proof.
  intros Hom. unfold syncOfflineData.
  destruct (syncInProgress om || negb (isOnline om)); [exact Hom|].
  destruct (length (offlineQueue om) =? 0)%nat; [exact Hom|].
  cbn zeta.
  destruct (process_queue net _ _ _ []) as [[q res] calls].
  by split.
Qed.

Lemma fst_sync_report net om :
  (let '(om', report) := syncOfflineData net om in (om', Some report)).1
  = (syncOfflineData net om).1.
Proof. by destruct (syncOfflineData net om). Qed.

Lemma saved_apply o om : saved om → saved (local_apply o om).
Proof.
  intros Hom. destruct o as [net| |new_id now m u dt|net|message]; simpl.
  - unfold handleOnline. cbn zeta.
    destruct (0 <? length (offlineQueue (set_isOnline true om)))%nat.
    + rewrite fst_sync_report. by apply saved_sync.
    + exact Hom.
  - exact Hom.
  - destruct Hom as [_ Hflag]. by split.
  - by apply saved_sync.
  - unfold handleServiceWorkerMessage.
    destruct (String.eqb (type message) "SYNC_STARTED"); [exact Hom|].
    destruct (String.eqb (type message) "SYNC_COMPLETED").
    + destruct Hom as [_ Hflag]. by split.
    + by destruct (String.eqb (type message) "SYNC_FAILED").
Qed.

Lemma saved_load online stored net : saved (local_load online stored net).
Proof.
  unfold local_load, init.
  assert (saved (construct online stored)) as Hc by (by split).
  destruct (isOnline (construct online stored)
            && (0 <? length (offlineQueue (construct online stored)))%nat).
  - rewrite fst_sync_report. by apply saved_sync.
  - exact Hc.
Qed.

End LocalSaved.

(** X21: between the calls that the localStorage controller completes, the
    queue in localStorage is the queue in memory.  After a page load and
    any sequence of connectivity events, enqueues, sync calls and worker
    messages, a reload in the same connectivity state gives the controller
    as it is; in particular a request that [queueRequest] has accepted is at
    the end of the queue after a reload. *)
Theorem local_queue_survives_reload :
  ∀ (online : bool) (stored : option (list LocalManager.QueuedRequest))
    (net : LocalManager.QueuedRequest → outcome) (ops : list local_op)
    (new_id method url : string) (now : Z) (data : option string),
    let om := local_run ops (local_load online stored net) in
    LocalManager.construct (LocalManager.isOnline om) (LocalManager.stored om)
    = om ∧
    LocalManager.offlineQueue
      (LocalManager.construct online
         (LocalManager.stored
            (LocalManager.queueRequest new_id now method url data om).2))
    = LocalManager.offlineQueue om
      ++ [LocalManager.mkQueued new_id method url data now 0].
Proof.
  intros online stored net ops new_id method url now data om.
  assert (saved om) as [Hq Hflag].
  { subst om. generalize (saved_load online stored net).
    generalize (local_load online stored net).
    induction ops as [|o ops IH]; intros om Hom; [exact Hom|].
    simpl. apply IH. by apply saved_apply. }
  split; [|reflexivity].
  unfold LocalManager.construct. rewrite Hq.
  destruct om as [b q flag st]. simpl in *. by subst flag.
Qed.

(** X22: while the controller is offline no call of [syncOfflineData] and
    no page load sends anything: the guard returns at once.
    [handleOnline] sets the flag and, when requests are queued and no pass
    is in progress, runs a pass over the whole queue; with an empty queue
    it starts none. *)
Theorem local_connectivity_gates_sync :
  ∀ (net : LocalManager.QueuedRequest → outcome)
    (om : LocalManager.OfflineManager),
    LocalManager.syncOfflineData net (LocalManager.handleOffline om)
    = (LocalManager.handleOffline om, LocalManager.Skipped) ∧
    LocalManager.init net (LocalManager.handleOffline om)
    = (LocalManager.handleOffline om, None) ∧
    LocalManager.isOnline (LocalManager.handleOnline net om).1 = true ∧
    (LocalManager.offlineQueue om = [] →
     LocalManager.handleOnline net om
     = (LocalManager.set_isOnline true om, None)) ∧
    (LocalManager.offlineQueue om ≠ [] →
     LocalManager.syncInProgress om = false →
     ∃ res bg,
       (LocalManager.handleOnline net om).2
       = Some (LocalManager.Synced res (LocalManager.offlineQueue om) bg)).
Proof.
  intros net om. split; [|split; [|split; [|split]]].
  - unfold LocalManager.syncOfflineData, LocalManager.handleOffline. simpl.
    by rewrite orb_true_r.
  - reflexivity.
  - unfold LocalManager.handleOnline. cbn zeta.
    destruct (0 <? length _)%nat; [|done].
    rewrite fst_sync_report. unfold LocalManager.syncOfflineData.
    destruct (LocalManager.syncInProgress _ || negb _); [done|].
    destruct (length _ =? 0)%nat; [done|]. cbn zeta.
    by destruct (LocalManager.process_queue net _ _ _ []) as [[q res] calls].
  - intros Hq. unfold LocalManager.handleOnline. simpl. by rewrite Hq.
  - intros Hq Hflag. destruct om as [b q flag st]. simpl in *. subst flag.
    destruct (local_pass_calls net q st Hq) as (res & bg & Hreport).
    unfold LocalManager.handleOnline, LocalManager.set_isOnline. cbn zeta.
    cbn [LocalManager.offlineQueue LocalManager.syncInProgress
         LocalManager.stored].
    destruct q as [|r q]; [done|].
    change (0 <? length (r :: q))%nat with true. cbn iota.
    destruct (LocalManager.syncOfflineData net
                (LocalManager.mkManager true (r :: q) false st))
      as [om' report].
    simpl in Hreport. subst report. eauto.
Qed.

(** ** Cookies and the network call of the localStorage controller *)

Section Cookies.
Import JsString.

Lemma app_cons c s t : String c s +:+ t = String c (s +:+ t).
Proof. reflexivity. Qed.

Lemma app_empty t : "" +:+ t = t.
Proof. reflexivity. Qed.

Lemma all_chars_app p s t :
  all_chars p (s +:+ t) = all_chars p s && all_chars p t.
Proof.
  induction s as [|c s IH]; [done|].
  rewrite app_cons. simpl. by rewrite IH, andb_assoc.
Qed.

Lemma all_chars_impl (p q : ascii → bool) s :
  (∀ c, p c = true → q c = true) →
  all_chars p s = true → all_chars q s = true.
Proof.
  intros Hpq. induction s as [|c s IH]; [done|]. simpl.
  intros [Hc Hs]%andb_true_iff. rewrite (Hpq c Hc). by apply IH.
Qed.

Lemma split_no_sep sep s :
  all_chars (λ c, negb (Ascii.eqb c sep)) s = true → split sep s = [s].
Proof.
  induction s as [|c s IH]; [done|]. simpl.
  intros [Hc Hs]%andb_true_iff. apply negb_true_iff in Hc.
  by rewrite Hc, (IH Hs).
Qed.

Lemma split_app sep s t :
  all_chars (λ c, negb (Ascii.eqb c sep)) s = true →
  split sep (s +:+ String sep t) = s :: split sep t.
Proof.
  induction s as [|c s IH].
  - intros _. rewrite app_empty. simpl. by rewrite Ascii.eqb_refl.
  - cbn [all_chars]. intros [Hc Hs]%andb_true_iff.
    apply negb_true_iff in Hc.
    rewrite app_cons. cbn [split]. by rewrite Hc, (IH Hs).
Qed.

Lemma trim_plain s :
  all_chars (λ c, negb (is_space c)) s = true → trim s = s.
Proof.
  intros Hs. unfold trim.
  assert (trim_start s = s) as ->.
  { destruct s as [|c s]; [done|]. simpl in *.
    apply andb_true_iff in Hs as [Hc _]. apply negb_true_iff in Hc.
    by rewrite Hc. }
  induction s as [|c s IH]; [done|]. simpl in *.
  apply andb_true_iff in Hs as [Hc Hs]. apply negb_true_iff in Hc.
  rewrite (IH Hs), Hc. by destruct s.
Qed.

Lemma trim_leading_space s : trim (String " " s) = trim s.
Proof. reflexivity. Qed.

Lemma take_app_name name t k :
  take (String.length name + k) (name +:+ t) = name +:+ take k t.
Proof.
  induction name as [|c name IH]; [done|].
  rewrite !app_cons. simpl. by rewrite IH.
Qed.

Lemma drop_app_name name t k :
  drop (String.length name + k) (name +:+ t) = drop k t.
Proof.
  induction name as [|c name IH]; [done|].
  rewrite app_cons. simpl. exact IH.
Qed.

(** A cookie starts with the name and an equals sign only when the name is
    its own. *)
Lemma starts_with_name name n v :
  all_chars (λ c, negb (Ascii.eqb c "=")) name = true →
  all_chars (λ c, negb (Ascii.eqb c "=")) n = true →
  take (String.length name + 1) (n +:+ "=" +:+ v) = name +:+ "=" →
  n = name.
Proof.
  revert n. induction name as [|d name IH]; intros n Hname Hn.
  - destruct n as [|c n]; [done|]. rewrite app_cons. simpl.
    intros [= Hc]. simpl in Hn. apply andb_true_iff in Hn as [Hc' _].
    subst c. discriminate.
  - simpl in Hname. apply andb_true_iff in Hname as [Hd Hname].
    destruct n as [|c n].
    + rewrite app_empty, !app_cons. simpl. intros [= Hc _].
      subst d. discriminate.
    + simpl in Hn. apply andb_true_iff in Hn as [Hc Hn].
      rewrite !app_cons. simpl. intros [= -> Hrest].
      f_equal. by apply IH.
Qed.

Lemma cookie_plain_no_semicolon s :
  cookie_plain s = true →
  all_chars (λ c, negb (Ascii.eqb c ";")) s = true.
Proof.
  apply all_chars_impl. intros c Hc. by apply andb_true_iff in Hc as [Hc _].
Qed.

Lemma cookie_plain_no_space s :
  cookie_plain s = true → all_chars (λ c, negb (is_space c)) s = true.
Proof.
  apply all_chars_impl. intros c Hc. by apply andb_true_iff in Hc as [_ Hc].
Qed.

Lemma cookie_pair_chars p n v :
  p "="%char = true →
  all_chars p n = true → all_chars p v = true →
  all_chars p (cookie_pair (n, v)) = true.
Proof.
  intros Heq Hn Hv. unfold cookie_pair. cbn [fst snd].
  rewrite all_chars_app. change ("=" +:+ v) with (String "=" v).
  cbn [all_chars]. by rewrite Hn, Heq, Hv.
Qed.

Lemma cookie_ok_name nv :
  cookie_ok nv →
  cookie_plain nv.1 = true ∧
  all_chars (λ c, negb (Ascii.eqb c "=")) nv.1 = true.
Proof. intros [Hn _]. by apply andb_true_iff in Hn. Qed.

Lemma cookie_pair_no_semicolon nv :
  cookie_ok nv →
  all_chars (λ c, negb (Ascii.eqb c ";")) (cookie_pair nv) = true.
Proof.
  destruct nv as [n v]. intros Hok.
  destruct (cookie_ok_name _ Hok) as [Hn _]. destruct Hok as [_ Hv].
  apply cookie_pair_chars; [done | |]; by apply cookie_plain_no_semicolon.
Qed.

Lemma cookie_pair_no_space nv :
  cookie_ok nv →
  all_chars (λ c, negb (is_space c)) (cookie_pair nv) = true.
Proof.
  destruct nv as [n v]. intros Hok.
  destruct (cookie_ok_name _ Hok) as [Hn _]. destruct Hok as [_ Hv].
  apply cookie_pair_chars; [done | |]; by apply cookie_plain_no_space.
Qed.

(** The pieces of the cookie string: the first cookie, and every other
    cookie behind a space. *)
Lemma split_cookie_string nv rest :
  Forall cookie_ok (nv :: rest) →
  split ";" (cookie_string (nv :: rest))
  = cookie_pair nv :: ((λ x, String " " (cookie_pair x)) <$> rest).
Proof.
  revert nv. induction rest as [|nv' rest IH]; intros nv Hok.
  - apply Forall_cons in Hok as [Hnv _]. simpl.
    by apply split_no_sep, cookie_pair_no_semicolon.
  - apply Forall_cons in Hok as [Hnv Hrest].
    change (cookie_string (nv :: nv' :: rest))
      with (cookie_pair nv
            +:+ String ";" (String " " (cookie_string (nv' :: rest)))).
    rewrite split_app by (by apply cookie_pair_no_semicolon).
    f_equal. cbn [split]. change (Ascii.eqb " " ";") with false. cbn iota.
    by rewrite (IH nv' Hrest).
Qed.

Lemma cookie_loop_pieces decode name pieces jar :
  all_chars (λ c, negb (Ascii.eqb c "=")) name = true →
  Forall2 (λ piece nv, trim piece = cookie_pair nv) pieces jar →
  Forall cookie_ok jar →
  LocalManager.cookie_loop decode name pieces
  = match cookie_value name jar with
    | Some v => match decode v with
                | Ok value => Ok (Some value)
                | Err e => Err e
                end
    | None => Ok None
    end.
Proof.
  intros Hname Hpieces. induction Hpieces as [|piece [n v] pieces jar Hp _ IH];
    intros Hok; [done|].
  apply Forall_cons in Hok as [Hnv Hok].
  cbn [LocalManager.cookie_loop cookie_value]. rewrite Hp.
  destruct (cookie_ok_name _ Hnv) as [_ Hn]. simpl in Hn.
  destruct (String.eqb_spec n name) as [->|Hne].
  - unfold cookie_pair. simpl.
    rewrite take_app_name, drop_app_name.
    change (take 1 ("=" +:+ v)) with "=". change (drop 1 ("=" +:+ v)) with v.
    by rewrite String.eqb_refl.
  - destruct (String.eqb_spec
                (take (String.length name + 1) (cookie_pair (n, v)))
                (name +:+ "=")) as [Heq|_]; [|by apply IH].
    exfalso. apply Hne. by apply (starts_with_name name n v).
Qed.

End Cookies.

(** X23: on the cookie string of a jar of cookies whose names and values
    hold neither semicolon nor white space, [getCookie] delivers for a
    name with no equals sign the decoded value of the first cookie of that
    name, and [null] when the jar holds none; when [decodeURIComponent]
    throws on that value, so does [getCookie].  A cookie whose name only
    ends with the name asked for is not taken for it. *)
Theorem getCookie_reads_first_cookie :
  ∀ (decode : string → result string) (jar : list (string * string))
    (name : string),
    Forall (λ nv, cookie_token nv.1 = true ∧ cookie_plain nv.2 = true) jar →
    cookie_token name = true →
    LocalManager.getCookie decode name (cookie_string jar)
    = match cookie_value name jar with
      | Some v => match decode v with
                  | Ok value => Ok (Some value)
                  | Err e => Err e
                  end
      | None => Ok None
      end.
Proof.
  intros decode jar name Hjar Hname.
  apply andb_true_iff in Hname as [_ Hname].
  unfold LocalManager.getCookie.
  destruct jar as [|nv rest]; [done|].
  assert (String.eqb (cookie_string (nv :: rest)) "" = false) as ->.
  { apply String.eqb_neq. destruct nv as [n v].
    destruct rest; destruct n; discriminate. }
  rewrite split_cookie_string by exact Hjar.
  apply cookie_loop_pieces; [exact Hname | | exact Hjar].
  apply Forall_cons in Hjar as [Hnv Hrest]. constructor.
  - by apply trim_plain, cookie_pair_no_space.
  - apply Forall2_fmap_l, Forall_Forall2_diag.
    eapply Forall_impl; [exact Hrest|]. intros x Hx.
    change (JsString.trim (String " " (cookie_pair x)) = cookie_pair x).
    rewrite trim_leading_space. by apply trim_plain, cookie_pair_no_space.
Qed.

Lemma getCookie_reads_first_cookie_witness :
  let jar := [("xcsrftoken", "decoy"); ("csrftoken", "abc123");
              ("csrftoken", "later")] in
  cookie_string jar = "xcsrftoken=decoy; csrftoken=abc123; csrftoken=later" ∧
  LocalManager.getCookie Ok "csrftoken" (cookie_string jar)
  = Ok (Some "abc123") ∧
  LocalManager.getCookie Ok "sessionid" (cookie_string jar) = Ok None.
Proof.
  intros jar.
  assert (Forall (λ nv, cookie_token nv.1 = true ∧ cookie_plain nv.2 = true)
            jar) as Hjar by (repeat constructor).
  split; [reflexivity|]. split.
  - by rewrite (getCookie_reads_first_cookie Ok jar "csrftoken" Hjar eq_refl).
  - by rewrite (getCookie_reads_first_cookie Ok jar "sessionid" Hjar eq_refl).
Defined.

(** X24: [processQueuedRequest] confirms a request only when the status of
    the response is between 200 and 299 and its body is JSON.  A response
    of another status is reported as [HTTP] and the status.  A response
    with an ok status whose body is not JSON, an empty 204 for one, counts
    as a failure: the pass keeps the request with one more attempt, and so
    sends it again, until the third such failure drops it.  Without a
    cookie string the token sent is the text [null]. *)
Theorem processQueuedRequest_confirms_json_only :
  ∀ (decode : string → result string) (document_cookie : string)
    (server : LocalManager.Call → LocalManager.reply)
    (request : LocalManager.QueuedRequest),
    let net := LocalManager.processQueuedRequest decode document_cookie
                 server in
    (confirmed (net request) = true ↔
     ∃ token status text,
       LocalManager.getCookie decode "csrftoken" document_cookie = Ok token ∧
       server (LocalManager.build_call token request)
       = LocalManager.Replied status (Ok text) ∧
       200 ≤ status ≤ 299) ∧
    (∀ token status json,
       LocalManager.getCookie decode "csrftoken" document_cookie = Ok token →
       server (LocalManager.build_call token request)
       = LocalManager.Replied status json →
       (if (200 <=? status) && (status <=? 299)
        then ∀ e, json = Err e →
                  net request = Rejected e ∧
                  local_requeue net request
                  = (if LocalManager.retries request + 1 <? 3
                     then Some (LocalManager.set_retries
                                  (LocalManager.retries request + 1) request)
                     else None)
        else net request = Rejected ("HTTP " +:+ pretty status))) ∧
    LocalManager.processQueuedRequest decode "" server request
    = match server (LocalManager.mkCall (LocalManager.url request)
                      (LocalManager.method request)
                      [("Content-Type", "application/json");
                       ("X-CSRFToken", "null")]
                      (LocalManager.data request)) with
      | LocalManager.Replied status json =>
          LocalManager.processQueuedRequest decode ""
            (λ _, LocalManager.Replied status json) request
      | LocalManager.NoReply message => Rejected message
      end.
Proof.
  intros decode document_cookie server request net. subst net.
  split; [|split].
  - unfold LocalManager.processQueuedRequest. split.
    + destruct (LocalManager.getCookie decode "csrftoken" document_cookie)
        as [token|e]; [|discriminate].
      destruct (server (LocalManager.build_call token request))
        as [status json|message] eqn:Hreply; [|discriminate].
      destruct ((200 <=? status) && (status <=? 299)) eqn:Hok;
        [|discriminate].
      destruct json as [text|e]; [|discriminate]. intros _.
      apply andb_true_iff in Hok as [Hlo Hhi].
      apply Z.leb_le in Hlo, Hhi.
      exists token, status, text. by repeat split.
    + intros (token & status & text & -> & -> & Hlo & Hhi).
      assert ((200 <=? status) && (status <=? 299) = true) as ->; [|done].
      apply andb_true_iff. split; apply Z.leb_le; lia.
  - intros token status json Hcookie Hreply.
    unfold local_requeue, LocalManager.processQueuedRequest.
    rewrite Hcookie, Hreply.
    destruct ((200 <=? status) && (status <=? 299)); [|done].
    by intros e ->.
  - unfold LocalManager.processQueuedRequest, LocalManager.getCookie,
      LocalManager.build_call. simpl.
    by destruct (server _).
Qed.

(** ** The retry bound of the localStorage controller *)

Section RetryBound.
Import LocalManager.

Lemma attempts_left_app key q1 q2 :
  attempts_left key (q1 ++ q2)
  = attempts_left key q1 + attempts_left key q2.
Proof. induction q1 as [|r q1 IH]; simpl; [done|]. rewrite IH. lia. Qed.






End RetryBound.


(** ** Stored priorities *)

Section StoredPriorities.
Import IdbManager.
Variable impl : update_impl.

Lemma own_property_range name n :
  own_property priorities name = Some n → n ∈ [0; 1; 2; 3].
Proof.
  unfold priorities. cbn [own_property].
  repeat (destruct (String.eqb _ name);
          [intros [= <-];
           repeat (first [apply list_elem_of_here
                         | apply list_elem_of_further])|]).
  discriminate.
Qed.

Lemma getPriorityValue_stored name :
  clonable (getPriorityValue name) = true →
  getPriorityValue name ∈ stored_priorities.
Proof.
  unfold getPriorityValue, js_get, stored_priorities.
  destruct (own_property priorities name) as [n|] eqn:Hown.
  - apply own_property_range in Hown. intros _.
    repeat (apply elem_of_cons in Hown as [->|Hown]); simpl;
      try (by apply elem_of_nil in Hown);
      repeat (first [apply list_elem_of_here | apply list_elem_of_further]).
  - case_bool_decide as Hmem; simpl.
    + intros ->%String.eqb_eq.
      repeat (first [apply list_elem_of_here | apply list_elem_of_further]).
    + intros _.
      repeat (first [apply list_elem_of_here | apply list_elem_of_further]).
Qed.

Lemma priorities_ok_delete k d :
  priorities_ok d → priorities_ok (removeFromQueue k d).
Proof. intros [Hq Hf]. split; [by apply map_Forall_delete | exact Hf]. Qed.

Lemma step_priorities_ok ev c :
  consistent c → priorities_ok (db (om c)) →
  priorities_ok (db (om (step impl ev c))).
Proof.
  intros (Hok & Hsnap & Hcount) Hpr.
  destruct ev as [|online|e m u dt pr|i o now]; simpl.
  - by destruct (syncInProgress (om c) || negb (isOnline (om c))).
  - exact Hpr.
  - unfold queueRequest, addToQueue.
    destruct (clonable (priority (make_request e m u dt pr))) eqn:Hclone;
      [|exact Hpr].
    unfold IDB.add.
    destruct (requests (db (om c)) !! id (make_request e m u dt pr));
      [exact Hpr|].
    destruct Hpr as [Hq Hf]. split; [|exact Hf]. simpl.
    apply map_Forall_insert_2; [|exact Hq].
    by apply getPriorityValue_stored.
  - unfold resume. destruct (tasks c !! i) as [p|] eqn:Hi; [|exact Hpr].
    destruct p as [|r rest|r rest|].
    + by rewrite db_next_entry.
    + pose proof (Forall_lookup_1 _ _ _ _ Hsnap Hi) as [_ Hr].
      apply Forall_cons in Hr as [Hr _].
      destruct Hpr as [Hq Hf]. pose proof (Hq _ _ Hr) as Hpriority.
      simpl in Hpriority.
      destruct (begin_entry_cases impl o now r (db (om c)))
        as [[_ ->]|[(msg & _ & Hge & Hnone & ->)|[(msg & _ & Hlt' & _ & ->)
           |(msg & e & _ & ->)]]]; simpl.
      * rewrite db_next_entry. split; [by apply map_Forall_delete|exact Hf].
      * split; [exact Hq|]. simpl. by apply map_Forall_insert_2.
      * rewrite db_next_entry. split; [|exact Hf]. simpl.
        by apply map_Forall_insert_2.
      * by destruct (db (om c)).
    + rewrite db_next_entry. by apply priorities_ok_delete.
    + exact Hpr.
Qed.

Lemma run_priorities_ok evs c :
  consistent c → priorities_ok (db (om c)) →
  priorities_ok (db (om (run impl evs c))).
Proof.
  revert c. induction evs as [|ev evs IH]; intros c Hc Hpr; [exact Hpr|].
  simpl. apply IH; [by apply consistent_step | by apply step_priorities_ok].
Qed.

End StoredPriorities.

(** X26: at every point of every run of the IndexedDB controller, the
    priority of a stored record, in the queue or in the failed store, is 1,
    2 or 3, or the object that the name [__proto__] finds; it is never 0.
    So no record is listed ahead of the records of priority 1, whatever
    class it was queued with. *)
Theorem stored_priority_is_never_zero :
  ∀ (impl : IdbManager.update_impl) (evs : list IdbManager.event)
    (online : bool),
    let c := IdbManager.run impl evs (IdbManager.init online) in
    map_Forall (λ _ r, priority r ∈ stored_priorities ∧ priority r ≠ JNum 0)
               (requests (IdbManager.db (IdbManager.om c))) ∧
    map_Forall (λ _ f, priority (request f) ∈ stored_priorities
                       ∧ priority (request f) ≠ JNum 0)
               (failed (IdbManager.db (IdbManager.om c))) ∧
    Forall (λ r, priority r ∈ [JNum 1; JNum 2; JNum 3])
           (IdbManager.getQueuedRequests (IdbManager.db (IdbManager.om c))).
Proof.
  intros impl evs online c.
  pose proof (consistent_run impl evs _ (consistent_init online)) as Hc.
  assert (priorities_ok (IdbManager.db (IdbManager.om c))) as [Hq Hf].
  { apply run_priorities_ok; [apply consistent_init|].
    split; apply map_Forall_empty. }
  fold c in Hc.
  assert (∀ v, v ∈ stored_priorities → v ≠ JNum 0) as Hnonzero.
  { intros v Hv ->. revert Hv. unfold stored_priorities.
    rewrite !elem_of_cons, elem_of_nil. intros [?|[?|[?|[?|[]]]]]; done. }
  split; [|split].
  - intros k r Hr. split; [by apply (Hq k)|]. apply Hnonzero. by apply (Hq k).
  - intros k f Hk. split; [by apply (Hf k)|]. apply Hnonzero. by apply (Hf k).
  - apply Forall_forall. intros r Hr.
    destruct Hc as ((Hkeyed & _) & _).
    apply elem_of_listing in Hr as [Hstored [p Hp]]; [|exact Hkeyed].
    pose proof (Hq _ _ Hstored) as Hin. simpl in Hin.
    rewrite Hp in *. unfold stored_priorities in Hin.
    rewrite !elem_of_cons, elem_of_nil in Hin.
    rewrite !elem_of_cons, elem_of_nil.
    destruct Hin as [?|[?|[?|[?|[]]]]]; try tauto. discriminate.
Qed.

(** ** What a pass removes *)

Section PassEffect.
Import IdbManager.
Variable impl : update_impl.

Lemma process_entry_confirmed o now r d :
  confirmed o = true →
  process_entry impl o now r d = Continue (removeFromQueue (id r) d) true.
Proof. by destruct o. Qed.

Lemma drain_effect net clock todo d s :
  NoDup (id <$> todo) →
  ∃ done,
    attempted (drain impl net clock todo d s).2 = attempted s ++ done ∧
    done `prefix_of` todo ∧
    (∀ k, k ∉ id <$> done →
          requests (drain impl net clock todo d s).1 !! k
          = requests d !! k) ∧
    (∀ r, r ∈ done → confirmed (net r) = true →
          requests (drain impl net clock todo d s).1 !! id r = None).
Proof.
  revert d s. induction todo as [|r rest IH]; intros d s Hnd.
  - exists []. simpl. rewrite app_nil_r. repeat split; try done.
    intros x Hx. by apply elem_of_nil in Hx.
  - rewrite fmap_cons in Hnd. apply NoDup_cons in Hnd as [Hr Hnd].
    rewrite drain_cons.
    pose proof (process_entry_synced impl (net r) (clock r) r d) as Hsync.
    pose proof (λ k, process_entry_other impl (net r) (clock r) r d k)
      as Hother.
    pose proof (process_entry_confirmed (net r) (clock r) r d) as Hconf.
    destruct (process_entry impl (net r) (clock r) r d) as [d1 synced|d1 e].
    + destruct (IH d1 (tally r synced s) Hnd)
        as (done & Hatt & Hpre & Hfoot & Hgone).
      exists (r :: done). simpl in Hatt. rewrite Hatt, <- app_assoc.
      split; [done|]. split; [by apply prefix_cons|].
      assert (id r ∉ id <$> done) as Hfresh.
      { intros Hin. apply Hr. destruct Hpre as [tl ->].
        rewrite fmap_app. apply elem_of_app. by left. }
      split.
      * intros k. rewrite fmap_cons, not_elem_of_cons. intros [Hk Hdone].
        rewrite (Hfoot k Hdone). by apply Hother.
      * intros x [->|Hx]%elem_of_cons Hc; [|by apply Hgone].
        rewrite (Hfoot _ Hfresh). specialize (Hconf Hc).
        injection Hconf as -> _. simpl. apply lookup_delete_eq.
    + exists [r]. simpl. split; [done|].
      split; [apply prefix_cons, prefix_nil|]. split.
      * intros k. rewrite not_elem_of_cons. intros [Hk _]. by apply Hother.
      * intros x ->%list_elem_of_singleton Hc. congruence.
Qed.

End PassEffect.

(** X27: after an uninterrupted pass of the IndexedDB controller, every
    request whose call of [processQueuedRequest] was confirmed is out of the
    queue, and whatever the queue holds under an id that the pass did not
    attempt is as it was before; the requests attempted are the snapshot in
    order, up to the request whose handling ended the pass, if any. *)
Theorem pass_removes_confirmed_requests :
  ∀ (impl : IdbManager.update_impl) (net : Request → outcome)
    (clock : Request → Z) (d : DB),
    keyed d →
    let after := IdbManager.syncOfflineData impl net clock
                   (IdbManager.mkManager true false d) in
    ∃ s, after.2 = Some s ∧
         IdbManager.attempted s `prefix_of` IdbManager.getQueuedRequests d ∧
         (∀ r, r ∈ IdbManager.attempted s → confirmed (net r) = true →
               requests (IdbManager.db after.1) !! id r = None) ∧
         (∀ k, k ∉ id <$> IdbManager.attempted s →
               requests (IdbManager.db after.1) !! k = requests d !! k).
Proof.
  intros impl net clock d [Hkeyed _] after. subst after.
  unfold IdbManager.syncOfflineData. simpl.
  assert (NoDup (id <$> IdbManager.getQueuedRequests d)) as Hnd.
  { unfold IdbManager.getQueuedRequests.
    rewrite getQueuedRequests_limit_take, fmap_take.
    eapply sublist_NoDup; [|apply sublist_take].
    by apply index_cursor_ids_NoDup. }
  destruct (drain_effect impl net clock (IdbManager.getQueuedRequests d) d
              IdbManager.summary0 Hnd)
    as (done & Hatt & Hpre & Hfoot & Hgone).
  destruct (IdbManager.drain impl net clock (IdbManager.getQueuedRequests d)
              d IdbManager.summary0) as [d' s'].
  simpl in *. subst done. exists s'. by repeat split.
Qed.

Lemma pass_removes_confirmed_requests_witness :
  let net := λ r : Request,
    if String.eqb (url r) "/api/payments/" then Rejected "HTTP 500"
    else Fulfilled in
  let a := mkRequest "1700000000000-a7c1m4p8w" "POST" "/api/orders/" None
                     1700000000000 (JNum 1) 0 3 in
  let b := mkRequest "1700000000001-zk3j9x0q2" "POST" "/api/payments/" None
                     1700000000001 (JNum 2) 0 3 in
  let d := mkDB {[ id a := a; id b := b ]} ∅ in
  let after := IdbManager.syncOfflineData IdbManager.UpdatePut net (λ _, 0)
                 (IdbManager.mkManager true false d) in
  keyed d ∧
  requests (IdbManager.db after.1) !! id a = None ∧
  retries <$> requests (IdbManager.db after.1) !! id b = Some 1.
Proof.
  intros net a b d after.
  assert (keyed d) as Hkeyed
    by (apply (bool_decide_unpack _); vm_compute; exact I).
  split; [exact Hkeyed|].
  destruct (pass_removes_confirmed_requests IdbManager.UpdatePut net (λ _, 0)
              d Hkeyed) as (s & Hs & _ & Hgone & _).
  split; [|vm_compute; reflexivity].
  apply (Hgone a); [|reflexivity].
  assert (IdbManager.attempted <$> after.2 = Some [a; b]) as Hatt
    by (vm_compute; reflexivity).
  subst after. rewrite Hs in Hatt. injection Hatt as ->.
  apply list_elem_of_here.
Defined.

(** ** A pass in flight and the events around it *)

Section PassInFlight.
Import IdbManager.

Lemma pending_stored d p x :
  snapshot_ok d p → x ∈ pending p → requests d !! id x = Some x.
Proof.
  destruct p as [|r rest|r rest|]; simpl.
  - intros _ Hx. by apply elem_of_nil in Hx.
  - intros [_ Hst] Hx. rewrite Forall_forall in Hst. by apply Hst.
  - intros (_ & Hst & _) Hx. rewrite Forall_forall in Hst. by apply Hst.
  - intros _ Hx. by apply elem_of_nil in Hx.
Qed.

End PassInFlight.

(** X28: a request that [queueRequest] adds while a pass is suspended after
    taking its snapshot is not among the requests that this pass will
    still attempt: the pass goes on with the snapshot it has, and the new
    request is in the queue for a later pass. *)
Theorem enqueue_during_pass_is_not_attempted :
  ∀ (impl : IdbManager.update_impl) (evs : list IdbManager.event)
    (online : bool) (e : IdbManager.Entropy) (method url : string)
    (data class : option string) (i : nat) (p : IdbManager.pass)
    (key : string),
    let c := IdbManager.run impl evs (IdbManager.init online) in
    IdbManager.tasks c !! i = Some p →
    (IdbManager.queueRequest e method url data class (IdbManager.om c)).1
    = Ok key →
    let c' := IdbManager.step impl
                (IdbManager.Enqueue e method url data class) c in
    IdbManager.tasks c' !! i = Some p ∧
    (key ∉ id <$> pending p) ∧
    requests (IdbManager.db (IdbManager.om c')) !! key
    = Some (IdbManager.make_request e method url data class).
Proof.
  intros impl evs online e method url data class i p key c Hi Hok c'.
  pose proof (consistent_run impl evs _ (consistent_init online)) as Hc.
  fold c in Hc. destruct Hc as (_ & Hsnap & _).
  pose proof (Forall_lookup_1 _ _ _ _ Hsnap Hi) as Hp.
  subst c'. cbn [IdbManager.step IdbManager.tasks IdbManager.om].
  split; [exact Hi|].
  revert Hok. unfold IdbManager.queueRequest, IdbManager.addToQueue.
  destruct (IdbManager.clonable _); [|discriminate].
  unfold IDB.add.
  destruct (requests (IdbManager.db (IdbManager.om c))
            !! id (IdbManager.make_request e method url data class))
    eqn:Hfree; [discriminate|].
  cbn [fst snd]. intros [= <-]. split.
  - intros (x & Hid & Hx)%list_elem_of_fmap.
    pose proof (pending_stored _ _ _ Hp Hx) as Hstored.
    rewrite <- Hid in Hstored.
    change (IdbManager.make_id e)
      with (id (IdbManager.make_request e method url data class))
      in Hstored.
    congruence.
  - simpl. apply lookup_insert_eq.
Qed.

Lemma enqueue_during_pass_is_not_attempted_witness :
  let first := IdbManager.mkEntropy 1700000000000 "a7c1m4p8w" 1700000000000 in
  let second := IdbManager.mkEntropy 1700000000500 "zk3j9x0q2" 1700000000500 in
  let evs :=
    [IdbManager.Enqueue first "POST" "/api/orders/" None (Some "high");
     IdbManager.Trigger;
     IdbManager.Resume 0 Fulfilled 0] in
  let c := IdbManager.run IdbManager.UpdateUndefined evs
             (IdbManager.init true) in
  let c' := IdbManager.step IdbManager.UpdateUndefined
              (IdbManager.Enqueue second "POST" "/api/stock/" None None) c in
  (λ p, id <$> pending p) <$> IdbManager.tasks c' !! 0%nat
  = Some [IdbManager.make_id first] ∧
  is_Some (requests (IdbManager.db (IdbManager.om c'))
           !! IdbManager.make_id second).
Proof.
  intros first second evs c c'.
  destruct (IdbManager.tasks c !! 0%nat) as [p|] eqn:Hi;
    [|by vm_compute in Hi].
  assert ((IdbManager.queueRequest second "POST" "/api/stock/" None None
             (IdbManager.om c)).1 = Ok (IdbManager.make_id second)) as Hok
    by (vm_compute; reflexivity).
  destruct (enqueue_during_pass_is_not_attempted IdbManager.UpdateUndefined
              evs true second "POST" "/api/stock/" None None 0%nat p
              (IdbManager.make_id second) Hi Hok) as (Htask & _ & Hqueued).
  fold c c' in Htask, Hqueued. split.
  - vm_compute. reflexivity.
  - rewrite Hqueued. eauto.
Defined.

Section ConnectivityFlag.
Import IdbManager.
Variable impl : update_impl.

Lemma isOnline_next_entry i d rest c :
  isOnline (om (next_entry i d rest c)) = isOnline (om c).
Proof. by destruct rest. Qed.

Lemma isOnline_step ev c : isOnline (om (step impl ev c)) = isOnline (om c).
Proof.
  destruct ev as [|online|e m u dt pr|i o now]; simpl.
  - by destruct (syncInProgress (om c) || negb (isOnline (om c))).
  - done.
  - apply queueRequest_flags.
  - unfold resume. destruct (tasks c !! i) as [p|]; [|done].
    destruct p as [|r rest|r rest|]; [apply isOnline_next_entry| |
      apply isOnline_next_entry | done].
    destruct (begin_entry impl o now r (db (om c)));
      [apply isOnline_next_entry | done | done].
Qed.

Lemma isOnline_run evs c : isOnline (om (run impl evs c)) = isOnline (om c).
Proof.
  revert c. induction evs as [|ev evs IH]; intros c; simpl; [done|].
  by rewrite IH, isOnline_step.
Qed.

(** A controller that was constructed offline has no call in flight and
    only adds to its queue. *)
Lemma offline_step ev c :
  isOnline (om c) = false → tasks c = [] →
  tasks (step impl ev c) = [] ∧
  syncInProgress (om (step impl ev c)) = syncInProgress (om c) ∧
  failed (db (om (step impl ev c))) = failed (db (om c)) ∧
  requests (db (om c)) ⊆ requests (db (om (step impl ev c))).
Proof.
  intros Hoff Hts. destruct ev as [|online|e m u dt pr|i o now]; simpl.
  - rewrite Hoff, orb_true_r. by repeat split.
  - by repeat split.
  - destruct (queueRequest_cases e m u dt pr (om c)) as [->|[Hnone ->]];
      [by repeat split|].
    simpl. repeat split; try done. by apply insert_subseteq.
  - unfold resume. rewrite Hts. by repeat split.
Qed.

Lemma offline_run evs c :
  isOnline (om c) = false → tasks c = [] →
  tasks (run impl evs c) = [] ∧
  syncInProgress (om (run impl evs c)) = syncInProgress (om c) ∧
  failed (db (om (run impl evs c))) = failed (db (om c)) ∧
  requests (db (om c)) ⊆ requests (db (om (run impl evs c))).
Proof.
  revert c. induction evs as [|ev evs IH]; intros c Hoff Hts; simpl;
    [by repeat split|].
  destruct (offline_step ev c Hoff Hts) as (Hts' & Hflag & Hfailed & Hsub).
  destruct (IH (step impl ev c)) as (Hts'' & Hflag' & Hfailed' & Hsub');
    [by rewrite isOnline_step | exact Hts' |].
  split; [exact Hts''|]. split; [congruence|]. split; [congruence|].
  by etrans.
Qed.

End ConnectivityFlag.

(** X29: the IndexedDB controller reads the connectivity once.  Its
    [handleOnline] and [handleOffline] have empty bodies, so that an
    [online] or [offline] event of the window changes nothing and
    [isOnline] keeps, through every run, the value that the constructor
    took from [navigator.onLine].  A controller that was constructed online
    therefore starts a pass on every trigger that finds no pass in
    progress, whatever events of the window came before.  A controller
    that was constructed offline never starts one: it has no call in
    flight, it leaves the failed store as the page load found it, and
    every record that the queue held at the page load is still in it,
    unchanged. *)
Theorem connectivity_is_read_once :
  ∀ (impl : IdbManager.update_impl) (d : DB) (online : bool)
    (evs : list IdbManager.event),
    let c := IdbManager.run impl evs (IdbManager.load online d) in
    IdbManager.isOnline (IdbManager.om c) = online ∧
    (∀ b, IdbManager.step impl (IdbManager.Connectivity b) c = c) ∧
    (if online
     then IdbManager.syncInProgress (IdbManager.om c) = false →
          IdbManager.step impl IdbManager.Trigger c
          = IdbManager.mkContext
              (IdbManager.set_syncInProgress true (IdbManager.om c))
              (IdbManager.tasks c ++ [IdbManager.AwaitSnapshot])
     else IdbManager.tasks c = [] ∧
          IdbManager.syncInProgress (IdbManager.om c) = false ∧
          IdbManager.step impl IdbManager.Trigger c = c ∧
          failed (IdbManager.db (IdbManager.om c)) = failed d ∧
          requests d ⊆ requests (IdbManager.db (IdbManager.om c))).
Proof.
  intros impl d online evs c.
  assert (IdbManager.isOnline (IdbManager.om c) = online) as Honline
    by apply (isOnline_run impl evs (IdbManager.load online d)).
  split; [exact Honline|]. split; [done|].
  destruct online.
  - intros Hflag. cbn [IdbManager.step]. by rewrite Hflag, Honline.
  - destruct (offline_run impl evs (IdbManager.load false d) eq_refl eq_refl)
      as (Hts & Hflag & Hfailed & Hsub).
    fold c in Hts, Hflag, Hfailed, Hsub.
    split; [exact Hts|]. split; [exact Hflag|].
    split; [|by split].
    cbn [IdbManager.step]. by rewrite Honline, orb_true_r.
Qed.
